(** * Polygon billiards physics engine: a shallow embedding of [main.py]

    The program computes with IEEE doubles (Python floats and numpy
    arrays of two floats).  The embedding reads every float as a real
    number: arithmetic is exact, [math.cos], [math.sin], [math.pi] and
    [np.linalg.norm] are the functions of the real library, and the two
    infinities used as loop seeds are constructors of [xreal].  A numpy
    array of shape (2,) is the record [vec]; no array is shared between
    two bodies in the program (each constructor call allocates its own,
    and every later assignment either mutates in place or binds a fresh
    array), so arrays are record fields of the body that owns them.
    Python exceptions are values of [exn]. *)

From Stdlib Require Import Reals Lra List Bool Arith Lia String ZArith.
Import ListNotations.
Open Scope R_scope.

(** ** Comparisons of floats as booleans *)

Definition Rltb (a b : R) : bool := if Rlt_dec a b then true else false.
Definition Rgtb (a b : R) : bool := Rltb b a.
Definition Reqb (a b : R) : bool := if Req_dec_T a b then true else false.

(** [min(a, b)] and [max(a, b)] of Python on two floats: the second
    argument replaces the first only when it compares strictly. *)
Definition py_min (a b : R) : R := if Rltb b a then b else a.
Definition py_max (a b : R) : R := if Rgtb b a then b else a.

(** ** Floats that may be infinite: [float('inf')] and [-float('inf')] *)

Inductive xreal : Type :=
| NInf : xreal
| Fin : R -> xreal
| PInf : xreal.

(** [x < y] for a finite [x] and a possibly infinite [y]. *)
Definition lt_x (x : R) (y : xreal) : bool :=
  match y with
  | NInf => false
  | Fin r => Rltb x r
  | PInf => true
  end.

(** [x > y] for a finite [x] and a possibly infinite [y]. *)
Definition gt_x (x : R) (y : xreal) : bool :=
  match y with
  | NInf => true
  | Fin r => Rgtb x r
  | PInf => false
  end.

(** ** Python exceptions and results *)

Inductive exn : Type :=
| TypeError
| ValueError.

Inductive result (A : Type) : Type :=
| Ok : A -> result A
| Raise : exn -> result A.
Arguments Ok {A} _.
Arguments Raise {A} _.

Definition bind {A B : Type} (m : result A) (k : A -> result B) : result B :=
  match m with
  | Ok a => k a
  | Raise e => Raise e
  end.

Notation "x <- m ;; k" := (bind m (fun x => k))
  (at level 61, m at next level, right associativity).
Notation "' pat <- m ;; k" := (bind m (fun x => match x with pat => k end))
  (at level 61, pat pattern, m at next level, right associativity).

(** ** Arrays of two floats *)

Record vec : Type := mkvec { vx : R; vy : R }.

Definition vzero : vec := mkvec 0 0.
Definition vadd (u v : vec) : vec := mkvec (vx u + vx v) (vy u + vy v).
Definition vsub (u v : vec) : vec := mkvec (vx u - vx v) (vy u - vy v).
Definition vneg (v : vec) : vec := mkvec (- vx v) (- vy v).
(** [v * k] *)
Definition vscale (v : vec) (k : R) : vec := mkvec (vx v * k) (vy v * k).
(** [v / k] *)
Definition vdiv (v : vec) (k : R) : vec := mkvec (vx v / k) (vy v / k).
(** [np.dot(u, v)] *)
Definition dot (u v : vec) : R := vx u * vx v + vy u * vy v.
(** [np.linalg.norm(v)] *)
Definition norm (v : vec) : R := sqrt (vx v * vx v + vy v * vy v).

(** ** Constants of the table *)

Definition SCREEN_WIDTH : R := 1000.
Definition SCREEN_HEIGHT : R := 600.
Definition TABLE_WIDTH : R := 800.
Definition TABLE_HEIGHT : R := 400.
Definition TABLE_X : R := (SCREEN_WIDTH - TABLE_WIDTH) / 2.
Definition TABLE_Y : R := (SCREEN_HEIGHT - TABLE_HEIGHT) / 2.
Definition BORDER_SIZE : R := 30.
Definition HOLE_RADIUS : R := 25.

Definition colour : Type := (nat * nat * nat)%type.
Definition WHITE : colour := (255, 255, 255)%nat.

(** ** Rigid bodies *)

Record RigidBody : Type := mkRigidBody {
  pos : vec;
  vel : vec;
  angle : R;
  ang_vel : R;
  mass : R;
  inv_mass : R;
  color : colour;
  size : R;
  is_cue : bool;
  inertia : R;
  inv_inertia : R;
  local_vertices : list vec
}.

Definition set_pos (b : RigidBody) (p : vec) : RigidBody :=
  mkRigidBody p (vel b) (angle b) (ang_vel b) (mass b) (inv_mass b)
    (color b) (size b) (is_cue b) (inertia b) (inv_inertia b) (local_vertices b).

Definition set_vel (b : RigidBody) (v : vec) : RigidBody :=
  mkRigidBody (pos b) v (angle b) (ang_vel b) (mass b) (inv_mass b)
    (color b) (size b) (is_cue b) (inertia b) (inv_inertia b) (local_vertices b).

Definition set_angle (b : RigidBody) (a : R) : RigidBody :=
  mkRigidBody (pos b) (vel b) a (ang_vel b) (mass b) (inv_mass b)
    (color b) (size b) (is_cue b) (inertia b) (inv_inertia b) (local_vertices b).

Definition set_ang_vel (b : RigidBody) (w : R) : RigidBody :=
  mkRigidBody (pos b) (vel b) (angle b) w (mass b) (inv_mass b)
    (color b) (size b) (is_cue b) (inertia b) (inv_inertia b) (local_vertices b).

(** [pos[0] = x], [pos[1] = y], [vel[0] *= k], [vel[1] *= k] *)
Definition set_pos_x (b : RigidBody) (x : R) : RigidBody :=
  set_pos b (mkvec x (vy (pos b))).
Definition set_pos_y (b : RigidBody) (y : R) : RigidBody :=
  set_pos b (mkvec (vx (pos b)) y).
Definition mul_vel_x (b : RigidBody) (k : R) : RigidBody :=
  set_vel b (mkvec (vx (vel b) * k) (vy (vel b))).
Definition mul_vel_y (b : RigidBody) (k : R) : RigidBody :=
  set_vel b (mkvec (vx (vel b)) (vy (vel b) * k)).

(** [RigidBody.__init__].  [rnd] is the value drawn by
    [random.randint(3, 6)]; it is consulted only for a body that is not
    the cue.  The constructor has no [raise]: on numbers it always
    returns, which the result type records as [Ok]. *)
Definition RigidBody_init (x y m : R) (c : colour) (shape_type : string)
    (sz : R) (rnd : nat) : result RigidBody :=
  let inv_m := if Rgtb m 0 then 1 / m else 0 in
  let cue := String.eqb shape_type "cue" in
  let radius := sz / 2 in
  let i := 0.5 * m * (radius ^ 2) in
  let inv_i := if Rgtb i 0 then 1 / i else 0 in
  let sides := if cue then 16%nat else rnd in
  let verts :=
    map (fun k : nat =>
           let theta := 2 * PI * INR k / INR sides in
           let r := sz / 2 in
           mkvec (r * cos theta) (r * sin theta))
        (seq 0 sides) in
  Ok (mkRigidBody (mkvec x y) (mkvec 0 0) 0 0 m inv_m c sz cue i inv_i verts).

(** [RigidBody.update] *)
Definition update (b : RigidBody) (dt : R) : RigidBody :=
  let b := set_pos b (vadd (pos b) (vscale (vel b) dt)) in
  let b := set_angle b (angle b + ang_vel b * dt) in
  let b := set_vel b (vscale (vel b) 0.985) in
  let b := set_ang_vel b (ang_vel b * 0.98) in
  let b := if Rltb (norm (vel b)) 2.0 then set_vel b vzero else b in
  let b := if Rltb (Rabs (ang_vel b)) 0.1 then set_ang_vel b 0 else b in
  let e_wall := 0.8 in
  let b :=
    if Rltb (vx (pos b)) (TABLE_X + size b / 2) then
      mul_vel_x (set_pos_x b (TABLE_X + size b / 2)) (- e_wall)
    else if Rgtb (vx (pos b)) (TABLE_X + TABLE_WIDTH - size b / 2) then
      mul_vel_x (set_pos_x b (TABLE_X + TABLE_WIDTH - size b / 2)) (- e_wall)
    else b in
  let b :=
    if Rltb (vy (pos b)) (TABLE_Y + size b / 2) then
      mul_vel_y (set_pos_y b (TABLE_Y + size b / 2)) (- e_wall)
    else if Rgtb (vy (pos b)) (TABLE_Y + TABLE_HEIGHT - size b / 2) then
      mul_vel_y (set_pos_y b (TABLE_Y + TABLE_HEIGHT - size b / 2)) (- e_wall)
    else b in
  b.

(** [RigidBody.get_world_vertices] *)
Definition get_world_vertices (b : RigidBody) : list vec :=
  let c := cos (angle b) in
  let s := sin (angle b) in
  map (fun v => vadd (pos b) (mkvec (c * vx v - s * vy v) (s * vx v + c * vy v)))
      (local_vertices b).

(** ** Collision detection: separating axes *)

(** [get_axes] *)
Definition get_axes (vertices : list vec) : list vec :=
  let n := List.length vertices in
  flat_map
    (fun i : nat =>
       let p1 := nth i vertices vzero in
       let p2 := nth ((i + 1) mod n) vertices vzero in
       let edge := vsub p1 p2 in
       let normal := mkvec (- vy edge) (vx edge) in
       let len := norm normal in
       if Rgtb len 0 then [vdiv normal len] else [])
    (seq 0 n).

(** [min(dots)] and [max(dots)] on a list: [ValueError] on the empty one. *)
Definition min_list (l : list R) : result R :=
  match l with
  | [] => Raise ValueError
  | x :: r => Ok (fold_left py_min r x)
  end.

Definition max_list (l : list R) : result R :=
  match l with
  | [] => Raise ValueError
  | x :: r => Ok (fold_left py_max r x)
  end.

(** [project] *)
Definition project (vertices : list vec) (axis : vec) : result (R * R) :=
  let dots := map (fun v => dot v axis) vertices in
  lo <- min_list dots ;;
  hi <- max_list dots ;;
  Ok (lo, hi).

(** The [for axis in axes] loop of [check_collision_sat] ends either in
    the early [return False, None, 0] or with the two loop variables. *)
Inductive sat_scan : Type :=
| Separated : sat_scan
| Scanned (min_overlap : xreal) (collision_normal : option vec) : sat_scan.

Fixpoint sat_loop (verts_a verts_b axes : list vec)
    (min_overlap : xreal) (collision_normal : option vec) : result sat_scan :=
  match axes with
  | [] => Ok (Scanned min_overlap collision_normal)
  | axis :: rest =>
      '(min_a, max_a) <- project verts_a axis ;;
      '(min_b, max_b) <- project verts_b axis ;;
      if Rltb max_a min_b || Rltb max_b min_a then Ok Separated
      else
        let overlap := py_min max_a max_b - py_max min_a min_b in
        if lt_x overlap min_overlap
        then sat_loop verts_a verts_b rest (Fin overlap) (Some axis)
        else sat_loop verts_a verts_b rest min_overlap collision_normal
  end.

(** [check_collision_sat]: [np.dot] on the [None] normal left by an empty
    list of axes is a [TypeError]. *)
Definition check_collision_sat (body_a body_b : RigidBody)
    : result (bool * option vec * xreal) :=
  let verts_a := get_world_vertices body_a in
  let verts_b := get_world_vertices body_b in
  let axes := get_axes verts_a ++ get_axes verts_b in
  scan <- sat_loop verts_a verts_b axes PInf None ;;
  match scan with
  | Separated => Ok (false, None, Fin 0)
  | Scanned min_overlap None => Raise TypeError
  | Scanned min_overlap (Some collision_normal) =>
      let collision_normal :=
        if Rltb (dot (vsub (pos body_b) (pos body_a)) collision_normal) 0
        then vneg collision_normal else collision_normal in
      Ok (true, Some collision_normal, min_overlap)
  end.

(** ** Collision response: impulses *)

(** The loop of [get_support], from the state [(best_projection, best_point)]. *)
Fixpoint support_loop (vertices : list vec) (direction : vec)
    (best_projection : xreal) (best_point : option vec) : option vec :=
  match vertices with
  | [] => best_point
  | v :: rest =>
      let projection := dot v direction in
      if gt_x projection best_projection
      then support_loop rest direction (Fin projection) (Some v)
      else support_loop rest direction best_projection best_point
  end.

(** [get_support] *)
Definition get_support (vertices : list vec) (direction : vec) : option vec :=
  support_loop vertices direction NInf None.

Definition cross_2d (v1 v2 : vec) : R := vx v1 * vy v2 - vy v1 * vx v2.

(** [resolve_collision].  The two bodies are distinct objects (the caller
    passes [balls[i]] and [balls[j]] with [i < j]).  The result is the
    state of both bodies when the call ends and the exception that ended
    it, if any: a support point [None] (a body without vertices) makes the
    subtraction that follows a [TypeError], after the positions moved. *)
Definition resolve_collision (body_a body_b : RigidBody) (normal : vec) (depth : R)
    : RigidBody * RigidBody * option exn :=
  let total_inv := inv_mass body_a + inv_mass body_b in
  if Reqb total_inv 0 then (body_a, body_b, None) else
  let move := vscale normal (depth * 0.5) in
  let body_a := set_pos body_a (vsub (pos body_a) move) in
  let body_b := set_pos body_b (vadd (pos body_b) move) in
  match get_support (get_world_vertices body_a) normal,
        get_support (get_world_vertices body_b) (vneg normal) with
  | Some contact_a, Some contact_b =>
      let vals_a := dot (vsub contact_a (pos body_b)) (vneg normal) in
      let vals_b := dot (vsub contact_b (pos body_a)) normal in
      let contact_point := if Rgtb vals_a vals_b then contact_a else contact_b in
      let r_a := vsub contact_point (pos body_a) in
      let r_b := vsub contact_point (pos body_b) in
      let vel_a := vadd (vel body_a)
                     (mkvec (- ang_vel body_a * vy r_a) (ang_vel body_a * vx r_a)) in
      let vel_b := vadd (vel body_b)
                     (mkvec (- ang_vel body_b * vy r_b) (ang_vel body_b * vx r_b)) in
      let rel_vel := vsub vel_b vel_a in
      let vel_normal := dot rel_vel normal in
      if Rgtb vel_normal 0 then (body_a, body_b, None) else
      let e := 0.9 in
      let rn_a := cross_2d r_a normal in
      let rn_b := cross_2d r_b normal in
      let denom := total_inv + rn_a ^ 2 * inv_inertia body_a
                             + rn_b ^ 2 * inv_inertia body_b in
      let j := - (1 + e) * vel_normal / denom in
      let impulse := vscale normal j in
      let body_a := set_vel body_a (vsub (vel body_a) (vscale impulse (inv_mass body_a))) in
      let body_a := set_ang_vel body_a
                      (ang_vel body_a - cross_2d r_a impulse * inv_inertia body_a) in
      let body_b := set_vel body_b (vadd (vel body_b) (vscale impulse (inv_mass body_b))) in
      let body_b := set_ang_vel body_b
                      (ang_vel body_b + cross_2d r_b impulse * inv_inertia body_b) in
      (body_a, body_b, None)
  | _, _ => (body_a, body_b, Some TypeError)
  end.

(** ** Game logic: pockets, the physics part of the main loop, the strike *)

(** [get_pockets]: [for y in ys for x in xs]. *)
Definition get_pockets : list vec :=
  let xs := [TABLE_X + BORDER_SIZE; TABLE_X + TABLE_WIDTH / 2;
             TABLE_X + TABLE_WIDTH - BORDER_SIZE] in
  let ys := [TABLE_Y + BORDER_SIZE; TABLE_Y + TABLE_HEIGHT - BORDER_SIZE] in
  flat_map (fun y => map (fun x => mkvec x y) xs) ys.

(** [check_pocket_fall] *)
Fixpoint check_pocket_fall (ball : RigidBody) (pockets : list vec) : bool :=
  match pockets with
  | [] => false
  | pocket :: rest =>
      if Rltb (norm (vsub (pos ball) pocket)) HOLE_RADIUS then true
      else check_pocket_fall ball rest
  end.

(** The point the cue ball starts from and is put back to. *)
Definition spawn : vec := mkvec (TABLE_X + 200) (TABLE_Y + TABLE_HEIGHT / 2).

(** Bodies are objects: the list [balls] holds references, and the store
    maps a reference to the state of its object. *)
Definition ref : Type := nat.
Definition store : Type := ref -> RigidBody.

Definition put (h : store) (k : ref) (b : RigidBody) : store :=
  fun k' => if Nat.eqb k' k then b else h k'.

Record world : Type := mkworld { heap : store; balls : list ref }.

(** [for ball in balls:] of the physics part, from the state
    [(heap, balls_to_remove)]; the list walked is [balls], which the
    loop body does not touch. *)
Fixpoint pocket_scan (h : store) (todo : list ref) (dt : R) (pockets : list vec)
    (balls_to_remove : list ref) : store * list ref :=
  match todo with
  | [] => (h, balls_to_remove)
  | ball :: rest =>
      let h := put h ball (update (h ball) dt) in
      if check_pocket_fall (h ball) pockets then
        if is_cue (h ball) then
          let h := put h ball (set_pos (h ball) spawn) in
          let h := put h ball (set_vel (h ball) vzero) in
          let h := put h ball (set_ang_vel (h ball) 0) in
          pocket_scan h rest dt pockets balls_to_remove
        else pocket_scan h rest dt pockets (balls_to_remove ++ [ball])
      else pocket_scan h rest dt pockets balls_to_remove
  end.

(** [b in balls] and [balls.remove(b)] on references (object identity). *)
Definition py_in (b : ref) (l : list ref) : bool := existsb (Nat.eqb b) l.

Fixpoint py_remove (b : ref) (l : list ref) : list ref :=
  match l with
  | [] => []
  | x :: r => if Nat.eqb x b then r else x :: py_remove b r
  end.

(** [for b in balls_to_remove: if b in balls: balls.remove(b)] *)
Definition remove_queued (balls_to_remove l : list ref) : list ref :=
  fold_left (fun l b => if py_in b l then py_remove b l else l) balls_to_remove l.

(** Lines 277 to 290: the scan of all bodies, then the removals. *)
Definition pocket_pass (w : world) (dt : R) : world :=
  let '(h, balls_to_remove) := pocket_scan (heap w) (balls w) dt get_pockets [] in
  mkworld h (remove_queued balls_to_remove (balls w)).

(** The inner loop [for j in range(i + 1, len(balls))] for a fixed [i]:
    [js] are the references after position [i].  A result [True] of
    [check_collision_sat] always carries a normal and a finite depth
    ([check_collision_sat_true]); the last branch is there for the types. *)
Fixpoint collide_row (h : store) (i : ref) (js : list ref) : store * option exn :=
  match js with
  | [] => (h, None)
  | j :: rest =>
      match check_collision_sat (h i) (h j) with
      | Raise e => (h, Some e)
      | Ok (false, _, _) => collide_row h i rest
      | Ok (true, Some nrm, Fin depth) =>
          let '(a, b, e) := resolve_collision (h i) (h j) nrm depth in
          let h := put (put h i a) j b in
          match e with
          | Some _ => (h, e)
          | None => collide_row h i rest
          end
      | Ok (true, _, _) => (h, Some TypeError)
      end
  end.

(** [for i in range(len(balls))] around it. *)
Fixpoint collide_all (h : store) (l : list ref) : store * option exn :=
  match l with
  | [] => (h, None)
  | i :: rest =>
      match collide_row h i rest with
      | (h, Some e) => (h, Some e)
      | (h, None) => collide_all h rest
      end
  end.

(** The physics of one frame: lines 277 to 296. *)
Definition step (w : world) (dt : R) : world * option exn :=
  let w := pocket_pass w dt in
  let '(h, e) := collide_all (heap w) (balls w) in
  (mkworld h (balls w), e).

(** The release of the drag (lines 267 to 274), on the drag vector
    [start_drag - end_drag]; [strike_normalises] is the test that guards
    the only division. *)
Definition strike_normalises (force : vec) : bool := Rgtb (norm force) 300.

Definition strike (cue_ball : RigidBody) (start_drag end_drag : vec) : RigidBody :=
  let force := vsub start_drag end_drag in
  let force :=
    if strike_normalises force then vscale (vdiv force (norm force)) 300 else force in
  set_vel cue_ball (vscale force 5.0).

(** The two nested loops of [init_game] over the places [(i, j)] of the
    rack, from the list [balls] built so far.  [rnd i j] stands for the
    four draws made for the ball of row [i] and place [j]: the number of
    sides that [__init__] draws and the three colour components. *)
Fixpoint init_rack (rnd : nat -> nat -> nat * colour) (places : list (nat * nat))
    (balls : list RigidBody) : result (list RigidBody) :=
  match places with
  | [] => Ok balls
  | (i, j) :: rest =>
      let start_x := TABLE_X + 600 in
      let start_y := TABLE_Y + TABLE_HEIGHT / 2 in
      let x := start_x + INR i * 38 in
      let y := start_y + INR j * 38 - INR i * 19 in
      b <- RigidBody_init x y 20 (snd (rnd i j)) "poly" 35 (fst (rnd i j)) ;;
      init_rack rnd rest (balls ++ [b])
  end.

(** [init_game]: the list returned is [balls]; [cue_ball] is its first
    element. *)
Definition init_game (rnd : nat -> nat -> nat * colour) : result (list RigidBody) :=
  cue_ball <- RigidBody_init (TABLE_X + 200) (TABLE_Y + TABLE_HEIGHT / 2) 20
                WHITE "cue" 35 0 ;;
  init_rack rnd
    (flat_map (fun i => map (fun j => (i, j)) (seq 0 (i + 1))) (seq 0 5))
    [cue_ball].

(** The collection for a list of bodies: body number [k] is referred to
    by [k]; [no_body] stands behind the references that name no body and
    is never read through those of the collection. *)
Definition no_body : RigidBody :=
  mkRigidBody vzero vzero 0 0 0 0 WHITE 0 false 0 0 [].

Definition world_of (l : list RigidBody) : world :=
  mkworld (fun r => nth r l no_body) (seq 0 (List.length l)).

(** ** The events of a frame (lines 248 to 274) *)

(** The events the loop tells apart; [button] is [event.button]. *)
Inductive event : Type :=
| QUIT
| MOUSEBUTTONDOWN (button : Z)
| MOUSEBUTTONUP (button : Z)
| OtherEvent.

(** [pygame.Rect(left, top, width, height)] and its [collidepoint]: a
    point is inside when it is on the left or top edge or within, and
    not when it is on the right or bottom edge. *)
Record Rect : Type :=
  mkRect { r_left : Z; r_top : Z; r_width : Z; r_height : Z }.

Definition collidepoint (r : Rect) (p : Z * Z) : bool :=
  ((r_left r <=? fst p) && (fst p <? r_left r + r_width r)
   && (r_top r <=? snd p) && (snd p <? r_top r + r_height r))%Z.

(** With [SCREEN_WIDTH = 1000]. *)
Definition btn_menu_rect : Rect := mkRect (1000 - 110) 10 100 40.
Definition btn_reset_rect : Rect := mkRect (1000 - 110) 60 100 40.
Definition btn_quit_rect : Rect := mkRect (1000 - 110) 110 100 40.

(** The variables of [main] that the events read and write: the
    collection [balls] with the store of its bodies, [cue_ball],
    [is_dragging], [start_drag] ([None] at first), [show_menu] and
    [running]. *)
Record ui : Type := mkui {
  game : world;
  cue_ball : ref;
  is_dragging : bool;
  start_drag : option (Z * Z);
  show_menu : bool;
  running : bool
}.

(** [np.array(p)] for a mouse position. *)
Definition array_of (p : Z * Z) : vec := mkvec (IZR (fst p)) (IZR (snd p)).

(** The body of [for event in pygame.event.get():] for one event;
    [mouse_pos] is read once per frame, before the loop.  A reset makes
    new bodies, drawn with [rnd]; [np.array(start_drag)] on a [None]
    makes the subtraction a [TypeError]. *)
Definition handle_event (rnd : nat -> nat -> nat * colour) (mouse_pos : Z * Z)
    (s : ui) (ev : event) : result ui :=
  match ev with
  | QUIT =>
      Ok (mkui (game s) (cue_ball s) (is_dragging s) (start_drag s) (show_menu s) false)
  | MOUSEBUTTONDOWN button =>
      if (button =? 1)%Z then
        if collidepoint btn_menu_rect mouse_pos then
          Ok (mkui (game s) (cue_ball s) (is_dragging s) (start_drag s)
                (negb (show_menu s)) (running s))
        else if show_menu s then
          if collidepoint btn_reset_rect mouse_pos then
            l <- init_game rnd ;;
            Ok (mkui (world_of l) 0%nat (is_dragging s) (start_drag s) false (running s))
          else if collidepoint btn_quit_rect mouse_pos then
            Ok (mkui (game s) (cue_ball s) (is_dragging s) (start_drag s)
                  (show_menu s) false)
          else
            Ok (mkui (game s) (cue_ball s) (is_dragging s) (start_drag s)
                  false (running s))
        else if negb (show_menu s) && (1 <? List.length (balls (game s)))%nat then
          if Rltb (norm (vel (heap (game s) (cue_ball s)))) 5 then
            Ok (mkui (game s) (cue_ball s) true (Some mouse_pos) (show_menu s)
                  (running s))
          else Ok s
        else Ok s
      else Ok s
  | MOUSEBUTTONUP button =>
      if (button =? 1)%Z && is_dragging s then
        match start_drag s with
        | None => Raise TypeError
        | Some sd =>
            let end_drag := mouse_pos in
            let cue := strike (heap (game s) (cue_ball s))
                         (array_of sd) (array_of end_drag) in
            Ok (mkui (mkworld (put (heap (game s)) (cue_ball s) cue) (balls (game s)))
                  (cue_ball s) false (start_drag s) (show_menu s) (running s))
        end
      else Ok s
  | OtherEvent => Ok s
  end.

(** All the events of one frame, in order. *)
Fixpoint handle_events (rnd : nat -> nat -> nat * colour) (mouse_pos : Z * Z)
    (s : ui) (evs : list event) : result ui :=
  match evs with
  | [] => Ok s
  | ev :: rest =>
      s' <- handle_event rnd mouse_pos s ev ;;
      handle_events rnd mouse_pos s' rest
  end.

(** ** The main loop, without its rendering *)

(** What a frame takes from outside: the draws a reset would use, the
    mouse position, the frame time [clock.tick(FPS) / 1000.0] and the
    events waiting. *)
Record frame_input : Type := mkframe {
  f_rnd : nat -> nat -> nat * colour;
  f_mouse : Z * Z;
  f_dt : R;
  f_events : list event
}.

(** One turn of [while running:]: the events, then the physics, which
    runs to its end even when an event has just cleared [running]. *)
Definition frame (s : ui) (f : frame_input) : result ui :=
  s <- handle_events (f_rnd f) (f_mouse f) s (f_events f) ;;
  match step (game s) (f_dt f) with
  | (w, None) =>
      Ok (mkui w (cue_ball s) (is_dragging s) (start_drag s) (show_menu s) (running s))
  | (_, Some e) => Raise e
  end.

(** [while running:] over the frames that come. *)
Fixpoint run_frames (s : ui) (frames : list frame_input) : result ui :=
  match frames with
  | [] => Ok s
  | f :: rest =>
      if running s then s' <- frame s f ;; run_frames s' rest
      else Ok s
  end.

(** [main] up to the loop, then the loop: [rnd] is used by the first
    [init_game]. *)
Definition main (rnd : nat -> nat -> nat * colour) (frames : list frame_input)
    : result ui :=
  l <- init_game rnd ;;
  run_frames (mkui (world_of l) 0%nat false None false true) frames.

(** ** The stages of [integrate] as the specification words them *)

Module Stages.

(** 1. Translate position by [velocity * dt]; advance orientation by
    [angular_velocity * dt]. *)
Definition translate (b : RigidBody) (dt : R) : RigidBody :=
  mkRigidBody (mkvec (vx (pos b) + vx (vel b) * dt) (vy (pos b) + vy (vel b) * dt))
    (vel b) (angle b + ang_vel b * dt) (ang_vel b) (mass b) (inv_mass b)
    (color b) (size b) (is_cue b) (inertia b) (inv_inertia b) (local_vertices b).

(** 2. Multiply velocity by 0.985 and angular velocity by 0.98. *)
Definition damp (b : RigidBody) : RigidBody :=
  mkRigidBody (pos b) (mkvec (vx (vel b) * 0.985) (vy (vel b) * 0.985))
    (angle b) (ang_vel b * 0.98) (mass b) (inv_mass b)
    (color b) (size b) (is_cue b) (inertia b) (inv_inertia b) (local_vertices b).

(** 3. If speed magnitude < 2.0, zero the velocity vector; if angular
    speed < 0.1, zero angular velocity. *)
Definition clamp_to_rest (b : RigidBody) : RigidBody :=
  mkRigidBody (pos b)
    (if Rltb (norm (vel b)) 2.0 then mkvec 0 0 else vel b)
    (angle b)
    (if Rltb (Rabs (ang_vel b)) 0.1 then 0 else ang_vel b)
    (mass b) (inv_mass b)
    (color b) (size b) (is_cue b) (inertia b) (inv_inertia b) (local_vertices b).

(** 4. Wall containment on one axis: a coordinate [p] with velocity
    component [v], between the bounds [lo] and [hi], the low bound
    tested first. *)
Definition contain_axis (p v lo hi : R) : R * R :=
  if Rltb p lo then (lo, - v * 0.8)
  else if Rgtb p hi then (hi, - v * 0.8)
  else (p, v).

Definition contain (b : RigidBody) : RigidBody :=
  let '(x, u) := contain_axis (vx (pos b)) (vx (vel b))
                   (TABLE_X + size b / 2) (TABLE_X + TABLE_WIDTH - size b / 2) in
  let '(y, v) := contain_axis (vy (pos b)) (vy (vel b))
                   (TABLE_Y + size b / 2) (TABLE_Y + TABLE_HEIGHT - size b / 2) in
  mkRigidBody (mkvec x y) (mkvec u v) (angle b) (ang_vel b) (mass b) (inv_mass b)
    (color b) (size b) (is_cue b) (inertia b) (inv_inertia b) (local_vertices b).

Definition integrate (b : RigidBody) (dt : R) : RigidBody :=
  contain (clamp_to_rest (damp (translate b dt))).

End Stages.

(** ** The candidate axes as the specification words them *)

Module Sat.

(** A vector turned by the angle [theta]: the 2D rotation matrix
    applied to it. *)
Definition rotated (theta : R) (v : vec) : vec :=
  mkvec (vx v * cos theta - vy v * sin theta)
        (vx v * sin theta + vy v * cos theta).

(** worldVertices: each local vertex rotated by the orientation and
    translated by the position. *)
Definition world_vertices (b : RigidBody) : list vec :=
  map (fun v => vadd (rotated (angle b) v) (pos b)) (local_vertices b).

(** An edge [(p1, p2)] of the polygon in the stored order: a vertex and
    the one after it, the first one coming after the last. *)
Definition edge (vs : list vec) (p1 p2 : vec) : Prop :=
  exists i, (i < List.length vs)%nat
            /\ p1 = nth i vs vzero /\ p2 = nth (S i) vs (hd vzero vs).

(** The normalized perpendicular of [p1 - p2]. *)
Definition unit_normal (p1 p2 : vec) : vec :=
  let e := vsub p1 p2 in
  vscale (mkvec (- vy e) (vx e)) (1 / norm e).

(** The edge normals of a polygon: one for each edge of positive
    length. *)
Definition edge_normal (vs : list vec) (axis : vec) : Prop :=
  exists p1 p2, edge vs p1 p2 /\ p1 <> p2 /\ axis = unit_normal p1 p2.

(** The candidate axes of a pair: the edge normals of the one and those
    of the other. *)
Definition candidate (a b : RigidBody) (axis : vec) : Prop :=
  edge_normal (world_vertices a) axis \/ edge_normal (world_vertices b) axis.

(** A polygon that is not degenerate: it has an edge of positive
    length. *)
Definition proper (b : RigidBody) : Prop :=
  exists p1 p2, edge (world_vertices b) p1 p2 /\ p1 <> p2.

End Sat.

(** ** Auxiliary definitions for the statements *)

(** The body of [update], cut at its blank lines. *)
Definition update_move (b : RigidBody) (dt : R) : RigidBody :=
  let b := set_pos b (vadd (pos b) (vscale (vel b) dt)) in
  set_angle b (angle b + ang_vel b * dt).

Definition update_damp (b : RigidBody) : RigidBody :=
  let b := set_vel b (vscale (vel b) 0.985) in
  set_ang_vel b (ang_vel b * 0.98).

Definition update_rest (b : RigidBody) : RigidBody :=
  let b := if Rltb (norm (vel b)) 2.0 then set_vel b vzero else b in
  if Rltb (Rabs (ang_vel b)) 0.1 then set_ang_vel b 0 else b.

Definition update_wall_x (b : RigidBody) : RigidBody :=
  let e_wall := 0.8 in
  if Rltb (vx (pos b)) (TABLE_X + size b / 2) then
    mul_vel_x (set_pos_x b (TABLE_X + size b / 2)) (- e_wall)
  else if Rgtb (vx (pos b)) (TABLE_X + TABLE_WIDTH - size b / 2) then
    mul_vel_x (set_pos_x b (TABLE_X + TABLE_WIDTH - size b / 2)) (- e_wall)
  else b.

Definition update_wall_y (b : RigidBody) : RigidBody :=
  let e_wall := 0.8 in
  if Rltb (vy (pos b)) (TABLE_Y + size b / 2) then
    mul_vel_y (set_pos_y b (TABLE_Y + size b / 2)) (- e_wall)
  else if Rgtb (vy (pos b)) (TABLE_Y + TABLE_HEIGHT - size b / 2) then
    mul_vel_y (set_pos_y b (TABLE_Y + TABLE_HEIGHT - size b / 2)) (- e_wall)
  else b.

(** A square body at rest, of mass 20 as in [init_game], at a chosen
    place and of a chosen size; used as a concrete input. *)
Definition resting_ball (x y sz : R) (cue : bool) : RigidBody :=
  mkRigidBody (mkvec x y) (mkvec 0 0) 0 0 20 (1 / 20) WHITE sz cue
    (0.5 * 20 * ((sz / 2) ^ 2)) (1 / (0.5 * 20 * ((sz / 2) ^ 2)))
    [mkvec (sz / 2) 0; mkvec 0 (sz / 2); mkvec (- (sz / 2)) 0; mkvec 0 (- (sz / 2))].

(** The same body with a velocity. *)
Definition moving_ball (x y ux uy sz : R) : RigidBody :=
  set_vel (resting_ball x y sz false) (mkvec ux uy).

(** A square body of mass 0, hence immovable, at rest. *)
Definition anchored_ball (x y sz : R) : RigidBody :=
  mkRigidBody (mkvec x y) (mkvec 0 0) 0 0 0 0 WHITE sz false 0 0
    [mkvec (sz / 2) 0; mkvec 0 (sz / 2); mkvec (- (sz / 2)) 0; mkvec 0 (- (sz / 2))].

(** A square body at rest with its sides along the coordinate axes,
    of half side [h]. *)
Definition box_body (x y h : R) : RigidBody :=
  mkRigidBody (mkvec x y) (mkvec 0 0) 0 0 20 (1 / 20) WHITE (2 * h) false
    (0.5 * 20 * ((2 * h / 2) ^ 2)) (1 / (0.5 * 20 * ((2 * h / 2) ^ 2)))
    [mkvec h h; mkvec (- h) h; mkvec (- h) (- h); mkvec h (- h)].

(** The relation [__init__] sets up between mass, size and the derived
    fields. *)
Definition consistent (b : RigidBody) : Prop :=
  inv_mass b = (if Rgtb (mass b) 0 then 1 / mass b else 0)
  /\ inertia b = 0.5 * mass b * ((size b / 2) ^ 2)
  /\ inv_inertia b = (if Rgtb (inertia b) 0 then 1 / inertia b else 0).

(** The parts of what [resolve_collision] leaves behind. *)
Definition res_a (r : RigidBody * RigidBody * option exn) : RigidBody := fst (fst r).
Definition res_b (r : RigidBody * RigidBody * option exn) : RigidBody := snd (fst r).
Definition res_exn (r : RigidBody * RigidBody * option exn) : option exn := snd r.

(** The value [vel_normal] has on line 165 of [resolve_collision], when
    the call gets that far: lines 140 to 165 again, without the early
    return of line 167 and what follows it. *)
Definition vel_normal_of (body_a body_b : RigidBody) (normal : vec) (depth : R)
    : option R :=
  let total_inv := inv_mass body_a + inv_mass body_b in
  if Reqb total_inv 0 then None else
  let move := vscale normal (depth * 0.5) in
  let body_a := set_pos body_a (vsub (pos body_a) move) in
  let body_b := set_pos body_b (vadd (pos body_b) move) in
  match get_support (get_world_vertices body_a) normal,
        get_support (get_world_vertices body_b) (vneg normal) with
  | Some contact_a, Some contact_b =>
      let vals_a := dot (vsub contact_a (pos body_b)) (vneg normal) in
      let vals_b := dot (vsub contact_b (pos body_a)) normal in
      let contact_point := if Rgtb vals_a vals_b then contact_a else contact_b in
      let r_a := vsub contact_point (pos body_a) in
      let r_b := vsub contact_point (pos body_b) in
      let vel_a := vadd (vel body_a)
                     (mkvec (- ang_vel body_a * vy r_a) (ang_vel body_a * vx r_a)) in
      let vel_b := vadd (vel body_b)
                     (mkvec (- ang_vel body_b * vy r_b) (ang_vel body_b * vx r_b)) in
      let rel_vel := vsub vel_b vel_a in
      Some (dot rel_vel normal)
  | _, _ => None
  end.

(** Total linear momentum of a pair: the sum of [mass * vel]. *)
Definition momentum (a b : RigidBody) : vec :=
  vadd (vscale (vel a) (mass a)) (vscale (vel b) (mass b)).

(** The interval a list of vertices covers on an axis, in the words of
    the specification: the least and the greatest of the scalar
    projections (0 for no vertex at all). *)
Fixpoint least (x : R) (l : list R) : R :=
  match l with
  | [] => x
  | y :: r => Rmin x (least y r)
  end.

Fixpoint greatest (x : R) (l : list R) : R :=
  match l with
  | [] => x
  | y :: r => Rmax x (greatest y r)
  end.

Definition proj_min (vs : list vec) (axis : vec) : R :=
  match map (fun v => dot v axis) vs with
  | [] => 0
  | x :: r => least x r
  end.

Definition proj_max (vs : list vec) (axis : vec) : R :=
  match map (fun v => dot v axis) vs with
  | [] => 0
  | x :: r => greatest x r
  end.

(** The two intervals are disjoint on the axis. *)
Definition disjoint_on (va vb : list vec) (axis : vec) : Prop :=
  proj_max va axis < proj_min vb axis \/ proj_max vb axis < proj_min va axis.

(** The length of the common part of the two intervals on the axis. *)
Definition overlap_on (va vb : list vec) (axis : vec) : R :=
  Rmin (proj_max va axis) (proj_max vb axis)
  - Rmax (proj_min va axis) (proj_min vb axis).

(** A polygon with at least one edge of positive length: it yields an
    axis. *)
Definition nondegenerate (b : RigidBody) : Prop :=
  get_axes (get_world_vertices b) <> [].

(** The axis turned to point from the first body to the second. *)
Definition oriented (a b : RigidBody) (axis : vec) : vec :=
  if Rltb (dot (vsub (pos b) (pos a)) axis) 0 then vneg axis else axis.

(** What the scan of [axes] makes of the loop variables
    [(min_overlap, collision_normal)]: they are as before when no axis
    has an overlap below [min_overlap], and otherwise hold an axis of
    least overlap together with that overlap. *)
Definition scanned_to (va vb axes : list vec) (mo : xreal) (cn : option vec)
    (mo' : xreal) (cn' : option vec) : Prop :=
  (mo' = mo /\ cn' = cn
   /\ forall ax, In ax axes -> lt_x (overlap_on va vb ax) mo = false)
  \/ (exists axis, In axis axes
       /\ mo' = Fin (overlap_on va vb axis) /\ cn' = Some axis
       /\ lt_x (overlap_on va vb axis) mo = true
       /\ forall ax, In ax axes -> overlap_on va vb axis <= overlap_on va vb ax).

(** What the scan of the physics part does to one body: the update,
    then the reset if it is the cue and lies in a pocket. *)
Definition scanned_body (b : RigidBody) (dt : R) : RigidBody :=
  let u := update b dt in
  if check_pocket_fall u get_pockets && is_cue u
  then set_ang_vel (set_vel (set_pos u spawn) vzero) 0
  else u.

(** The body is queued for removal by the scan. *)
Definition captured (b : RigidBody) (dt : R) : bool :=
  check_pocket_fall (update b dt) get_pockets && negb (is_cue (update b dt)).

(** A cue body and a target body at rest, the target on the centre of
    the first pocket. *)
Definition pocket_world : world :=
  mkworld
    (fun r => if Nat.eqb r 0 then resting_ball 300 300 35 true
              else resting_ball (TABLE_X + BORDER_SIZE) (TABLE_Y + BORDER_SIZE) 35 false)
    [0%nat; 1%nat].


(** The contact point [resolve_collision] settles on (lines 143 to
    155), when the call gets that far. *)
Definition contact_point_of (body_a body_b : RigidBody) (normal : vec) (depth : R)
    : option vec :=
  let total_inv := inv_mass body_a + inv_mass body_b in
  if Reqb total_inv 0 then None else
  let move := vscale normal (depth * 0.5) in
  let body_a := set_pos body_a (vsub (pos body_a) move) in
  let body_b := set_pos body_b (vadd (pos body_b) move) in
  match get_support (get_world_vertices body_a) normal,
        get_support (get_world_vertices body_b) (vneg normal) with
  | Some contact_a, Some contact_b =>
      let vals_a := dot (vsub contact_a (pos body_b)) (vneg normal) in
      let vals_b := dot (vsub contact_b (pos body_a)) normal in
      Some (if Rgtb vals_a vals_b then contact_a else contact_b)
  | _, _ => None
  end.

(** The velocity of the material point of a body that is at [c]: the
    linear velocity plus the angular velocity turned about the centre. *)
Definition point_velocity (b : RigidBody) (c : vec) : vec :=
  vadd (vel b)
    (mkvec (- ang_vel b * (vy c - vy (pos b))) (ang_vel b * (vx c - vx (pos b)))).

(** The rate at which two bodies separate at [c] along [n]. *)
Definition separation_speed (a b : RigidBody) (c n : vec) : R :=
  dot (vsub (point_velocity b c) (point_velocity a c)) n.

(** Total angular momentum of a pair about the origin. *)
Definition angular_momentum (a b : RigidBody) : R :=
  inertia a * ang_vel a + mass a * cross_2d (pos a) (vel a)
  + (inertia b * ang_vel b + mass b * cross_2d (pos b) (vel b)).

(** A run of frames for one body: [update] with each [dt] in turn. *)
Definition run_updates (b : RigidBody) (dts : list R) : RigidBody :=
  fold_left update dts b.

(** The first edge of the polygon has two different ends. *)
Definition shaped (b : RigidBody) : Prop :=
  match local_vertices b with
  | v0 :: v1 :: _ => v0 <> v1
  | _ => False
  end.

(** The coordinates are within the walls for the size of the body. *)
Definition inside_table (b : RigidBody) : Prop :=
  TABLE_X + size b / 2 <= vx (pos b) <= TABLE_X + TABLE_WIDTH - size b / 2
  /\ TABLE_Y + size b / 2 <= vy (pos b) <= TABLE_Y + TABLE_HEIGHT - size b / 2.

(** The second body has the fields that [__init__] computes once and no
    later code assigns as the first has them. *)
Definition same_make (b b' : RigidBody) : Prop :=
  mass b' = mass b /\ inv_mass b' = inv_mass b /\ size b' = size b
  /\ is_cue b' = is_cue b /\ inertia b' = inertia b
  /\ inv_inertia b' = inv_inertia b
  /\ local_vertices b' = local_vertices b /\ color b' = color b.

(** The collection holds no reference twice, and every body in it has a
    polygon whose first edge has two different ends. *)
Definition world_ok (w : world) : Prop :=
  NoDup (balls w) /\ forall r, In r (balls w) -> shaped (heap w r).

(** While a drag is under way, the place where it began is recorded. *)
Definition ui_ok (s : ui) : Prop :=
  is_dragging s = true -> start_drag s <> None.

(** The draws are those [random.randint(3, 6)] can give for the sides. *)
Definition fair (rnd : nat -> nat -> nat * colour) : Prop :=
  forall i j, (3 <= fst (rnd i j) <= 6)%nat.

(** Kinetic energy of a body, of translation and of rotation. *)
Definition kinetic_energy (b : RigidBody) : R :=
  mass b * dot (vel b) (vel b) / 2 + inertia b * (ang_vel b * ang_vel b) / 2.

(** * Properties *)

(** ** Comparisons *)

Lemma Rltb_true a b : a < b -> Rltb a b = true.
Proof. intro H; unfold Rltb; destruct (Rlt_dec a b); [reflexivity | contradiction]. Qed.

Lemma Rltb_false a b : b <= a -> Rltb a b = false.
Proof. intro H; unfold Rltb; destruct (Rlt_dec a b); [lra | reflexivity]. Qed.

Lemma Rltb_lt a b : Rltb a b = true <-> a < b.
Proof.
  unfold Rltb; destruct (Rlt_dec a b); split; intro H;
    solve [assumption | reflexivity | discriminate | contradiction].
Qed.

Lemma Rltb_ge a b : Rltb a b = false <-> b <= a.
Proof.
  unfold Rltb; destruct (Rlt_dec a b); split; intro H;
    solve [lra | reflexivity | discriminate].
Qed.

Lemma Reqb_eq a b : Reqb a b = true <-> a = b.
Proof.
  unfold Reqb; destruct (Req_dec_T a b); split; intro H;
    solve [assumption | reflexivity | discriminate | contradiction].
Qed.

Lemma Reqb_neq a b : Reqb a b = false <-> a <> b.
Proof.
  unfold Reqb; destruct (Req_dec_T a b); split; intro H;
    solve [assumption | reflexivity | discriminate | contradiction].
Qed.

(** Decide every float comparison in the goal from the context. *)
Ltac cmp :=
  repeat match goal with
  | |- context [Rltb ?a ?b] =>
      first [ rewrite (Rltb_true a b) by lra | rewrite (Rltb_false a b) by lra ]
  | |- context [Rgtb ?a ?b] => unfold Rgtb
  | |- context [Reqb ?a ?b] =>
      first [ rewrite (proj2 (Reqb_eq a b)) by lra
            | rewrite (proj2 (Reqb_neq a b)) by lra ]
  end.

(** Split on every float comparison left in the goal. *)
Ltac cmp_cases :=
  unfold Rgtb;
  repeat match goal with
  | |- context [Rltb ?a ?b] =>
      let H := fresh "Hc" in
      destruct (Rltb a b) eqn:H;
      [ apply Rltb_lt in H | apply Rltb_ge in H ]
  end.

(** ** Numbers and arrays *)

Lemma vec_eq (u v : vec) : vx u = vx v -> vy u = vy v -> u = v.
Proof. destruct u, v; simpl; intros -> ->; reflexivity. Qed.

Lemma TABLE_X_val : TABLE_X = 100.
Proof. unfold TABLE_X, SCREEN_WIDTH, TABLE_WIDTH; lra. Qed.

Lemma TABLE_Y_val : TABLE_Y = 100.
Proof. unfold TABLE_Y, SCREEN_HEIGHT, TABLE_HEIGHT; lra. Qed.

Lemma norm_nonneg v : 0 <= norm v.
Proof. apply sqrt_pos. Qed.

Lemma norm_vzero : norm vzero = 0.
Proof.
  unfold norm, vzero; simpl.
  replace (0 * 0 + 0 * 0) with 0 by lra. apply sqrt_0.
Qed.

Lemma norm_sq v : norm v * norm v = vx v * vx v + vy v * vy v.
Proof. unfold norm; apply sqrt_sqrt; nra. Qed.

Lemma norm_vscale v k : norm (vscale v k) = norm v * Rabs k.
Proof.
  unfold norm, vscale; simpl.
  replace (vx v * k * (vx v * k) + vy v * k * (vy v * k))
    with ((vx v * vx v + vy v * vy v) * (k * k)) by ring.
  rewrite sqrt_mult_alt by nra.
  f_equal. fold (Rsqr k). apply sqrt_Rsqr_abs.
Qed.

Lemma norm_zero_inv v : norm v = 0 -> v = vzero.
Proof.
  intro H. pose proof (norm_sq v) as Hs. rewrite H in Hs.
  apply vec_eq; simpl; nra.
Qed.

Lemma norm_value a b c : 0 <= c -> a * a + b * b = c * c -> norm (mkvec a b) = c.
Proof.
  intros Hc H. unfold norm. cbn [vx vy]. rewrite H. apply sqrt_square, Hc.
Qed.

(** ** [update] *)

Lemma update_cut b dt :
  update b dt
  = update_wall_y (update_wall_x (update_rest (update_damp (update_move b dt)))).
Proof. reflexivity. Qed.

Lemma update_move_translate b dt : update_move b dt = Stages.translate b dt.
Proof. destruct b; reflexivity. Qed.

Lemma update_damp_damp b : update_damp b = Stages.damp b.
Proof. destruct b; reflexivity. Qed.

Lemma update_rest_clamp b : update_rest b = Stages.clamp_to_rest b.
Proof.
  destruct b as [p v an w m im c sz cue i ii lv].
  unfold update_rest, Stages.clamp_to_rest, set_vel, set_ang_vel, vzero; simpl.
  destruct (Rltb (norm v) 2.0); simpl; destruct (Rltb (Rabs w) 0.1); reflexivity.
Qed.

Lemma update_wall_contain b : update_wall_y (update_wall_x b) = Stages.contain b.
Proof.
  destruct b as [[px py] [ux uy] an w m im c sz cue i ii lv].
  unfold update_wall_x, update_wall_y, Stages.contain, Stages.contain_axis, Rgtb; simpl.
  destruct (Rltb px (TABLE_X + sz / 2)); simpl;
    [| destruct (Rltb (TABLE_X + TABLE_WIDTH - sz / 2) px); simpl ];
    (destruct (Rltb py (TABLE_Y + sz / 2)); simpl;
     [| destruct (Rltb (TABLE_Y + TABLE_HEIGHT - sz / 2) py); simpl ]);
    unfold mul_vel_x, mul_vel_y, set_pos_x, set_pos_y, set_pos, set_vel; simpl;
    f_equal; try reflexivity; apply vec_eq; simpl; lra.
Qed.

Lemma update_integrate b dt : update b dt = Stages.integrate b dt.
Proof.
  rewrite update_cut, update_wall_contain, update_rest_clamp,
    update_damp_damp, update_move_translate.
  reflexivity.
Qed.

(** C4.  [update] is the composition of the four stages in the order the
    specification gives them: translate and rotate by [dt], damp by 0.985
    and 0.98, clamp to rest below 2.0 and 0.1 on the damped values, and
    only then contain within the walls.  It holds for every [dt], hence
    for every positive one. *)
Theorem update_runs_stages_in_order (b : RigidBody) (dt : R) :
  update b dt
  = Stages.contain (Stages.clamp_to_rest (Stages.damp (Stages.translate b dt))).
Proof. exact (update_integrate b dt). Qed.

Lemma contain_axis_inside p v lo hi :
  lo <= hi -> lo <= fst (Stages.contain_axis p v lo hi) <= hi.
Proof.
  intro H. unfold Stages.contain_axis. cmp_cases; simpl; lra.
Qed.

Lemma contain_axis_fixed p v lo hi :
  lo <= p <= hi -> Stages.contain_axis p v lo hi = (p, v).
Proof. intro H. unfold Stages.contain_axis. cmp. reflexivity. Qed.

Lemma contain_fields b :
  pos (Stages.contain b)
  = mkvec (fst (Stages.contain_axis (vx (pos b)) (vx (vel b))
                  (TABLE_X + size b / 2) (TABLE_X + TABLE_WIDTH - size b / 2)))
          (fst (Stages.contain_axis (vy (pos b)) (vy (vel b))
                  (TABLE_Y + size b / 2) (TABLE_Y + TABLE_HEIGHT - size b / 2)))
  /\ vel (Stages.contain b)
  = mkvec (snd (Stages.contain_axis (vx (pos b)) (vx (vel b))
                  (TABLE_X + size b / 2) (TABLE_X + TABLE_WIDTH - size b / 2)))
          (snd (Stages.contain_axis (vy (pos b)) (vy (vel b))
                  (TABLE_Y + size b / 2) (TABLE_Y + TABLE_HEIGHT - size b / 2)))
  /\ angle (Stages.contain b) = angle b
  /\ ang_vel (Stages.contain b) = ang_vel b.
Proof.
  unfold Stages.contain.
  destruct (Stages.contain_axis (vx (pos b)) _ _ _) as [x u].
  destruct (Stages.contain_axis (vy (pos b)) _ _ _) as [y v].
  simpl. repeat split.
Qed.

(** The fields [update] never assigns. *)
Lemma update_frame b dt :
  mass (update b dt) = mass b /\ inv_mass (update b dt) = inv_mass b /\
  size (update b dt) = size b /\ is_cue (update b dt) = is_cue b /\
  inertia (update b dt) = inertia b /\ inv_inertia (update b dt) = inv_inertia b /\
  local_vertices (update b dt) = local_vertices b /\ color (update b dt) = color b.
Proof.
  rewrite update_integrate. unfold Stages.integrate, Stages.contain.
  destruct (Stages.contain_axis (vx _) _ _ _) as [x u].
  destruct (Stages.contain_axis (vy _) _ _ _) as [y v].
  simpl. repeat split.
Qed.

Lemma stages_size b dt :
  size (Stages.clamp_to_rest (Stages.damp (Stages.translate b dt))) = size b.
Proof. reflexivity. Qed.

(** A body at rest goes through the first three stages unchanged. *)
Lemma at_rest_stages b dt :
  vel b = vzero -> ang_vel b = 0 ->
  Stages.clamp_to_rest (Stages.damp (Stages.translate b dt)) = b.
Proof.
  destruct b as [[px py] [ux uy] an w m im c sz cue i ii lv]; simpl.
  intros Hv Hw. injection Hv as -> ->. subst w.
  unfold Stages.clamp_to_rest, Stages.damp, Stages.translate; simpl.
  f_equal.
  - apply vec_eq; simpl; lra.
  - destruct (Rltb _ _); apply vec_eq; simpl; lra.
  - lra.
  - destruct (Rltb _ _); lra.
Qed.

Lemma update_at_rest b dt :
  vel b = vzero -> ang_vel b = 0 -> update b dt = Stages.contain b.
Proof.
  intros Hv Hw. rewrite update_integrate. unfold Stages.integrate.
  rewrite at_rest_stages by assumption. reflexivity.
Qed.

(** C10.  A body no larger than the table ends every [update] with its
    centre inside the table rectangle inset by half its size, wherever
    the velocity carried it. *)
Theorem update_position_inside_table (b : RigidBody) (dt : R) :
  size b <= TABLE_WIDTH -> size b <= TABLE_HEIGHT -> 0 <= dt ->
  TABLE_X + size b / 2 <= vx (pos (update b dt))
    <= TABLE_X + TABLE_WIDTH - size b / 2
  /\ TABLE_Y + size b / 2 <= vy (pos (update b dt))
    <= TABLE_Y + TABLE_HEIGHT - size b / 2.
Proof.
  intros Hw Hh _. rewrite update_integrate. unfold Stages.integrate.
  destruct (contain_fields
              (Stages.clamp_to_rest (Stages.damp (Stages.translate b dt))))
    as (Hp & _).
  rewrite Hp, stages_size. simpl.
  split; apply contain_axis_inside; lra.
Qed.

Lemma update_position_inside_table_witness :
  TABLE_X + 35 / 2 <= vx (pos (update
      (mkRigidBody (mkvec 5000 (-70)) (mkvec 900 (-40)) 0 1 20 (1 / 20) WHITE 35
                   false 3062.5 (1 / 3062.5) [mkvec 17.5 0; mkvec 0 17.5; mkvec (-17.5) 0])
      (1 / 60)))
    <= TABLE_X + TABLE_WIDTH - 35 / 2
  /\ TABLE_Y + 35 / 2 <= vy (pos (update
      (mkRigidBody (mkvec 5000 (-70)) (mkvec 900 (-40)) 0 1 20 (1 / 20) WHITE 35
                   false 3062.5 (1 / 3062.5) [mkvec 17.5 0; mkvec 0 17.5; mkvec (-17.5) 0])
      (1 / 60)))
    <= TABLE_Y + TABLE_HEIGHT - 35 / 2.
Proof.
  apply (update_position_inside_table
    (mkRigidBody (mkvec 5000 (-70)) (mkvec 900 (-40)) 0 1 20 (1 / 20) WHITE 35
                 false 3062.5 (1 / 3062.5) [mkvec 17.5 0; mkvec 0 17.5; mkvec (-17.5) 0])
    (1 / 60)); unfold TABLE_WIDTH, TABLE_HEIGHT; simpl; lra.
Defined.

(** C9 (as amended).  A body at rest whose coordinate equals one of the
    inset wall bounds, and whose size does not exceed the table extent
    along that axis, keeps that coordinate through [update]; its velocity
    and angular velocity stay zero whatever its size. *)
Theorem resting_boundary_body_stays (b : RigidBody) (dt : R) :
  vel b = vzero -> ang_vel b = 0 ->
  vel (update b dt) = vzero /\ ang_vel (update b dt) = 0
  /\ (size b <= TABLE_WIDTH ->
      vx (pos b) = TABLE_X + size b / 2
      \/ vx (pos b) = TABLE_X + TABLE_WIDTH - size b / 2 ->
      vx (pos (update b dt)) = vx (pos b))
  /\ (size b <= TABLE_HEIGHT ->
      vy (pos b) = TABLE_Y + size b / 2
      \/ vy (pos b) = TABLE_Y + TABLE_HEIGHT - size b / 2 ->
      vy (pos (update b dt)) = vy (pos b)).
Proof.
  intros Hv Hw. rewrite update_at_rest by assumption.
  destruct (contain_fields b) as (Hp & Hu & _ & Ha).
  rewrite Hp, Hu, Ha, Hv. simpl. repeat split.
  - apply vec_eq; simpl; unfold Stages.contain_axis; cmp_cases; simpl; lra.
  - assumption.
  - intros Hs Hx. rewrite contain_axis_fixed; [reflexivity | lra].
  - intros Hs Hy. rewrite contain_axis_fixed; [reflexivity | lra].
Qed.

Lemma resting_boundary_body_stays_witness :
  vx (pos (update (resting_ball 117.5 300 35 false) (1 / 60))) = 117.5.
Proof.
  destruct (resting_boundary_body_stays (resting_ball 117.5 300 35 false) (1 / 60)
              eq_refl eq_refl) as (_ & _ & Hx & _).
  apply Hx; simpl.
  - unfold TABLE_WIDTH; lra.
  - left. rewrite TABLE_X_val. lra.
Defined.

(** C9 as stated fails for a body wider than the table: the constructor
    accepts size 1000, the low bound [TABLE_X + 500] then lies beyond the
    high bound [TABLE_X + TABLE_WIDTH - 500], and a body resting on the
    low bound is carried to the high one by the [elif] branch. *)
Lemma boundary_body_wider_than_table_moves :
  exists b : RigidBody,
    RigidBody_init 600 300 20 WHITE "poly" 1000 3 = Ok b
    /\ vx (pos b) = TABLE_X + size b / 2
    /\ vel b = vzero /\ ang_vel b = 0
    /\ vx (pos (update b (1 / 60))) = 400
    /\ vx (pos (update b (1 / 60))) <> TABLE_X + size b / 2.
Proof.
  eexists. split; [reflexivity |].
  match goal with |- context [update ?b _] => set (B := b) end.
  assert (Hv : vel B = vzero) by reflexivity.
  assert (Hw : ang_vel B = 0) by reflexivity.
  assert (Hs : size B = 1000) by reflexivity.
  assert (Hp : pos B = mkvec 600 300) by reflexivity.
  assert (Hu : vx (pos (update B (1 / 60))) = 400).
  { rewrite (update_at_rest B _ Hv Hw).
    destruct (contain_fields B) as (Hq & _). rewrite Hq, Hs, Hp, Hv.
    cbn [vx vy fst vzero]. unfold Stages.contain_axis.
    rewrite TABLE_X_val. unfold TABLE_WIDTH. cmp. cbn [fst]. lra. }
  rewrite Hu, Hs, Hp, TABLE_X_val. cbn [vx].
  repeat split; try assumption; lra.
Qed.

(** ** The constructor *)

(** What [__init__] computes from the mass and the size; no later code
    assigns these fields. *)
Lemma RigidBody_init_consistent x y m c shape sz rnd b :
  RigidBody_init x y m c shape sz rnd = Ok b -> consistent b.
Proof.
  unfold RigidBody_init. intro H. injection H as <-.
  unfold consistent; simpl. repeat split.
Qed.

Lemma consistent_immovable b :
  consistent b -> inv_mass b = 0 -> mass b <= 0 /\ inv_inertia b = 0.
Proof.
  intros (Hm & Hi & Hii) H0.
  assert (Hle : mass b <= 0).
  { destruct (Rle_dec (mass b) 0) as [Hle | Hgt]; [assumption | exfalso].
    apply Rnot_le_lt in Hgt. rewrite Hm in H0. revert H0. cmp. intro H0.
    assert (0 < 1 / mass b) by (apply Rdiv_lt_0_compat; lra). lra. }
  split; [assumption |].
  rewrite Hii. unfold Rgtb. rewrite Rltb_false; [reflexivity |].
  rewrite Hi. assert (0 <= (size b / 2) ^ 2) by (apply pow2_ge_0). nra.
Qed.

Lemma consistent_movable b :
  consistent b -> 0 < mass b -> inv_mass b = 1 / mass b /\ 0 < inv_mass b.
Proof.
  intros (Hm & _) Hpos. rewrite Hm. cmp. split; [reflexivity |].
  apply Rdiv_lt_0_compat; lra.
Qed.




(** ** The strike *)

Lemma vdiv_vscale v k : vdiv v k = vscale v (/ k).
Proof. reflexivity. Qed.

Lemma norm_normalised v : 0 < norm v -> norm (vdiv v (norm v)) = 1.
Proof.
  intro H. rewrite vdiv_vscale, norm_vscale.
  rewrite Rabs_pos_eq by (left; apply Rinv_0_lt_compat; assumption).
  apply Rinv_r. lra.
Qed.

Lemma strike_vel_small cue s e :
  norm (vsub s e) <= 300 -> vel (strike cue s e) = vscale (vsub s e) 5.0.
Proof.
  intro H. unfold strike, strike_normalises, Rgtb.
  rewrite Rltb_false by assumption. reflexivity.
Qed.

Lemma strike_vel_large cue s e :
  300 < norm (vsub s e) ->
  vel (strike cue s e)
  = vscale (vscale (vdiv (vsub s e) (norm (vsub s e))) 300) 5.0.
Proof.
  intro H. unfold strike, strike_normalises, Rgtb.
  rewrite Rltb_true by assumption. reflexivity.
Qed.

(** C6.  The strike gives the cue body the velocity [d * 5.0] for a drag
    [d] of length at most 300 and [(d / |d|) * 300 * 5.0] for a longer
    one; the speed never exceeds 1500; the division is evaluated only
    when [|d| > 300], so its divisor is not zero, and the zero drag gives
    the zero velocity without dividing. *)
Theorem strike_velocity_capped (cue : RigidBody) (s e : vec) :
  (norm (vsub s e) <= 300 ->
     vel (strike cue s e) = vscale (vsub s e) 5.0)
  /\ (300 < norm (vsub s e) ->
     vel (strike cue s e)
     = vscale (vscale (vdiv (vsub s e) (norm (vsub s e))) 300) 5.0)
  /\ norm (vel (strike cue s e)) <= 1500
  /\ (strike_normalises (vsub s e) = true ->
     300 < norm (vsub s e) /\ norm (vsub s e) <> 0)
  /\ (vsub s e = vzero ->
     strike_normalises (vsub s e) = false /\ vel (strike cue s e) = vzero).
Proof.
  split; [apply strike_vel_small |].
  split; [apply strike_vel_large |].
  split; [| split].
  - destruct (Rle_dec (norm (vsub s e)) 300) as [Hle | Hgt].
    + rewrite strike_vel_small by assumption.
      rewrite norm_vscale, Rabs_pos_eq by lra. lra.
    + apply Rnot_le_lt in Hgt. rewrite strike_vel_large by assumption.
      rewrite !norm_vscale, norm_normalised by lra.
      rewrite !Rabs_pos_eq by lra. lra.
  - unfold strike_normalises, Rgtb. intro H. apply Rltb_lt in H. lra.
  - intro Hz. assert (Hn : norm (vsub s e) = 0) by (rewrite Hz; apply norm_vzero).
    split.
    + unfold strike_normalises, Rgtb. apply Rltb_false. lra.
    + rewrite strike_vel_small by lra. rewrite Hz.
      apply vec_eq; simpl; lra.
Qed.

Lemma strike_velocity_capped_witness :
  vel (strike (resting_ball 300 300 35 true) (mkvec 400 300) (mkvec 400 300)) = vzero
  /\ norm (vel (strike (resting_ball 300 300 35 true) (mkvec 400 300) (mkvec 400 300)))
     <= 1500.
Proof.
  destruct (strike_velocity_capped (resting_ball 300 300 35 true)
              (mkvec 400 300) (mkvec 400 300)) as (_ & _ & Hcap & _ & Hz).
  split; [| exact Hcap].
  apply Hz. apply vec_eq; simpl; lra.
Defined.

(** A drag of length 400 is cut to 300 and gives the speed 1500. *)
Lemma strike_long_drag cue :
  vel (strike cue (mkvec 500 300) (mkvec 100 300)) = mkvec 1500 0.
Proof.
  assert (Hn : norm (vsub (mkvec 500 300) (mkvec 100 300)) = 400).
  { unfold vsub. cbn [vx vy]. apply norm_value; lra. }
  rewrite strike_vel_large by (rewrite Hn; lra).
  rewrite Hn. apply vec_eq; unfold vscale, vdiv, vsub; cbn [vx vy]; lra.
Qed.

(** ** [resolve_collision] *)

(** Every way out of [resolve_collision] at once: the velocities change
    by an impulse [normal * j] weighted by the inverse masses, with
    opposite signs ([j = 0] when no impulse is applied), the angular
    velocities by multiples of the inverse inertias, the positions by
    half the depth along the normal unless both bodies are immovable, and
    nothing else changes. *)
Lemma resolve_collision_effect a b n d :
  exists j ka kb : R,
    let r := resolve_collision a b n d in
    vel (res_a r) = vsub (vel a) (vscale (vscale n j) (inv_mass a))
    /\ vel (res_b r) = vadd (vel b) (vscale (vscale n j) (inv_mass b))
    /\ ang_vel (res_a r) = ang_vel a - ka * inv_inertia a
    /\ ang_vel (res_b r) = ang_vel b + kb * inv_inertia b
    /\ angle (res_a r) = angle a /\ angle (res_b r) = angle b
    /\ pos (res_a r)
       = (if Reqb (inv_mass a + inv_mass b) 0 then pos a
          else vsub (pos a) (vscale n (d * 0.5)))
    /\ pos (res_b r)
       = (if Reqb (inv_mass a + inv_mass b) 0 then pos b
          else vadd (pos b) (vscale n (d * 0.5)))
    /\ mass (res_a r) = mass a /\ mass (res_b r) = mass b.
Proof.
  unfold resolve_collision.
  destruct (Reqb (inv_mass a + inv_mass b) 0).
  { exists 0, 0, 0. cbn. repeat split; try (apply vec_eq; simpl; lra); lra. }
  destruct (get_support _ n) as [ca |];
    [destruct (get_support _ (vneg n)) as [cb |] |].
  2, 3: exists 0, 0, 0; cbn; repeat split;
        try (apply vec_eq; simpl; lra); lra.
  cbv zeta.
  match goal with |- context [if Rgtb ?x 0 then _ else _] =>
    destruct (Rgtb x 0) end.
  { exists 0, 0, 0. cbn. repeat split; try (apply vec_eq; simpl; lra); lra. }
  eexists _, _, _.
  cbn [res_a res_b fst snd vel ang_vel angle pos mass set_vel set_ang_vel set_pos
       inv_mass inv_inertia].
  repeat split.
Qed.

(** C1.  When both bodies have positive mass, [resolve_collision] leaves
    the total linear momentum [mass_A * vel_A + mass_B * vel_B] as it
    was: the two velocity changes are the same impulse times the inverse
    masses, with opposite signs.  This holds on every way out of the
    call, the impulse branch included. *)
Theorem resolve_collision_conserves_momentum (a b : RigidBody) (n : vec) (d : R) :
  consistent a -> consistent b -> 0 < mass a -> 0 < mass b ->
  momentum (res_a (resolve_collision a b n d)) (res_b (resolve_collision a b n d))
  = momentum a b.
Proof.
  intros Ca Cb Ha Hb.
  destruct (consistent_movable a Ca Ha) as (Ia & _).
  destruct (consistent_movable b Cb Hb) as (Ib & _).
  destruct (resolve_collision_effect a b n d)
    as (j & ka & kb & Hva & Hvb & _ & _ & _ & _ & _ & _ & Hma & Hmb).
  cbv zeta in *. unfold momentum. rewrite Hva, Hvb, Hma, Hmb, Ia, Ib.
  apply vec_eq; simpl; field; lra.
Qed.

(** C8 (as amended).  A body with inverse mass 0, in a collision with a
    movable body, keeps its velocity, its orientation and its angular
    velocity; its position is moved by half the depth along the normal
    like that of any body (backward for the first body, forward for the
    second). *)
Theorem immovable_body_keeps_velocity (a b : RigidBody) (n : vec) (d : R) :
  consistent a -> consistent b ->
  (inv_mass a = 0 -> inv_mass b <> 0 ->
     vel (res_a (resolve_collision a b n d)) = vel a
     /\ angle (res_a (resolve_collision a b n d)) = angle a
     /\ ang_vel (res_a (resolve_collision a b n d)) = ang_vel a
     /\ pos (res_a (resolve_collision a b n d)) = vsub (pos a) (vscale n (d * 0.5)))
  /\ (inv_mass b = 0 -> inv_mass a <> 0 ->
     vel (res_b (resolve_collision a b n d)) = vel b
     /\ angle (res_b (resolve_collision a b n d)) = angle b
     /\ ang_vel (res_b (resolve_collision a b n d)) = ang_vel b
     /\ pos (res_b (resolve_collision a b n d)) = vadd (pos b) (vscale n (d * 0.5))).
Proof.
  intros Ca Cb.
  destruct (resolve_collision_effect a b n d)
    as (j & ka & kb & Hva & Hvb & Hwa & Hwb & Haa & Hab & Hpa & Hpb & _).
  cbv zeta in *.
  split; intros H0 Hmov.
  - destruct (consistent_immovable a Ca H0) as (_ & Hi).
    rewrite Hva, Hwa, Haa, Hpa, H0, Hi.
    rewrite (proj2 (Reqb_neq (0 + inv_mass b) 0)) by lra.
    repeat split; try (apply vec_eq; simpl; lra); lra.
  - destruct (consistent_immovable b Cb H0) as (_ & Hi).
    rewrite Hvb, Hwb, Hab, Hpb, H0, Hi.
    rewrite (proj2 (Reqb_neq (inv_mass a + 0) 0)) by lra.
    repeat split; try (apply vec_eq; simpl; lra); lra.
Qed.

Lemma resting_ball_consistent x y sz cue : sz <> 0 -> consistent (resting_ball x y sz cue).
Proof.
  intro H. unfold consistent, resting_ball; cbn [inv_mass mass inertia size inv_inertia].
  assert (0 < (sz / 2) ^ 2) by (simpl; nra).
  repeat split; cmp; reflexivity.
Qed.

Lemma moving_ball_consistent x y ux uy sz : sz <> 0 -> consistent (moving_ball x y ux uy sz).
Proof. intro H. exact (resting_ball_consistent x y sz false H). Qed.

(** Evaluate a closed expression of the model: unfold the list
    functions, decide the comparisons, repeat. *)
Ltac evalR := repeat (cbn -[Rltb Rgtb Reqb cos sin]; cmp).

(** C3.  When the relative velocity of the contact point along the
    normal, as the call computes it, is strictly positive, the call
    leaves the velocity and the angular velocity of both bodies as they
    were and ends normally. *)
Theorem separating_pair_gets_no_impulse (a b : RigidBody) (n : vec) (d vn : R) :
  vel_normal_of a b n d = Some vn -> 0 < vn ->
  vel (res_a (resolve_collision a b n d)) = vel a
  /\ ang_vel (res_a (resolve_collision a b n d)) = ang_vel a
  /\ vel (res_b (resolve_collision a b n d)) = vel b
  /\ ang_vel (res_b (resolve_collision a b n d)) = ang_vel b
  /\ res_exn (resolve_collision a b n d) = None.
Proof.
  intros H Hpos.
  assert (Hr : resolve_collision a b n d
               = (set_pos a (vsub (pos a) (vscale n (d * 0.5))),
                  set_pos b (vadd (pos b) (vscale n (d * 0.5))), None)).
  { revert H. unfold vel_normal_of, resolve_collision.
    destruct (Reqb _ 0); [discriminate |].
    destruct (get_support _ n) as [ca |]; [| discriminate].
    destruct (get_support _ (vneg n)) as [cb |]; [| discriminate].
    cbv zeta.
    match goal with |- Some ?x = _ -> _ => generalize x end.
    intros x H. injection H as ->.
    unfold Rgtb at 1. rewrite Rltb_true by lra. reflexivity. }
  rewrite Hr. cbn. repeat split.
Qed.

Lemma separating_example :
  vel_normal_of (moving_ball 300 300 (-10) 0 35) (moving_ball 330 300 10 0 35)
    (mkvec 1 0) 5 = Some 20.
Proof.
  unfold vel_normal_of, moving_ball, resting_ball, get_world_vertices, get_support.
  cbn -[Rltb Rgtb Reqb cos sin].
  rewrite cos_0, sin_0. unfold dot, vadd, vsub, vscale, vneg.
  evalR. f_equal. lra.
Qed.

Lemma separating_pair_gets_no_impulse_witness :
  vel (res_a (resolve_collision (moving_ball 300 300 (-10) 0 35)
                (moving_ball 330 300 10 0 35) (mkvec 1 0) 5))
  = mkvec (-10) 0
  /\ vel (res_b (resolve_collision (moving_ball 300 300 (-10) 0 35)
                   (moving_ball 330 300 10 0 35) (mkvec 1 0) 5))
  = mkvec 10 0.
Proof.
  destruct (separating_pair_gets_no_impulse
              (moving_ball 300 300 (-10) 0 35) (moving_ball 330 300 10 0 35)
              (mkvec 1 0) 5 20 separating_example ltac:(lra))
    as (Ha & _ & Hb & _).
  split; [exact Ha | exact Hb].
Defined.

(** Two equal squares driven into each other along the normal: the
    impulse branch is taken, the velocities are exchanged with the
    restitution 0.9, and no spin appears since the contact point lies on
    the line of centres. *)
Lemma approaching_example :
  resolve_collision (moving_ball 300 300 10 0 35) (moving_ball 330 300 (-10) 0 35)
    (mkvec 1 0) 5
  = (set_vel (resting_ball 297.5 300 35 false) (mkvec (-9) 0),
     set_vel (resting_ball 332.5 300 35 false) (mkvec 9 0), None).
Proof.
  unfold resolve_collision, moving_ball, resting_ball, get_world_vertices, get_support.
  cbn -[Rltb Rgtb Reqb cos sin].
  rewrite cos_0, sin_0. unfold dot, vadd, vsub, vscale, vneg, cross_2d.
  evalR. unfold set_vel, set_ang_vel, set_pos; cbn -[Rltb Rgtb Reqb cos sin].
  set (i := 1 / (0.5 * 20 * (35 / 2 * (35 / 2 * 1)))). clearbody i.
  repeat match goal with
  | |- context [_ / ?den] =>
      lazymatch den with context [i] => replace den with 0.1 by lra end
  end.
  f_equal. f_equal.
  - f_equal; try (apply vec_eq; cbn [vx vy]); lra.
  - f_equal; try (apply vec_eq; cbn [vx vy]); lra.
Qed.

Lemma resolve_collision_conserves_momentum_witness :
  momentum
    (res_a (resolve_collision (moving_ball 300 300 10 0 35)
              (moving_ball 330 300 (-10) 0 35) (mkvec 1 0) 5))
    (res_b (resolve_collision (moving_ball 300 300 10 0 35)
              (moving_ball 330 300 (-10) 0 35) (mkvec 1 0) 5))
  = momentum (moving_ball 300 300 10 0 35) (moving_ball 330 300 (-10) 0 35).
Proof.
  apply (resolve_collision_conserves_momentum
           (moving_ball 300 300 10 0 35) (moving_ball 330 300 (-10) 0 35)
           (mkvec 1 0) 5).
  - apply moving_ball_consistent; lra.
  - apply moving_ball_consistent; lra.
  - simpl; lra.
  - simpl; lra.
Defined.

Lemma anchored_ball_consistent x y sz : consistent (anchored_ball x y sz).
Proof.
  unfold consistent, anchored_ball; cbn [inv_mass mass inertia size inv_inertia].
  repeat split; cmp; try reflexivity. ring.
Qed.

Lemma immovable_body_keeps_velocity_witness :
  vel (res_a (resolve_collision (anchored_ball 300 300 35)
                (moving_ball 330 300 (-10) 0 35) (mkvec 1 0) 5)) = mkvec 0 0
  /\ pos (res_a (resolve_collision (anchored_ball 300 300 35)
                   (moving_ball 330 300 (-10) 0 35) (mkvec 1 0) 5))
     = vsub (mkvec 300 300) (vscale (mkvec 1 0) (5 * 0.5)).
Proof.
  destruct (immovable_body_keeps_velocity (anchored_ball 300 300 35)
              (moving_ball 330 300 (-10) 0 35) (mkvec 1 0) 5
              (anchored_ball_consistent 300 300 35)
              (moving_ball_consistent 330 300 (-10) 0 35 ltac:(lra)))
    as (Ha & _).
  destruct Ha as (Hv & _ & _ & Hp).
  - reflexivity.
  - simpl; lra.
  - split; [exact Hv | exact Hp].
Defined.

(** C8 as stated fails on the position: a body built with mass 0 has
    inverse mass 0, and a collision with a movable body of depth 5 along
    the normal (1, 0) moves its centre from x = 300 to x = 297.5. *)
Lemma immovable_body_is_pushed_back :
  exists a b : RigidBody,
    RigidBody_init 300 300 0 WHITE "poly" 35 4 = Ok a
    /\ RigidBody_init 330 300 20 WHITE "poly" 35 4 = Ok b
    /\ inv_mass a = 0 /\ inv_mass b <> 0
    /\ vx (pos a) = 300
    /\ vx (pos (res_a (resolve_collision a b (mkvec 1 0) 5))) = 297.5
    /\ pos (res_a (resolve_collision a b (mkvec 1 0) 5)) <> pos a.
Proof.
  eexists. eexists. split; [reflexivity |]. split; [reflexivity |].
  match goal with |- context [resolve_collision ?a ?b _ _] =>
    set (A := a); set (B := b) end.
  assert (Ha : inv_mass A = 0) by (cbn [inv_mass A]; cmp; reflexivity).
  assert (Hb : inv_mass B = 1 / 20) by (cbn [inv_mass B]; cmp; reflexivity).
  assert (Hp : pos A = mkvec 300 300) by reflexivity.
  destruct (resolve_collision_effect A B (mkvec 1 0) 5)
    as (j & ka & kb & _ & _ & _ & _ & _ & _ & Hpa & _).
  cbv zeta in Hpa. rewrite Ha, Hb, Hp in Hpa.
  rewrite (proj2 (Reqb_neq (0 + 1 / 20) 0)) in Hpa by lra.
  rewrite Hpa, Ha, Hb, Hp. cbn [vx vy vsub vscale].
  repeat split; try lra.
  intro Heq. apply (f_equal vx) in Heq. cbn [vx vy vsub vscale] in Heq. lra.
Qed.

(** ** Separating axes *)

Lemma py_min_Rmin a b : py_min a b = Rmin a b.
Proof.
  unfold py_min, Rmin. destruct (Rle_dec a b); cmp_cases; lra.
Qed.

Lemma py_max_Rmax a b : py_max a b = Rmax a b.
Proof.
  unfold py_max, Rmax. destruct (Rle_dec a b); cmp_cases; lra.
Qed.

Lemma least_Rmin x y r : least (Rmin x y) r = Rmin x (least y r).
Proof.
  revert x y. induction r as [| z r IH]; intros x y; simpl.
  - reflexivity.
  - symmetry. apply Rmin_assoc.
Qed.

Lemma greatest_Rmax x y r : greatest (Rmax x y) r = Rmax x (greatest y r).
Proof.
  revert x y. induction r as [| z r IH]; intros x y; simpl.
  - reflexivity.
  - symmetry. apply Rmax_assoc.
Qed.

Lemma fold_py_min r : forall x, fold_left py_min r x = least x r.
Proof.
  induction r as [| y r IH]; intro x; simpl.
  - reflexivity.
  - rewrite IH, py_min_Rmin. apply least_Rmin.
Qed.

Lemma fold_py_max r : forall x, fold_left py_max r x = greatest x r.
Proof.
  induction r as [| y r IH]; intro x; simpl.
  - reflexivity.
  - rewrite IH, py_max_Rmax. apply greatest_Rmax.
Qed.

(** [least] and [greatest] are what their names say. *)
Lemma least_spec r : forall x,
  In (least x r) (x :: r) /\ forall y, In y (x :: r) -> least x r <= y.
Proof.
  induction r as [| z r IH]; intro x.
  - simpl. split; [left; reflexivity |]. intros y [<- | []]. lra.
  - destruct (IH z) as (Hin & Hle). cbn [least]. split.
    + unfold Rmin. destruct (Rle_dec x (least z r)).
      * left; reflexivity.
      * right. exact Hin.
    + intros y [<- | Hy].
      * apply Rmin_l.
      * eapply Rle_trans; [apply Rmin_r | apply Hle, Hy].
Qed.

Lemma greatest_spec r : forall x,
  In (greatest x r) (x :: r) /\ forall y, In y (x :: r) -> y <= greatest x r.
Proof.
  induction r as [| z r IH]; intro x.
  - simpl. split; [left; reflexivity |]. intros y [<- | []]. lra.
  - destruct (IH z) as (Hin & Hle). cbn [greatest]. split.
    + unfold Rmax. destruct (Rle_dec x (greatest z r)).
      * right. exact Hin.
      * left; reflexivity.
    + intros y [<- | Hy].
      * apply Rmax_l.
      * eapply Rle_trans; [apply Hle, Hy | apply Rmax_r].
Qed.

(** On a polygon with a vertex, [proj_min] and [proj_max] are attained at
    vertices and bound the projection of every vertex. *)
Lemma proj_min_max_spec vs axis :
  vs <> [] ->
  (exists v, In v vs /\ dot v axis = proj_min vs axis)
  /\ (exists v, In v vs /\ dot v axis = proj_max vs axis)
  /\ forall v, In v vs -> proj_min vs axis <= dot v axis <= proj_max vs axis.
Proof.
  intro Hne. unfold proj_min, proj_max.
  destruct vs as [| v0 vs]; [contradiction |]. cbn [map].
  set (f := fun v => dot v axis).
  destruct (least_spec (map f vs) (f v0)) as (Hlin & Hlle).
  destruct (greatest_spec (map f vs) (f v0)) as (Hgin & Hgle).
  change (f v0 :: map f vs) with (map f (v0 :: vs)) in *.
  repeat split.
  - apply in_map_iff in Hlin. destruct Hlin as (v & Hv & Hin). exists v. auto.
  - apply in_map_iff in Hgin. destruct Hgin as (v & Hv & Hin). exists v. auto.
  - apply Hlle. apply (in_map f). assumption.
  - apply Hgle. apply (in_map f). assumption.
Qed.

Lemma project_ok vs axis :
  vs <> [] -> project vs axis = Ok (proj_min vs axis, proj_max vs axis).
Proof.
  intro Hne. unfold project, proj_min, proj_max, min_list, max_list.
  destruct vs as [| v0 vs]; [contradiction |]. cbn [map bind].
  rewrite fold_py_min, fold_py_max. reflexivity.
Qed.

Lemma project_empty axis : project [] axis = Raise ValueError.
Proof. reflexivity. Qed.

Lemma lt_x_below x y mo : lt_x x mo = true -> y <= x -> lt_x y mo = true.
Proof.
  destruct mo as [| r |]; simpl; intros H Hle; try assumption.
  apply Rltb_lt in H. apply Rltb_true. lra.
Qed.

Lemma lt_x_split x y mo : lt_x x mo = false -> lt_x y mo = true -> y <= x.
Proof.
  destruct mo as [| r |]; simpl; intros H1 H2; try discriminate.
  apply Rltb_ge in H1. apply Rltb_lt in H2. lra.
Qed.

Section SatLoop.

Variables va vb : list vec.
Hypothesis Hva : va <> [].
Hypothesis Hvb : vb <> [].

Lemma sat_loop_cons axis rest mo cn :
  sat_loop va vb (axis :: rest) mo cn
  = if Rltb (proj_max va axis) (proj_min vb axis)
       || Rltb (proj_max vb axis) (proj_min va axis)
    then Ok Separated
    else if lt_x (overlap_on va vb axis) mo
         then sat_loop va vb rest (Fin (overlap_on va vb axis)) (Some axis)
         else sat_loop va vb rest mo cn.
Proof.
  cbn [sat_loop]. rewrite !project_ok by assumption. cbn [bind].
  rewrite py_min_Rmin, py_max_Rmax. reflexivity.
Qed.

Lemma disjoint_test axis :
  Rltb (proj_max va axis) (proj_min vb axis)
  || Rltb (proj_max vb axis) (proj_min va axis) = true
  <-> disjoint_on va vb axis.
Proof.
  unfold disjoint_on. rewrite orb_true_iff, !Rltb_lt. reflexivity.
Qed.

Lemma sat_loop_spec axes : forall mo cn,
  ((exists axis, In axis axes /\ disjoint_on va vb axis)
   /\ sat_loop va vb axes mo cn = Ok Separated)
  \/ ((forall axis, In axis axes -> ~ disjoint_on va vb axis)
      /\ exists mo' cn',
           sat_loop va vb axes mo cn = Ok (Scanned mo' cn')
           /\ scanned_to va vb axes mo cn mo' cn').
Proof.
  induction axes as [| axis rest IH]; intros mo cn.
  - right. split; [intros ax [] |].
    exists mo, cn. split; [reflexivity |]. left. repeat split. intros ax [].
  - rewrite sat_loop_cons.
    destruct (Rltb (proj_max va axis) (proj_min vb axis)
              || Rltb (proj_max vb axis) (proj_min va axis)) eqn:Hd.
    { left. split; [| reflexivity].
      exists axis. split; [left; reflexivity | apply disjoint_test, Hd]. }
    assert (Hnd : ~ disjoint_on va vb axis).
    { intro H. apply disjoint_test in H. congruence. }
    destruct (lt_x (overlap_on va vb axis) mo) eqn:Hlt.
    + destruct (IH (Fin (overlap_on va vb axis)) (Some axis))
        as [((ax & Hin & Hdis) & Hs) | (Hall & mo' & cn' & Hs & Hsc)].
      * left. split; [| exact Hs]. exists ax. split; [right |]; assumption.
      * right. split.
        { intros ax [<- | Hin]; [exact Hnd | apply Hall, Hin]. }
        exists mo', cn'. split; [exact Hs |]. right.
        destruct Hsc as [(-> & -> & Hge) | (ax & Hin & -> & -> & Hlt' & Hmin)].
        -- exists axis. repeat split; try assumption; [left; reflexivity |].
           intros ax [<- | Hin]; [lra |].
           specialize (Hge ax Hin). simpl in Hge. apply Rltb_ge in Hge. exact Hge.
        -- simpl in Hlt'. apply Rltb_lt in Hlt'.
           exists ax. repeat split; try assumption; [right; assumption | |].
           ++ apply (lt_x_below (overlap_on va vb axis)); [assumption | lra].
           ++ intros ax' [<- | Hin']; [lra | apply Hmin, Hin'].
    + destruct (IH mo cn)
        as [((ax & Hin & Hdis) & Hs) | (Hall & mo' & cn' & Hs & Hsc)].
      * left. split; [| exact Hs]. exists ax. split; [right |]; assumption.
      * right. split.
        { intros ax [<- | Hin]; [exact Hnd | apply Hall, Hin]. }
        exists mo', cn'. split; [exact Hs |].
        destruct Hsc as [(-> & -> & Hge) | (ax & Hin & -> & -> & Hlt' & Hmin)].
        -- left. repeat split. intros ax [<- | Hin]; [exact Hlt | apply Hge, Hin].
        -- right. exists ax. repeat split; try assumption; [right; assumption |].
           intros ax' [<- | Hin']; [| apply Hmin, Hin'].
           apply (lt_x_split _ _ mo); assumption.
Qed.

End SatLoop.

Lemma nondegenerate_vertices b : nondegenerate b -> get_world_vertices b <> [].
Proof.
  unfold nondegenerate. intros H Hnil. apply H. rewrite Hnil. reflexivity.
Qed.

Lemma oriented_forward a b axis : 0 <= dot (vsub (pos b) (pos a)) (oriented a b axis).
Proof.
  unfold oriented. cmp_cases; [| assumption].
  unfold dot, vneg in *; simpl in *. lra.
Qed.

(** What the scan of the axes of [get_axes] returns, for two polygons
    that each yield an axis: no collision exactly when the projections
    are disjoint on one of the axes, and otherwise the least overlap
    with an axis of least overlap, turned forward. *)
Lemma check_collision_sat_scan (a b : RigidBody) :
  nondegenerate a -> nondegenerate b ->
  let va := get_world_vertices a in
  let vb := get_world_vertices b in
  let axes := get_axes va ++ get_axes vb in
  (check_collision_sat a b = Ok (false, None, Fin 0)
   <-> exists axis, In axis axes /\ disjoint_on va vb axis)
  /\ ((forall axis, In axis axes -> ~ disjoint_on va vb axis) ->
      exists axis,
        In axis axes
        /\ (forall ax, In ax axes -> overlap_on va vb axis <= overlap_on va vb ax)
        /\ check_collision_sat a b
           = Ok (true, Some (oriented a b axis), Fin (overlap_on va vb axis))
        /\ 0 <= dot (vsub (pos b) (pos a)) (oriented a b axis)).
Proof.
  intros Ha Hb va vb axes.
  assert (Hva : va <> []) by (apply nondegenerate_vertices, Ha).
  assert (Hvb : vb <> []) by (apply nondegenerate_vertices, Hb).
  assert (Hax : axes <> []).
  { unfold axes. intro H. apply app_eq_nil in H. destruct H as (H & _).
    exact (Ha H). }
  unfold check_collision_sat. fold va vb axes.
  destruct (sat_loop_spec va vb Hva Hvb axes PInf None)
    as [(Hex & Hs) | (Hall & mo' & cn' & Hs & Hsc)]; rewrite Hs; cbn [bind].
  - split; [split; auto |].
    intro Hnone. exfalso. destruct Hex as (ax & Hin & Hd). exact (Hnone ax Hin Hd).
  - destruct Hsc as [(_ & _ & Hge) | (axis & Hin & -> & -> & _ & Hmin)].
    { exfalso. destruct axes as [| ax rest]; [contradiction |].
      specialize (Hge ax (or_introl eq_refl)). discriminate. }
    fold (oriented a b axis). split.
    + split; [discriminate |].
      intros (ax & Hin' & Hd). exfalso. exact (Hall ax Hin' Hd).
    + intros _. exists axis. repeat split; try assumption.
      apply oriented_forward.
Qed.

(** A result [True] always comes with a normal and a finite depth. *)
Lemma sat_loop_finite va vb axes : forall mo cn mo' cn',
  (cn = None \/ exists r, mo = Fin r) ->
  sat_loop va vb axes mo cn = Ok (Scanned mo' cn') ->
  cn' = None \/ exists r, mo' = Fin r.
Proof.
  induction axes as [| axis rest IH]; intros mo cn mo' cn' Hinv; cbn [sat_loop].
  - intro H. injection H as <- <-. exact Hinv.
  - destruct (project va axis) as [[min_a max_a] | e]; cbn [bind]; [| discriminate].
    destruct (project vb axis) as [[min_b max_b] | e]; cbn [bind]; [| discriminate].
    destruct (_ || _); [discriminate |].
    destruct (lt_x _ mo).
    + apply IH. right. eexists. reflexivity.
    + apply IH. exact Hinv.
Qed.

Lemma check_collision_sat_true a b nrm depth :
  check_collision_sat a b = Ok (true, nrm, depth) ->
  exists v r, nrm = Some v /\ depth = Fin r.
Proof.
  unfold check_collision_sat.
  destruct (sat_loop _ _ _ PInf None) as [[| mo [cn |]] | e] eqn:Hs;
    cbn [bind]; try discriminate.
  intro H. injection H as <- <-.
  destruct (sat_loop_finite _ _ _ _ _ _ _ (or_introl eq_refl) Hs) as [Hn | (r & ->)].
  - discriminate.
  - eexists _, r. split; reflexivity.
Qed.

Lemma norm_pos v : v <> vzero -> 0 < norm v.
Proof.
  intro H. destruct (Rle_lt_or_eq_dec 0 (norm v) (norm_nonneg v)) as [Hlt | Heq].
  - exact Hlt.
  - exfalso. apply H. apply norm_zero_inv. symmetry. exact Heq.
Qed.

(** Two different leading vertices give an axis. *)
Lemma get_axes_leading_edge v0 v1 rest :
  v0 <> v1 -> get_axes (v0 :: v1 :: rest) <> [].
Proof.
  intro Hne. unfold get_axes.
  cbn [List.length seq flat_map]. cbn [nth Nat.add].
  replace (1 mod S (S (List.length rest)))%nat with 1%nat
    by (symmetry; apply Nat.mod_small; lia).
  cbn [nth].
  assert (Hpos : 0 < norm (mkvec (- vy (vsub v0 v1)) (vx (vsub v0 v1)))).
  { apply norm_pos. intro Hz. apply Hne.
    apply (f_equal vx) in Hz as Hx. apply (f_equal vy) in Hz as Hy.
    cbn [vx vy vsub vzero] in Hx, Hy. apply vec_eq; lra. }
  unfold Rgtb. rewrite Rltb_true by exact Hpos.
  discriminate.
Qed.

Lemma resting_ball_nondegenerate x y sz cue :
  sz <> 0 -> nondegenerate (resting_ball x y sz cue).
Proof.
  intro H. unfold nondegenerate, get_world_vertices, resting_ball.
  cbn [local_vertices angle pos map]. rewrite cos_0, sin_0.
  apply get_axes_leading_edge. intro Heq.
  apply (f_equal vx) in Heq. cbn [vx vy vadd] in Heq. lra.
Qed.

Lemma norm_perp e : norm (mkvec (- vy e) (vx e)) = norm e.
Proof. unfold norm. cbn [vx vy]. f_equal. ring. Qed.

Lemma world_vertices_spec b : get_world_vertices b = Sat.world_vertices b.
Proof.
  unfold get_world_vertices, Sat.world_vertices. apply map_ext. intro v.
  apply vec_eq; unfold Sat.rotated; cbn [vx vy vadd]; ring.
Qed.

Lemma next_vertex (vs : list vec) i :
  (i < List.length vs)%nat ->
  nth ((i + 1) mod List.length vs) vs vzero = nth (S i) vs (hd vzero vs).
Proof.
  intro Hi. destruct (Nat.eq_dec (S i) (List.length vs)) as [He | Hne].
  - replace (i + 1)%nat with (List.length vs) by lia.
    rewrite Nat.Div0.mod_same.
    rewrite (nth_overflow vs (hd vzero vs)) by lia.
    destruct vs; reflexivity.
  - rewrite Nat.mod_small by lia. replace (i + 1)%nat with (S i) by lia.
    apply nth_indep. lia.
Qed.

(** The axes of [get_axes] are the edge normals of the polygon, all of
    them and nothing else. *)
Lemma get_axes_edge_normals (vs : list vec) (axis : vec) :
  In axis (get_axes vs) <-> Sat.edge_normal vs axis.
Proof.
  unfold get_axes, Sat.edge_normal, Sat.edge. rewrite in_flat_map. split.
  - intros (i & Hi & Hax). apply in_seq in Hi.
    assert (Hlt : (i < List.length vs)%nat) by lia.
    cbv zeta in Hax. rewrite next_vertex in Hax by exact Hlt.
    set (p1 := nth i vs vzero) in *.
    set (p2 := nth (S i) vs (hd vzero vs)) in *.
    rewrite norm_perp in Hax.
    destruct (Rgtb (norm (vsub p1 p2)) 0) eqn:Hlen; [| destruct Hax].
    destruct Hax as [<- | []].
    unfold Rgtb in Hlen. apply Rltb_lt in Hlen.
    exists p1, p2. split; [exists i; repeat split; exact Hlt |]. split.
    + intro Heq. rewrite Heq in Hlen.
      assert (Hz : vsub p2 p2 = vzero) by (apply vec_eq; simpl; lra).
      rewrite Hz, norm_vzero in Hlen. lra.
    + unfold Sat.unit_normal, vdiv, vscale. cbn [vx vy].
      apply vec_eq; cbn [vx vy]; unfold Rdiv; ring.
  - intros (p1 & p2 & (i & Hlt & -> & ->) & Hne & ->).
    exists i. split; [apply in_seq; lia |].
    cbv zeta. rewrite next_vertex by exact Hlt.
    set (p1 := nth i vs vzero) in *.
    set (p2 := nth (S i) vs (hd vzero vs)) in *.
    rewrite norm_perp.
    assert (Hpos : 0 < norm (vsub p1 p2)).
    { apply norm_pos. intro Hz. apply Hne.
      apply (f_equal vx) in Hz as Hx. apply (f_equal vy) in Hz as Hy.
      cbn [vx vy vsub vzero] in Hx, Hy. apply vec_eq; lra. }
    unfold Rgtb. rewrite Rltb_true by exact Hpos.
    left. unfold Sat.unit_normal, vdiv, vscale.
    apply vec_eq; cbn [vx vy]; unfold Rdiv; ring.
Qed.

Lemma candidate_axes a b axis :
  In axis (get_axes (Sat.world_vertices a) ++ get_axes (Sat.world_vertices b))
  <-> Sat.candidate a b axis.
Proof.
  unfold Sat.candidate. rewrite in_app_iff, !get_axes_edge_normals. reflexivity.
Qed.

Lemma proper_nondegenerate b : Sat.proper b -> nondegenerate b.
Proof.
  intros (p1 & p2 & He & Hne). unfold nondegenerate. intro Hnil.
  assert (Hin : In (Sat.unit_normal p1 p2) (get_axes (get_world_vertices b))).
  { apply get_axes_edge_normals. rewrite world_vertices_spec.
    exists p1, p2. repeat split; assumption. }
  rewrite Hnil in Hin. destruct Hin.
Qed.

(** C2.  For two polygons that each have an edge of positive length,
    [check_collision_sat] reports no collision, [(False, None, 0)],
    exactly when the projections of the two sets of world vertices (the
    local vertices turned by the orientation and moved to the position)
    are disjoint on a candidate axis, the candidates being the
    normalized perpendiculars of the edges of positive length of the
    one polygon and of the other; when they are disjoint on none, it
    returns [True] with the least overlap over all candidates as depth
    and a candidate of least overlap as normal, turned so that it points
    from the first body towards the second. *)
Theorem check_collision_sat_minimum_axis (a b : RigidBody) :
  Sat.proper a -> Sat.proper b ->
  let va := Sat.world_vertices a in
  let vb := Sat.world_vertices b in
  (check_collision_sat a b = Ok (false, None, Fin 0)
   <-> exists axis, Sat.candidate a b axis /\ disjoint_on va vb axis)
  /\ ((forall axis, Sat.candidate a b axis -> ~ disjoint_on va vb axis) ->
      exists axis,
        Sat.candidate a b axis
        /\ (forall ax, Sat.candidate a b ax ->
                       overlap_on va vb axis <= overlap_on va vb ax)
        /\ check_collision_sat a b
           = Ok (true, Some (oriented a b axis), Fin (overlap_on va vb axis))
        /\ 0 <= dot (vsub (pos b) (pos a)) (oriented a b axis)).
Proof.
  intros Ha Hb va vb.
  destruct (check_collision_sat_scan a b (proper_nondegenerate a Ha)
              (proper_nondegenerate b Hb)) as (Hno & Hyes).
  rewrite !world_vertices_spec in Hno, Hyes. fold va vb in Hno, Hyes.
  split.
  - rewrite Hno. split; intros (ax & Hin & Hd); exists ax;
      (split; [apply candidate_axes, Hin | exact Hd]).
  - intro Hnone.
    destruct Hyes as (axis & Hin & Hmin & Hres & Hfw).
    { intros ax Hin. apply Hnone, candidate_axes, Hin. }
    exists axis. split; [apply candidate_axes, Hin |].
    split; [| split; assumption].
    intros ax Hc. apply Hmin, candidate_axes, Hc.
Qed.

Lemma resting_ball_proper x y sz cue : sz <> 0 -> Sat.proper (resting_ball x y sz cue).
Proof.
  intro H. unfold Sat.proper, Sat.edge.
  eexists. eexists. split.
  - exists 0%nat. split; [cbn; lia |]. split; reflexivity.
  - unfold Sat.world_vertices, Sat.rotated, resting_ball.
    cbn [local_vertices angle pos map nth hd]. rewrite cos_0, sin_0.
    intro Heq. apply (f_equal vx) in Heq. cbn [vx vy vadd] in Heq. lra.
Qed.

Lemma check_collision_sat_minimum_axis_witness :
  check_collision_sat (resting_ball 300 300 35 false) (resting_ball 320 300 35 false)
  = Ok (false, None, Fin 0)
  <-> exists axis,
        Sat.candidate (resting_ball 300 300 35 false)
          (resting_ball 320 300 35 false) axis
        /\ disjoint_on (Sat.world_vertices (resting_ball 300 300 35 false))
             (Sat.world_vertices (resting_ball 320 300 35 false)) axis.
Proof.
  destruct (check_collision_sat_minimum_axis
              (resting_ball 300 300 35 false) (resting_ball 320 300 35 false))
    as (H & _).
  - apply resting_ball_proper. lra.
  - apply resting_ball_proper. lra.
  - exact H.
Defined.

(** *** A worked collision: two boxes *)

Lemma box_world x y h :
  get_world_vertices (box_body x y h)
  = [mkvec (x + h) (y + h); mkvec (x - h) (y + h);
     mkvec (x - h) (y - h); mkvec (x + h) (y - h)].
Proof.
  unfold get_world_vertices, box_body. cbn [local_vertices angle pos map].
  rewrite cos_0, sin_0.
  repeat (apply f_equal2; [apply vec_eq; simpl; lra |]). reflexivity.
Qed.

Lemma box_axes x y h :
  0 < h ->
  get_axes [mkvec (x + h) (y + h); mkvec (x - h) (y + h);
            mkvec (x - h) (y - h); mkvec (x + h) (y - h)]
  = [mkvec 0 1; mkvec (-1) 0; mkvec 0 (-1); mkvec 1 0].
Proof.
  intro Hh. unfold get_axes.
  cbn [List.length seq flat_map nth Nat.add Nat.modulo Nat.divmod fst snd Nat.sub].
  cbn [vsub vx vy].
  repeat match goal with
  | |- context [norm (mkvec ?a ?b)] =>
      rewrite (norm_value a b (2 * h)) by (lra || ring)
  end.
  cmp. cbn [app].
  repeat (apply f_equal2; [apply vec_eq; unfold vdiv; cbn [vx vy]; field; lra |]).
  reflexivity.
Qed.

Lemma box_proj x y h :
  0 < h ->
  let vs := [mkvec (x + h) (y + h); mkvec (x - h) (y + h);
             mkvec (x - h) (y - h); mkvec (x + h) (y - h)] in
  (proj_min vs (mkvec 0 1) = y - h /\ proj_max vs (mkvec 0 1) = y + h)
  /\ (proj_min vs (mkvec (-1) 0) = - (x + h) /\ proj_max vs (mkvec (-1) 0) = - (x - h))
  /\ (proj_min vs (mkvec 0 (-1)) = - (y + h) /\ proj_max vs (mkvec 0 (-1)) = - (y - h))
  /\ (proj_min vs (mkvec 1 0) = x - h /\ proj_max vs (mkvec 1 0) = x + h).
Proof.
  intros Hh vs. unfold vs, proj_min, proj_max.
  cbn [map least greatest]. unfold dot. cbn [vx vy]. unfold Rmin, Rmax.
  repeat split; repeat destruct (Rle_dec _ _); lra.
Qed.

(** Two boxes of side 20 with centres (0, 0) and (15, 4): the least
    overlap, 5, is found first on the axis (-1, 0), which is turned to
    (1, 0) to point from the first box to the second. *)
Lemma boxes_collide :
  check_collision_sat (box_body 0 0 10) (box_body 15 4 10)
  = Ok (true, Some (vneg (mkvec (-1) 0)), Fin 5).
Proof.
  unfold check_collision_sat. rewrite !box_world, !box_axes by lra. cbn [app].
  destruct (box_proj 0 0 10 ltac:(lra)) as ((A1 & A2) & (A3 & A4) & (A5 & A6) & (A7 & A8)).
  destruct (box_proj 15 4 10 ltac:(lra)) as ((B1 & B2) & (B3 & B4) & (B5 & B6) & (B7 & B8)).
  set (va := [mkvec (0 + 10) (0 + 10); mkvec (0 - 10) (0 + 10);
              mkvec (0 - 10) (0 - 10); mkvec (0 + 10) (0 - 10)]) in *.
  set (vb := [mkvec (15 + 10) (4 + 10); mkvec (15 - 10) (4 + 10);
              mkvec (15 - 10) (4 - 10); mkvec (15 + 10) (4 - 10)]) in *.
  assert (Hva : va <> []) by discriminate.
  assert (Hvb : vb <> []) by discriminate.
  assert (O1 : overlap_on va vb (mkvec 0 1) = 16).
  { unfold overlap_on. rewrite A1, A2, B1, B2. unfold Rmin, Rmax.
    repeat destruct (Rle_dec _ _); lra. }
  assert (O2 : overlap_on va vb (mkvec (-1) 0) = 5).
  { unfold overlap_on. rewrite A3, A4, B3, B4. unfold Rmin, Rmax.
    repeat destruct (Rle_dec _ _); lra. }
  assert (O3 : overlap_on va vb (mkvec 0 (-1)) = 16).
  { unfold overlap_on. rewrite A5, A6, B5, B6. unfold Rmin, Rmax.
    repeat destruct (Rle_dec _ _); lra. }
  assert (O4 : overlap_on va vb (mkvec 1 0) = 5).
  { unfold overlap_on. rewrite A7, A8, B7, B8. unfold Rmin, Rmax.
    repeat destruct (Rle_dec _ _); lra. }
  repeat (rewrite sat_loop_cons by assumption;
          rewrite ?A1, ?A2, ?A3, ?A4, ?A5, ?A6, ?A7, ?A8,
                  ?B1, ?B2, ?B3, ?B4, ?B5, ?B6, ?B7, ?B8, ?O1, ?O2, ?O3, ?O4;
          cbn [lt_x]; cmp; cbn [orb]).
  cbn [sat_loop bind pos box_body]. unfold dot, vsub. cbn [vx vy]. cmp.
  reflexivity.
Qed.

(** The same boxes with centres (0, 0) and (30, 0) are apart: the second
    axis separates them and the scan stops there. *)
Lemma boxes_apart :
  check_collision_sat (box_body 0 0 10) (box_body 30 0 10) = Ok (false, None, Fin 0).
Proof.
  unfold check_collision_sat. rewrite !box_world, !box_axes by lra. cbn [app].
  destruct (box_proj 0 0 10 ltac:(lra)) as ((A1 & A2) & (A3 & A4) & _).
  destruct (box_proj 30 0 10 ltac:(lra)) as ((B1 & B2) & (B3 & B4) & _).
  set (va := [mkvec (0 + 10) (0 + 10); mkvec (0 - 10) (0 + 10);
              mkvec (0 - 10) (0 - 10); mkvec (0 + 10) (0 - 10)]) in *.
  set (vb := [mkvec (30 + 10) (0 + 10); mkvec (30 - 10) (0 + 10);
              mkvec (30 - 10) (0 - 10); mkvec (30 + 10) (0 - 10)]) in *.
  assert (Hva : va <> []) by discriminate.
  assert (Hvb : vb <> []) by discriminate.
  rewrite sat_loop_cons by assumption. rewrite A1, A2, B1, B2. cmp. cbn [orb lt_x].
  rewrite sat_loop_cons by assumption. rewrite A3, A4, B3, B4. cmp. cbn [orb].
  reflexivity.
Qed.

(** ** The physics part of a frame *)

Lemma put_same h k b : put h k b k = b.
Proof. unfold put. rewrite Nat.eqb_refl. reflexivity. Qed.

Lemma put_other h k b k' : k' <> k -> put h k b k' = h k'.
Proof. intro H. unfold put. apply Nat.eqb_neq in H. rewrite H. reflexivity. Qed.

Lemma py_in_In k l : py_in k l = true <-> In k l.
Proof.
  unfold py_in. rewrite existsb_exists. split.
  - intros (x & Hin & Heq). apply Nat.eqb_eq in Heq. subst. assumption.
  - intro H. exists k. split; [assumption | apply Nat.eqb_refl].
Qed.

Lemma py_in_not_In k l : py_in k l = false <-> ~ In k l.
Proof.
  rewrite <- py_in_In. destruct (py_in k l); split; intro H;
    solve [discriminate | reflexivity | intro; discriminate | exfalso; auto].
Qed.


(** The scan treats every reference of the list, each one by
    [scanned_body], and queues the captured ones in order. *)
Lemma pocket_scan_spec dt todo : forall h q,
  NoDup todo ->
  (forall k, fst (pocket_scan h todo dt get_pockets q) k
             = if py_in k todo then scanned_body (h k) dt else h k)
  /\ snd (pocket_scan h todo dt get_pockets q)
     = q ++ filter (fun k => captured (h k) dt) todo.
Proof.
  induction todo as [| ball rest IH]; intros h q Hnd.
  - simpl. split; [reflexivity | symmetry; apply app_nil_r].
  - inversion Hnd as [| x l Hnotin Hnd']; subst.
    set (hX := put h ball (scanned_body (h ball) dt)).
    assert (Hfil : filter (fun k => captured (hX k) dt) rest
                   = filter (fun k => captured (h k) dt) rest).
    { apply filter_ext_in. intros k Hk. unfold hX. rewrite put_other; [reflexivity |].
      intros ->. contradiction. }
    assert (Hpt : forall h' q',
      (forall k, h' k = hX k) ->
      (forall k, fst (pocket_scan h' rest dt get_pockets q') k
                 = if py_in k (ball :: rest) then scanned_body (h k) dt else h k)
      /\ snd (pocket_scan h' rest dt get_pockets q')
         = q' ++ filter (fun k => captured (h k) dt) rest).
    { intros h' q' Hext.
      destruct (IH h' q' Hnd') as (Hh & Hq). split.
      - intro k. rewrite Hh. unfold py_in. cbn [existsb]. fold (py_in k rest).
        destruct (Nat.eqb k ball) eqn:Ek.
        + apply Nat.eqb_eq in Ek. subst k.
          rewrite (proj2 (py_in_not_In ball rest) Hnotin). cbn [orb].
          rewrite Hext. unfold hX. apply put_same.
        + cbn [orb]. apply Nat.eqb_neq in Ek.
          rewrite Hext. unfold hX. rewrite put_other by assumption. reflexivity.
      - rewrite Hq. f_equal. rewrite <- Hfil. apply filter_ext.
        intro k. rewrite Hext. reflexivity. }
    cbn [pocket_scan]. rewrite !put_same.
    cbn [filter]. unfold scanned_body in hX. unfold captured at 1.
    destruct (check_pocket_fall (update (h ball) dt) get_pockets) eqn:Ef;
      [destruct (is_cue (update (h ball) dt)) eqn:Ec |]; cbn [andb negb] in *.
    + apply Hpt. intro k. unfold hX, put.
      destruct (Nat.eqb k ball); reflexivity.
    + destruct (Hpt (put h ball (update (h ball) dt)) (q ++ [ball])) as (Hh & Hq).
      { reflexivity. }
      split; [exact Hh |]. rewrite Hq, <- app_assoc. reflexivity.
    + apply Hpt. reflexivity.
Qed.

Lemma filter_keep_all {A} (l : list A) : filter (fun _ => true) l = l.
Proof. induction l as [| x r IH]; simpl; [| rewrite IH]; reflexivity. Qed.

Lemma py_remove_filter b l :
  NoDup l -> py_remove b l = filter (fun k => negb (Nat.eqb k b)) l.
Proof.
  induction l as [| x r IH]; intro Hnd; [reflexivity |].
  inversion Hnd as [| y l' Hnotin Hnd']; subst.
  cbn [py_remove filter]. destruct (Nat.eqb x b) eqn:E; cbn [negb].
  - apply Nat.eqb_eq in E. subst x. symmetry.
    rewrite (filter_ext_in _ (fun _ => true)); [apply filter_keep_all |].
    intros k Hk. destruct (Nat.eqb k b) eqn:Ek; [| reflexivity].
    apply Nat.eqb_eq in Ek. subst. contradiction.
  - f_equal. apply IH, Hnd'.
Qed.

Lemma filter_absent b l :
  ~ In b l -> filter (fun k => negb (Nat.eqb k b)) l = l.
Proof.
  intro H. rewrite (filter_ext_in _ (fun _ => true)).
  - apply filter_keep_all.
  - intros k Hk. destruct (Nat.eqb k b) eqn:Ek; [| reflexivity].
    apply Nat.eqb_eq in Ek. subst. contradiction.
Qed.

Lemma filter_filter {A} (f g : A -> bool) l :
  filter f (filter g l) = filter (fun x => g x && f x) l.
Proof.
  induction l as [| x r IH]; [reflexivity |].
  cbn [filter]. destruct (g x); cbn [filter andb]; rewrite IH; reflexivity.
Qed.

(** The removals, once the scan is over, take out of the list exactly the
    queued references and keep the order of the others. *)
Lemma remove_queued_filter q : forall l,
  NoDup l -> remove_queued q l = filter (fun k => negb (py_in k q)) l.
Proof.
  unfold remove_queued.
  induction q as [| b q IH]; intros l Hnd; cbn [fold_left].
  - symmetry. rewrite (filter_ext _ (fun _ => true)); [| reflexivity].
    apply filter_keep_all.
  - assert (Hstep : (if py_in b l then py_remove b l else l)
                    = filter (fun k => negb (Nat.eqb k b)) l).
    { destruct (py_in b l) eqn:E.
      - apply py_remove_filter, Hnd.
      - symmetry. apply filter_absent. apply py_in_not_In, E. }
    rewrite Hstep, IH by (apply NoDup_filter, Hnd).
    rewrite filter_filter. apply filter_ext. intro k.
    unfold py_in. cbn [existsb].
    destruct (Nat.eqb k b); reflexivity.
Qed.

Lemma pocket_pass_spec w dt :
  NoDup (balls w) ->
  balls (pocket_pass w dt)
  = filter (fun r => negb (captured (heap w r) dt)) (balls w)
  /\ forall r, In r (balls w) ->
       heap (pocket_pass w dt) r = scanned_body (heap w r) dt.
Proof.
  intro Hnd. unfold pocket_pass.
  destruct (pocket_scan_spec dt (balls w) (heap w) [] Hnd) as (Hh & Hq).
  destruct (pocket_scan (heap w) (balls w) dt get_pockets []) as [h q].
  cbn [fst snd app] in *. cbn [balls heap]. split.
  - rewrite remove_queued_filter by assumption. subst q.
    apply filter_ext_in. intros k Hk. f_equal.
    destruct (captured (heap w k) dt) eqn:Ec.
    + apply py_in_In. apply filter_In. split; assumption.
    + apply py_in_not_In. intro Hin. apply filter_In in Hin.
      destruct Hin as (_ & Hc). congruence.
  - intros r Hr. rewrite Hh. rewrite (proj2 (py_in_In r (balls w)) Hr). reflexivity.
Qed.

Lemma step_balls w dt : balls (fst (step w dt)) = balls (pocket_pass w dt).
Proof.
  unfold step. destruct (collide_all _ _) as [h e]. reflexivity.
Qed.









(** * Further properties of the code *)

(** ** Axes, projections and support points *)

Lemma get_axes_normals (vs : list vec) (axis : vec) :
  In axis (get_axes vs) ->
  norm axis = 1
  /\ exists i, (i < List.length vs)%nat
       /\ nth i vs vzero <> nth ((i + 1) mod List.length vs) vs vzero
       /\ dot axis (vsub (nth i vs vzero) (nth ((i + 1) mod List.length vs) vs vzero)) = 0.
Proof.
  unfold get_axes. intro H. apply in_flat_map in H.
  destruct H as (i & Hi & Hax). apply in_seq in Hi.
  set (e := vsub (nth i vs vzero) (nth ((i + 1) mod List.length vs) vs vzero)) in *.
  cbv zeta in Hax. fold e in Hax.
  set (nrm := mkvec (- vy e) (vx e)) in *.
  destruct (Rgtb (norm nrm) 0) eqn:Hlen; [| destruct Hax].
  destruct Hax as [<- | []].
  unfold Rgtb in Hlen. apply Rltb_lt in Hlen. split.
  - apply norm_normalised. exact Hlen.
  - exists i. split; [lia |]. split.
    + intro Heq. fold e in Heq.
      assert (He : e = vzero) by (unfold e; rewrite Heq; apply vec_eq; simpl; lra).
      assert (Hz : nrm = vzero) by (unfold nrm; rewrite He; apply vec_eq; simpl; lra).
      rewrite Hz, norm_vzero in Hlen. lra.
    + fold e. clearbody e. subst nrm. unfold dot, vdiv. cbn [vx vy]. field. lra.
Qed.

(** X1.  Every axis that [get_axes] returns is a unit vector, and it is
    perpendicular to an edge of the polygon whose two ends differ: the
    edge from vertex [i] to the next one, cyclically. *)
Theorem get_axes_unit_normals (vs : list vec) (axis : vec) :
  In axis (get_axes vs) ->
  norm axis = 1
  /\ exists i, (i < List.length vs)%nat
       /\ nth i vs vzero <> nth ((i + 1) mod List.length vs) vs vzero
       /\ dot axis (vsub (nth i vs vzero) (nth ((i + 1) mod List.length vs) vs vzero)) = 0.
Proof. exact (get_axes_normals vs axis). Qed.

Lemma get_axes_unit_normals_witness :
  norm (mkvec 0 1) = 1.
Proof.
  apply (get_axes_unit_normals
           [mkvec (0 + 10) (0 + 10); mkvec (0 - 10) (0 + 10);
            mkvec (0 - 10) (0 - 10); mkvec (0 + 10) (0 - 10)] (mkvec 0 1)).
  rewrite box_axes by lra. left. reflexivity.
Defined.

(** X2.  [project] fails with [ValueError] on an empty list of vertices;
    on any other list it returns an interval [(lo, hi)] that contains the
    scalar projection of every vertex and whose two ends are the
    projections of vertices. *)
Theorem project_interval (vs : list vec) (axis : vec) :
  (vs = [] -> project vs axis = Raise ValueError)
  /\ (vs <> [] ->
      exists lo hi,
        project vs axis = Ok (lo, hi)
        /\ (forall v, In v vs -> lo <= dot v axis <= hi)
        /\ (exists v, In v vs /\ dot v axis = lo)
        /\ (exists v, In v vs /\ dot v axis = hi)).
Proof.
  split.
  - intros ->. reflexivity.
  - intro Hne. exists (proj_min vs axis), (proj_max vs axis).
    destruct (proj_min_max_spec vs axis Hne) as (Hlo & Hhi & Hall).
    split; [apply project_ok, Hne |]. repeat split; try assumption; apply Hall; assumption.
Qed.

Lemma project_interval_witness :
  exists lo hi,
    project [mkvec 3 4; mkvec (-1) 2] (mkvec 1 0) = Ok (lo, hi)
    /\ lo <= dot (mkvec 3 4) (mkvec 1 0) <= hi.
Proof.
  destruct (project_interval [mkvec 3 4; mkvec (-1) 2] (mkvec 1 0)) as (_ & H).
  destruct H as (lo & hi & Hp & Hall & _); [discriminate |].
  exists lo, hi. split; [exact Hp |]. apply Hall. left. reflexivity.
Defined.

Lemma support_loop_from v d : forall vs,
  exists w,
    support_loop vs d (Fin (dot v d)) (Some v) = Some w
    /\ In w (v :: vs)
    /\ dot v d <= dot w d
    /\ forall u, In u vs -> dot u d <= dot w d.
Proof.
  intro vs. revert v. induction vs as [| x vs IH]; intro v.
  - exists v. cbn [support_loop]. repeat split; [left; reflexivity | lra | intros u []].
  - cbn [support_loop gt_x]. unfold Rgtb.
    destruct (Rltb (dot v d) (dot x d)) eqn:E.
    + apply Rltb_lt in E. destruct (IH x) as (w & Hw & Hin & Hge & Hall).
      exists w. repeat split; try assumption.
      * right. exact Hin.
      * lra.
      * intros u [<- | Hu]; [exact Hge | apply Hall, Hu].
    + apply Rltb_ge in E. destruct (IH v) as (w & Hw & Hin & Hge & Hall).
      exists w. repeat split; try assumption.
      * destruct Hin as [<- | Hin]; [left; reflexivity | right; right; exact Hin].
      * intros u [<- | Hu]; [lra | apply Hall, Hu].
Qed.

Lemma get_support_spec (vs : list vec) (d : vec) :
  vs <> [] ->
  exists w, get_support vs d = Some w /\ In w vs
            /\ forall u, In u vs -> dot u d <= dot w d.
Proof.
  intro Hne. destruct vs as [| v vs]; [contradiction |].
  unfold get_support. cbn [support_loop gt_x].
  destruct (support_loop_from v d vs) as (w & Hw & Hin & Hge & Hall).
  exists w. repeat split; try assumption.
  intros u [<- | Hu]; [exact Hge | apply Hall, Hu].
Qed.

(** X3.  [get_support] returns [None] for no vertex at all, and
    otherwise a vertex of the list whose projection on the direction is
    the greatest. *)
Theorem get_support_maximal (vs : list vec) (d : vec) :
  (vs = [] -> get_support vs d = None)
  /\ (vs <> [] ->
      exists w, get_support vs d = Some w /\ In w vs
                /\ forall u, In u vs -> dot u d <= dot w d).
Proof.
  split.
  - intros ->. reflexivity.
  - apply get_support_spec.
Qed.

Lemma get_support_maximal_witness :
  exists w, get_support [mkvec 3 4; mkvec (-1) 2] (mkvec 1 0) = Some w
            /\ dot (mkvec (-1) 2) (mkvec 1 0) <= dot w (mkvec 1 0).
Proof.
  destruct (get_support_maximal [mkvec 3 4; mkvec (-1) 2] (mkvec 1 0)) as (_ & H).
  destruct H as (w & Hw & _ & Hall); [discriminate |].
  exists w. split; [exact Hw |]. apply Hall. right. left. reflexivity.
Defined.

(** ** What [check_collision_sat] returns and when it fails *)

Lemma norm_vneg v : norm (vneg v) = norm v.
Proof. unfold norm, vneg. cbn [vx vy]. f_equal. ring. Qed.

Lemma proj_min_le_max vs axis : vs <> [] -> proj_min vs axis <= proj_max vs axis.
Proof.
  intro Hne. destruct (proj_min_max_spec vs axis Hne) as ((v & Hv & _) & _ & Hall).
  specialize (Hall v Hv). lra.
Qed.

Lemma overlap_nonneg va vb axis :
  va <> [] -> vb <> [] -> ~ disjoint_on va vb axis -> 0 <= overlap_on va vb axis.
Proof.
  intros Ha Hb Hnd. unfold disjoint_on in Hnd. unfold overlap_on.
  pose proof (proj_min_le_max va axis Ha). pose proof (proj_min_le_max vb axis Hb).
  unfold Rmin, Rmax. repeat destruct (Rle_dec _ _); lra.
Qed.

Lemma sat_loop_no_vertices_a vb axis rest mo cn :
  sat_loop [] vb (axis :: rest) mo cn = Raise ValueError.
Proof. reflexivity. Qed.

Lemma sat_loop_no_vertices_b va axis rest mo cn :
  sat_loop va [] (axis :: rest) mo cn = Raise ValueError.
Proof.
  cbn [sat_loop]. destruct (project va axis) as [[lo hi] | e] eqn:E; cbn [bind].
  - reflexivity.
  - destruct va; [cbn in E; congruence |].
    rewrite project_ok in E by discriminate. discriminate.
Qed.

Lemma check_collision_sat_outcomes (a b : RigidBody) :
  let va := get_world_vertices a in
  let vb := get_world_vertices b in
  let axes := get_axes va ++ get_axes vb in
  (axes = [] -> check_collision_sat a b = Raise TypeError)
  /\ (axes <> [] -> va = [] \/ vb = [] -> check_collision_sat a b = Raise ValueError)
  /\ (axes <> [] -> va <> [] -> vb <> [] -> exists r, check_collision_sat a b = Ok r).
Proof.
  intros va vb axes. unfold check_collision_sat. fold va vb axes.
  split; [| split].
  - intros ->. reflexivity.
  - intros Hax Hv. destruct axes as [| axis rest]; [contradiction |].
    destruct Hv as [-> | ->].
    + rewrite sat_loop_no_vertices_a. reflexivity.
    + rewrite sat_loop_no_vertices_b. reflexivity.
  - intros Hax Hva Hvb.
    destruct (sat_loop_spec va vb Hva Hvb axes PInf None)
      as [(_ & Hs) | (_ & mo' & cn' & Hs & Hsc)]; rewrite Hs; cbn [bind].
    + eexists. reflexivity.
    + destruct Hsc as [(_ & _ & Hge) | (axis & _ & -> & -> & _)].
      * exfalso. destruct axes as [| ax rest]; [contradiction |].
        specialize (Hge ax (or_introl eq_refl)). discriminate.
      * eexists. reflexivity.
Qed.

(** X5.  [check_collision_sat] fails in exactly two ways.  When neither
    polygon has an edge of positive length there is no axis and the call
    ends in [TypeError]; when there is an axis but one of the bodies has
    no vertex, it ends in [ValueError].  In every other case it returns. *)
Theorem check_collision_sat_failures (a b : RigidBody) :
  let va := get_world_vertices a in
  let vb := get_world_vertices b in
  let axes := get_axes va ++ get_axes vb in
  (axes = [] -> check_collision_sat a b = Raise TypeError)
  /\ (axes <> [] -> va = [] \/ vb = [] -> check_collision_sat a b = Raise ValueError)
  /\ (axes <> [] -> va <> [] -> vb <> [] -> exists r, check_collision_sat a b = Ok r).
Proof. exact (check_collision_sat_outcomes a b). Qed.

Lemma check_collision_sat_failures_witness :
  exists r, check_collision_sat (box_body 0 0 10) (box_body 15 4 10) = Ok r.
Proof.
  destruct (check_collision_sat_failures (box_body 0 0 10) (box_body 15 4 10))
    as (_ & _ & H).
  apply H; rewrite ?box_world, ?box_axes by lra; discriminate.
Defined.

Lemma check_collision_sat_true_vertices a b nrm depth :
  check_collision_sat a b = Ok (true, nrm, depth) ->
  get_world_vertices a <> [] /\ get_world_vertices b <> []
  /\ get_axes (get_world_vertices a) ++ get_axes (get_world_vertices b) <> [].
Proof.
  intro H.
  destruct (check_collision_sat_outcomes a b) as (Hnone & Hmiss & _). cbv zeta in *.
  assert (Hax : get_axes (get_world_vertices a) ++ get_axes (get_world_vertices b) <> []).
  { intro E. rewrite (Hnone E) in H. discriminate. }
  repeat split; try assumption.
  - intro E. rewrite (Hmiss Hax (or_introl E)) in H. discriminate.
  - intro E. rewrite (Hmiss Hax (or_intror E)) in H. discriminate.
Qed.

(** X4.  Whenever [check_collision_sat] reports a collision, the normal
    it returns is a unit vector that does not point from the second body
    back to the first, and the depth is a finite number that is not
    negative. *)
Theorem check_collision_sat_true_result (a b : RigidBody) (nrm : option vec)
    (depth : xreal) :
  check_collision_sat a b = Ok (true, nrm, depth) ->
  exists n d,
    nrm = Some n /\ depth = Fin d
    /\ norm n = 1 /\ 0 <= d
    /\ 0 <= dot (vsub (pos b) (pos a)) n.
Proof.
  intro H.
  destruct (check_collision_sat_true_vertices a b nrm depth H) as (Hva & Hvb & Hax).
  revert H. unfold check_collision_sat.
  set (va := get_world_vertices a) in *. set (vb := get_world_vertices b) in *.
  set (axes := get_axes va ++ get_axes vb) in *.
  destruct (sat_loop_spec va vb Hva Hvb axes PInf None)
    as [(_ & Hs) | (Hall & mo' & cn' & Hs & Hsc)]; rewrite Hs; cbn [bind].
  - discriminate.
  - destruct Hsc as [(-> & -> & _) | (axis & Hin & -> & -> & _ & _)].
    + discriminate.
    + intro H. injection H as <- <-.
      fold (oriented a b axis).
      exists (oriented a b axis), (overlap_on va vb axis).
      repeat split.
      * assert (Hu : norm axis = 1).
        { unfold axes in Hin. apply in_app_or in Hin.
          destruct Hin as [Hin | Hin]; apply get_axes_normals in Hin; tauto. }
        unfold oriented. destruct (Rltb _ 0); [rewrite norm_vneg |]; exact Hu.
      * apply overlap_nonneg; try assumption. apply Hall, Hin.
      * apply oriented_forward.
Qed.

Lemma check_collision_sat_true_result_witness :
  exists n d,
    Some (vneg (mkvec (-1) 0)) = Some n /\ Fin 5 = Fin d
    /\ norm n = 1 /\ 0 <= d
    /\ 0 <= dot (vsub (pos (box_body 15 4 10)) (pos (box_body 0 0 10))) n.
Proof.
  exact (check_collision_sat_true_result (box_body 0 0 10) (box_body 15 4 10)
           _ _ boxes_collide).
Defined.

(** ** What [resolve_collision] does on each way out *)

Lemma world_vertices_nil b : get_world_vertices b = [] <-> local_vertices b = [].
Proof.
  unfold get_world_vertices. cbv zeta. destruct (local_vertices b); simpl; split;
    intro H; solve [reflexivity | discriminate].
Qed.

Lemma world_vertices_set_pos b p :
  get_world_vertices (set_pos b p) = [] <-> local_vertices b = [].
Proof. rewrite world_vertices_nil. reflexivity. Qed.

Lemma get_support_none vs d : get_support vs d = None <-> vs = [].
Proof.
  split.
  - intro H. destruct vs as [| v vs]; [reflexivity |].
    destruct (get_support_spec (v :: vs) d) as (w & Hw & _); [discriminate | congruence].
  - intros ->. reflexivity.
Qed.

(** The four ways out of [resolve_collision]: both bodies immovable; a
    body without vertices; a separating pair; the impulse. *)
Lemma resolve_collision_cases a b n d :
  let a1 := set_pos a (vsub (pos a) (vscale n (d * 0.5))) in
  let b1 := set_pos b (vadd (pos b) (vscale n (d * 0.5))) in
  (inv_mass a + inv_mass b = 0 /\ resolve_collision a b n d = (a, b, None))
  \/ (inv_mass a + inv_mass b <> 0
      /\ (local_vertices a = [] \/ local_vertices b = [])
      /\ resolve_collision a b n d = (a1, b1, Some TypeError))
  \/ (inv_mass a + inv_mass b <> 0
      /\ local_vertices a <> [] /\ local_vertices b <> []
      /\ exists c vn,
           contact_point_of a b n d = Some c
           /\ vel_normal_of a b n d = Some vn
           /\ vn = separation_speed a1 b1 c n
           /\ ((0 < vn /\ resolve_collision a b n d = (a1, b1, None))
               \/ (vn <= 0
                   /\ let r_a := vsub c (pos a1) in
                      let r_b := vsub c (pos b1) in
                      let denom := inv_mass a + inv_mass b
                                   + cross_2d r_a n ^ 2 * inv_inertia a
                                   + cross_2d r_b n ^ 2 * inv_inertia b in
                      let j := - (1 + 0.9) * vn / denom in
                      let impulse := vscale n j in
                      resolve_collision a b n d
                      = (set_ang_vel
                           (set_vel a1 (vsub (vel a) (vscale impulse (inv_mass a))))
                           (ang_vel a - cross_2d r_a impulse * inv_inertia a),
                         set_ang_vel
                           (set_vel b1 (vadd (vel b) (vscale impulse (inv_mass b))))
                           (ang_vel b + cross_2d r_b impulse * inv_inertia b),
                         None)))).
Proof.
  intros a1 b1.
  unfold resolve_collision, contact_point_of, vel_normal_of. fold a1 b1.
  destruct (Reqb (inv_mass a + inv_mass b) 0) eqn:Et.
  { left. apply Reqb_eq in Et. split; [assumption | reflexivity]. }
  apply Reqb_neq in Et. right.
  destruct (get_support (get_world_vertices a1) n) as [ca |] eqn:Ea.
  2: { left. apply get_support_none, world_vertices_set_pos in Ea.
       repeat split; [assumption | left; assumption]. }
  destruct (get_support (get_world_vertices b1) (vneg n)) as [cb |] eqn:Eb.
  2: { left. apply get_support_none, world_vertices_set_pos in Eb.
       repeat split; [assumption | right; assumption]. }
  right. split; [assumption |].
  split. { intro E. assert (Hn : get_world_vertices a1 = [])
             by (apply world_vertices_nil; exact E).
           rewrite Hn in Ea. discriminate. }
  split. { intro E. assert (Hn : get_world_vertices b1 = [])
             by (apply world_vertices_nil; exact E).
           rewrite Hn in Eb. discriminate. }
  cbv zeta.
  match goal with |- context [Some (if ?t then ca else cb)] =>
    set (c := if t then ca else cb) end.
  exists c. eexists. split; [reflexivity |]. split; [reflexivity |].
  split; [reflexivity |].
  match goal with |- context [Rgtb ?x 0] => set (vn := x) end.
  destruct (Rgtb vn 0) eqn:Ev; unfold Rgtb in Ev.
  - left. apply Rltb_lt in Ev. split; [assumption | reflexivity].
  - right. apply Rltb_ge in Ev. split; [assumption | reflexivity].
Qed.

(** X6.  [resolve_collision] ends in an exception exactly when the two
    bodies are not both immovable and one of them has no vertex; the
    exception is then [TypeError], raised after the positions have been
    corrected. *)
Theorem resolve_collision_raises (a b : RigidBody) (n : vec) (d : R) :
  (res_exn (resolve_collision a b n d) <> None
   <-> inv_mass a + inv_mass b <> 0
       /\ (local_vertices a = [] \/ local_vertices b = []))
  /\ (res_exn (resolve_collision a b n d) <> None ->
      resolve_collision a b n d
      = (set_pos a (vsub (pos a) (vscale n (d * 0.5))),
         set_pos b (vadd (pos b) (vscale n (d * 0.5))), Some TypeError)).
Proof.
  destruct (resolve_collision_cases a b n d)
    as [(Ht & Hr) | [(Ht & Hv & Hr) | (Ht & Hva & Hvb & c & vn & _ & _ & _ & Hr)]];
    cbv zeta in *.
  - rewrite Hr. cbn [res_exn snd]. split; [split |]; intro H; try congruence.
    destruct H as (H & _). contradiction.
  - rewrite Hr. cbn [res_exn snd]. split; [split |]; intros _; try reflexivity.
    + split; assumption.
    + discriminate.
  - destruct Hr as [(_ & Hr) | (_ & Hr)]; rewrite Hr; cbn [res_exn snd];
      (split; [split |]; intro H; try congruence;
       destruct H as (_ & [H | H]); contradiction).
Qed.

Lemma resolve_collision_raises_witness :
  resolve_collision (set_vel (resting_ball 300 300 35 false) (mkvec 1 0))
    (mkRigidBody (mkvec 320 300) (mkvec 0 0) 0 0 20 (1 / 20) WHITE 35 false 0 0 [])
    (mkvec 1 0) 4
  = (set_pos (set_vel (resting_ball 300 300 35 false) (mkvec 1 0))
       (vsub (mkvec 300 300) (vscale (mkvec 1 0) (4 * 0.5))),
     set_pos (mkRigidBody (mkvec 320 300) (mkvec 0 0) 0 0 20 (1 / 20) WHITE 35
                false 0 0 [])
       (vadd (mkvec 320 300) (vscale (mkvec 1 0) (4 * 0.5))),
     Some TypeError).
Proof.
  destruct (resolve_collision_raises
              (set_vel (resting_ball 300 300 35 false) (mkvec 1 0))
              (mkRigidBody (mkvec 320 300) (mkvec 0 0) 0 0 20 (1 / 20) WHITE 35
                 false 0 0 [])
              (mkvec 1 0) 4) as (Hiff & Hres).
  apply Hres. apply Hiff. split.
  - simpl. lra.
  - right. reflexivity.
Defined.

Lemma consistent_nonneg b : consistent b -> 0 <= inv_mass b /\ 0 <= inv_inertia b.
Proof.
  intros (Hm & _ & Hi). rewrite Hm, Hi. split; cmp_cases; try lra.
  - apply Rlt_le, Rdiv_lt_0_compat; lra.
  - apply Rlt_le, Rdiv_lt_0_compat; lra.
Qed.

(** X7.  Restitution.  When the impulse branch is taken for a unit
    normal, the two bodies leave the contact point with 0.9 times the
    speed along the normal with which they met there: the separation
    speed [vn <= 0] before the impulse becomes [- 0.9 * vn] after it. *)
Theorem impulse_restitution (a b : RigidBody) (n : vec) (d : R) (c : vec) (vn : R) :
  consistent a -> consistent b -> dot n n = 1 ->
  contact_point_of a b n d = Some c ->
  vel_normal_of a b n d = Some vn -> vn <= 0 ->
  separation_speed (res_a (resolve_collision a b n d))
    (res_b (resolve_collision a b n d)) c n
  = - 0.9 * vn.
Proof.
  intros Ca Cb Hn Hc Hv Hle.
  destruct (consistent_nonneg a Ca) as (Hma & Hia).
  destruct (consistent_nonneg b Cb) as (Hmb & Hib).
  destruct (resolve_collision_cases a b n d)
    as [(Ht & Hr) | [(Ht & Hvs & Hr) | (Ht & _ & _ & c' & vn' & Hc' & Hv' & Hvn & Hr)]];
    cbv zeta in *.
  - unfold contact_point_of in Hc. rewrite (proj2 (Reqb_eq _ _) Ht) in Hc. discriminate.
  - exfalso. revert Hc. unfold contact_point_of.
    destruct (Reqb _ 0); [discriminate |]. cbv zeta.
    destruct Hvs as [E | E];
      [ assert (Hnil : get_world_vertices
                         (set_pos a (vsub (pos a) (vscale n (d * 0.5)))) = [])
          by (apply world_vertices_nil; exact E)
      | assert (Hnil : get_world_vertices
                         (set_pos b (vadd (pos b) (vscale n (d * 0.5)))) = [])
          by (apply world_vertices_nil; exact E) ];
      rewrite Hnil.
    + change (get_support [] n) with (@None vec). discriminate.
    + change (get_support [] (vneg n)) with (@None vec).
      destruct (get_support _ n); discriminate.
  - rewrite Hc in Hc'. injection Hc' as <-. rewrite Hv in Hv'. injection Hv' as <-.
    destruct Hr as [(Hpos & _) | (_ & Hr)]; [lra |].
    rewrite Hr. clear Hr Hc Hv.
    set (ra := vsub c (pos (set_pos a (vsub (pos a) (vscale n (d * 0.5)))))) in *.
    set (rb := vsub c (pos (set_pos b (vadd (pos b) (vscale n (d * 0.5)))))) in *.
    set (denom := inv_mass a + inv_mass b + cross_2d ra n ^ 2 * inv_inertia a
                  + cross_2d rb n ^ 2 * inv_inertia b) in *.
    assert (Hden : 0 < denom).
    { unfold denom.
      assert (0 <= cross_2d ra n ^ 2) by apply pow2_ge_0.
      assert (0 <= cross_2d rb n ^ 2) by apply pow2_ge_0.
      assert (0 <= cross_2d ra n ^ 2 * inv_inertia a) by (apply Rmult_le_pos; assumption).
      assert (0 <= cross_2d rb n ^ 2 * inv_inertia b) by (apply Rmult_le_pos; assumption).
      lra. }
    set (j := - (1 + 0.9) * vn / denom).
    assert (Hj : j * denom = - (1 + 0.9) * vn).
    { unfold j, Rdiv. rewrite Rmult_assoc, Rinv_l by lra. lra. }
    clearbody j.
    assert (Hid : separation_speed
                    (set_ang_vel
                       (set_vel (set_pos a (vsub (pos a) (vscale n (d * 0.5))))
                          (vsub (vel a) (vscale (vscale n j) (inv_mass a))))
                       (ang_vel a - cross_2d ra (vscale n j) * inv_inertia a))
                    (set_ang_vel
                       (set_vel (set_pos b (vadd (pos b) (vscale n (d * 0.5))))
                          (vadd (vel b) (vscale (vscale n j) (inv_mass b))))
                       (ang_vel b + cross_2d rb (vscale n j) * inv_inertia b))
                    c n
                  = vn + j * ((inv_mass a + inv_mass b) * dot n n
                              + cross_2d ra n ^ 2 * inv_inertia a
                              + cross_2d rb n ^ 2 * inv_inertia b)).
    { rewrite Hvn. unfold ra, rb, separation_speed, point_velocity, cross_2d, dot.
      cbn [pos vel ang_vel set_pos set_vel set_ang_vel vx vy vsub vadd vscale].
      ring. }
    cbn [res_a res_b fst snd]. rewrite Hid, Hn, Rmult_1_r. fold denom. lra.
Qed.

Lemma approaching_contact :
  contact_point_of (moving_ball 300 300 10 0 35) (moving_ball 330 300 (-10) 0 35)
    (mkvec 1 0) 5 = Some (mkvec 315 300)
  /\ vel_normal_of (moving_ball 300 300 10 0 35) (moving_ball 330 300 (-10) 0 35)
       (mkvec 1 0) 5 = Some (-20).
Proof.
  split.
  - unfold contact_point_of, moving_ball, resting_ball, get_world_vertices, get_support.
    cbn -[Rltb Rgtb Reqb cos sin].
    rewrite cos_0, sin_0. unfold dot, vadd, vsub, vscale, vneg.
    evalR. f_equal. apply vec_eq; cbn [vx vy]; lra.
  - unfold vel_normal_of, moving_ball, resting_ball, get_world_vertices, get_support.
    cbn -[Rltb Rgtb Reqb cos sin].
    rewrite cos_0, sin_0. unfold dot, vadd, vsub, vscale, vneg.
    evalR. f_equal. lra.
Qed.

Lemma impulse_restitution_witness :
  separation_speed
    (res_a (resolve_collision (moving_ball 300 300 10 0 35)
              (moving_ball 330 300 (-10) 0 35) (mkvec 1 0) 5))
    (res_b (resolve_collision (moving_ball 300 300 10 0 35)
              (moving_ball 330 300 (-10) 0 35) (mkvec 1 0) 5))
    (mkvec 315 300) (mkvec 1 0)
  = - 0.9 * -20.
Proof.
  apply (impulse_restitution (moving_ball 300 300 10 0 35)
           (moving_ball 330 300 (-10) 0 35) (mkvec 1 0) 5 (mkvec 315 300) (-20)).
  - apply moving_ball_consistent; lra.
  - apply moving_ball_consistent; lra.
  - unfold dot; simpl; lra.
  - apply approaching_contact.
  - apply approaching_contact.
  - lra.
Defined.

(** X8.  Whatever the way out, [resolve_collision] moves the two centres
    apart along the normal by the depth (times [n . n], which is 1 for
    the normals [check_collision_sat] returns), unless both bodies are
    immovable, in which case nothing moves. *)
Theorem resolve_collision_separates_centres (a b : RigidBody) (n : vec) (d : R) :
  (inv_mass a + inv_mass b <> 0 ->
     dot (vsub (pos (res_b (resolve_collision a b n d)))
               (pos (res_a (resolve_collision a b n d)))) n
     = dot (vsub (pos b) (pos a)) n + d * dot n n)
  /\ (inv_mass a + inv_mass b = 0 -> resolve_collision a b n d = (a, b, None)).
Proof.
  split.
  - intro Ht.
    destruct (resolve_collision_effect a b n d)
      as (j & ka & kb & _ & _ & _ & _ & _ & _ & Hpa & Hpb & _).
    cbv zeta in *. rewrite Hpa, Hpb.
    rewrite (proj2 (Reqb_neq _ _) Ht).
    unfold dot, vsub, vadd, vscale. cbn [vx vy]. lra.
  - intro Ht. unfold resolve_collision. rewrite (proj2 (Reqb_eq _ _) Ht). reflexivity.
Qed.

Lemma resolve_collision_separates_centres_witness :
  dot (vsub (pos (res_b (resolve_collision (moving_ball 300 300 10 0 35)
                           (moving_ball 330 300 (-10) 0 35) (mkvec 1 0) 5)))
            (pos (res_a (resolve_collision (moving_ball 300 300 10 0 35)
                           (moving_ball 330 300 (-10) 0 35) (mkvec 1 0) 5))))
      (mkvec 1 0)
  = dot (vsub (mkvec 330 300) (mkvec 300 300)) (mkvec 1 0)
    + 5 * dot (mkvec 1 0) (mkvec 1 0).
Proof.
  apply (resolve_collision_separates_centres (moving_ball 300 300 10 0 35)
           (moving_ball 330 300 (-10) 0 35) (mkvec 1 0) 5).
  simpl. lra.
Defined.

(** X9.  Whatever the way out, [resolve_collision] leaves in both bodies
    the orientation and every field set at construction (mass, inverse
    mass, size, cue flag, inertia, inverse inertia, vertices, colour) as
    they were. *)
Theorem resolve_collision_keeps_make (a b : RigidBody) (n : vec) (d : R) :
  same_make a (res_a (resolve_collision a b n d))
  /\ same_make b (res_b (resolve_collision a b n d))
  /\ angle (res_a (resolve_collision a b n d)) = angle a
  /\ angle (res_b (resolve_collision a b n d)) = angle b.
Proof.
  destruct (resolve_collision_cases a b n d)
    as [(_ & Hr) | [(_ & _ & Hr) | (_ & _ & _ & c & vn & _ & _ & _ & Hr)]];
    cbv zeta in *.
  - rewrite Hr. unfold same_make. cbn. repeat split.
  - rewrite Hr. unfold same_make. cbn. repeat split.
  - destruct Hr as [(_ & Hr) | (_ & Hr)]; rewrite Hr; unfold same_make; cbn;
      repeat split.
Qed.

Lemma consistent_inertia b :
  consistent b -> 0 < mass b -> size b <> 0 ->
  0 < inertia b /\ inv_inertia b = 1 / inertia b.
Proof.
  intros (_ & Hi & Hii) Hm Hs.
  assert (Hpos : 0 < inertia b).
  { rewrite Hi. assert (0 < (size b / 2) ^ 2) by (simpl; nra). nra. }
  split; [assumption |]. rewrite Hii. cmp. reflexivity.
Qed.

(** X10.  For two movable bodies of non-zero size, the impulse leaves the
    total angular momentum about the origin as it is once the positions
    have been corrected: the changes of spin and of linear velocity are
    those of one impulse applied with opposite signs at one point. *)
Theorem resolve_collision_conserves_angular_momentum (a b : RigidBody)
    (n : vec) (d : R) :
  consistent a -> consistent b ->
  0 < mass a -> 0 < mass b -> size a <> 0 -> size b <> 0 ->
  angular_momentum (res_a (resolve_collision a b n d))
    (res_b (resolve_collision a b n d))
  = angular_momentum (set_pos a (vsub (pos a) (vscale n (d * 0.5))))
      (set_pos b (vadd (pos b) (vscale n (d * 0.5)))).
Proof.
  intros Ca Cb Hma Hmb Hsa Hsb.
  destruct (consistent_movable a Ca Hma) as (Ima & Hpa).
  destruct (consistent_movable b Cb Hmb) as (Imb & Hpb).
  destruct (consistent_inertia a Ca Hma Hsa) as (HIa & Iia).
  destruct (consistent_inertia b Cb Hmb Hsb) as (HIb & Iib).
  destruct (resolve_collision_cases a b n d)
    as [(Ht & _) | [(_ & _ & Hr) | (_ & _ & _ & c & vn & _ & _ & _ & Hr)]];
    cbv zeta in *.
  - lra.
  - rewrite Hr. reflexivity.
  - destruct Hr as [(_ & Hr) | (_ & Hr)]; rewrite Hr; [reflexivity |].
    match goal with |- context [vscale n (?num / ?den)] => set (j := num / den) end.
    clearbody j.
    set (h := d * 0.5). clearbody h.
    unfold angular_momentum, cross_2d.
    cbn [res_a res_b fst snd pos vel ang_vel mass inertia set_pos set_vel set_ang_vel
         vx vy vsub vadd vscale].
    rewrite Ima, Imb, Iia, Iib. field. repeat split; lra.
Qed.

Lemma resolve_collision_conserves_angular_momentum_witness :
  angular_momentum
    (res_a (resolve_collision (moving_ball 300 300 10 0 35)
              (moving_ball 330 300 (-10) 0 35) (mkvec 1 0) 5))
    (res_b (resolve_collision (moving_ball 300 300 10 0 35)
              (moving_ball 330 300 (-10) 0 35) (mkvec 1 0) 5))
  = angular_momentum
      (set_pos (moving_ball 300 300 10 0 35)
         (vsub (mkvec 300 300) (vscale (mkvec 1 0) (5 * 0.5))))
      (set_pos (moving_ball 330 300 (-10) 0 35)
         (vadd (mkvec 330 300) (vscale (mkvec 1 0) (5 * 0.5)))).
Proof.
  apply (resolve_collision_conserves_angular_momentum
           (moving_ball 300 300 10 0 35) (moving_ball 330 300 (-10) 0 35)
           (mkvec 1 0) 5).
  - apply moving_ball_consistent; lra.
  - apply moving_ball_consistent; lra.
  - simpl; lra.
  - simpl; lra.
  - simpl; lra.
  - simpl; lra.
Defined.

(** ** [update] over time *)

Lemma norm_le_of_squares a b a' b' :
  a' * a' <= a * a -> b' * b' <= b * b -> norm (mkvec a' b') <= norm (mkvec a b).
Proof.
  intros Ha Hb. unfold norm. cbn [vx vy]. apply sqrt_le_1_alt. lra.
Qed.

Lemma contain_axis_slower p v lo hi :
  snd (Stages.contain_axis p v lo hi) * snd (Stages.contain_axis p v lo hi) <= v * v.
Proof.
  unfold Stages.contain_axis. cmp_cases; cbn [snd]; nra.
Qed.

Lemma contain_speed b : norm (vel (Stages.contain b)) <= norm (vel b).
Proof.
  destruct (contain_fields b) as (_ & Hv & _). rewrite Hv.
  destruct (vel b) as [u v]. cbn [vx vy].
  apply norm_le_of_squares; apply contain_axis_slower.
Qed.

Lemma damped_speed b dt :
  norm (vel (Stages.damp (Stages.translate b dt))) = 0.985 * norm (vel b).
Proof.
  unfold Stages.damp, Stages.translate. cbn [vel].
  change (mkvec (vx (vel b) * 0.985) (vy (vel b) * 0.985)) with (vscale (vel b) 0.985).
  rewrite norm_vscale, Rabs_pos_eq by lra. lra.
Qed.

Lemma clamp_speed b :
  (norm (vel b) < 2 -> vel (Stages.clamp_to_rest b) = vzero)
  /\ norm (vel (Stages.clamp_to_rest b)) <= norm (vel b).
Proof.
  unfold Stages.clamp_to_rest. cbn [vel]. split.
  - intro H. cmp. reflexivity.
  - destruct (Rltb _ 2.0); [| lra].
    change (mkvec 0 0) with vzero. rewrite norm_vzero. apply norm_nonneg.
Qed.

Lemma contain_keeps_rest b : vel b = vzero -> vel (Stages.contain b) = vzero.
Proof.
  intro H. destruct (contain_fields b) as (_ & Hv & _). rewrite Hv, H. unfold vzero.
  apply vec_eq; cbn [vx vy]; unfold Stages.contain_axis; cmp_cases; cbn [snd]; lra.
Qed.

Lemma update_speed b dt : norm (vel (update b dt)) <= 0.985 * norm (vel b).
Proof.
  rewrite update_integrate. unfold Stages.integrate.
  eapply Rle_trans; [apply contain_speed |].
  eapply Rle_trans; [apply clamp_speed |].
  rewrite damped_speed. lra.
Qed.

Lemma update_stops_slow b dt : 0.985 * norm (vel b) < 2 -> vel (update b dt) = vzero.
Proof.
  intro H. rewrite update_integrate. unfold Stages.integrate.
  apply contain_keeps_rest. apply clamp_speed. rewrite damped_speed. exact H.
Qed.

Lemma update_spin b dt :
  Rabs (ang_vel (update b dt)) <= 0.98 * Rabs (ang_vel b)
  /\ (0.98 * Rabs (ang_vel b) < 0.1 -> ang_vel (update b dt) = 0).
Proof.
  rewrite update_integrate. unfold Stages.integrate.
  destruct (contain_fields
              (Stages.clamp_to_rest (Stages.damp (Stages.translate b dt))))
    as (_ & _ & _ & Hw).
  rewrite Hw. unfold Stages.clamp_to_rest, Stages.damp, Stages.translate.
  cbn [ang_vel].
  assert (Hd : Rabs (ang_vel b * 0.98) = 0.98 * Rabs (ang_vel b)).
  { rewrite Rabs_mult, (Rabs_pos_eq 0.98) by lra. lra. }
  rewrite Hd. split.
  - destruct (Rltb _ 0.1); [| lra]. rewrite Rabs_R0.
    pose proof (Rabs_pos (ang_vel b)). lra.
  - intro H. cmp. reflexivity.
Qed.

(** X11.  [update] never speeds a body up: the speed after it is at most
    0.985 times the speed before, whatever the walls do, and the angular
    speed at most 0.98 times the one before. *)
Theorem update_never_speeds_up (b : RigidBody) (dt : R) :
  norm (vel (update b dt)) <= 0.985 * norm (vel b)
  /\ Rabs (ang_vel (update b dt)) <= 0.98 * Rabs (ang_vel b).
Proof. split; [apply update_speed | apply update_spin]. Qed.

Lemma run_updates_speed dts : forall b,
  norm (vel (run_updates b dts)) <= 0.985 ^ List.length dts * norm (vel b)
  /\ Rabs (ang_vel (run_updates b dts)) <= 0.98 ^ List.length dts * Rabs (ang_vel b).
Proof.
  unfold run_updates. induction dts as [| dt dts IH]; intro b; cbn [fold_left List.length pow].
  - split; lra.
  - destruct (IH (update b dt)) as (Hv & Hw).
    assert (0 <= 0.985 ^ List.length dts) by (apply pow_le; lra).
    assert (0 <= 0.98 ^ List.length dts) by (apply pow_le; lra).
    pose proof (update_speed b dt). destruct (update_spin b dt) as (Hs & _).
    split.
    + eapply Rle_trans; [exact Hv |]. nra.
    + eapply Rle_trans; [exact Hw |]. nra.
Qed.

Lemma run_updates_keeps_rest dts : forall b,
  (vel b = vzero -> vel (run_updates b dts) = vzero)
  /\ (ang_vel b = 0 -> ang_vel (run_updates b dts) = 0).
Proof.
  unfold run_updates. induction dts as [| dt dts IH]; intro b; cbn [fold_left].
  - split; auto.
  - destruct (IH (update b dt)) as (Hv & Hw). split; intro H.
    + apply Hv. apply update_stops_slow. rewrite H, norm_vzero. lra.
    + apply Hw. apply update_spin. rewrite H, Rabs_R0. lra.
Qed.

Lemma small_power x s y :
  0 <= x < 1 -> 0 <= s -> 0 < y -> exists N, (x ^ N * s < y).
Proof.
  intros Hx Hs Hy.
  destruct (pow_lt_1_zero x) with (y := y / (s + 1)) as (N & HN).
  - rewrite Rabs_pos_eq; lra.
  - apply Rdiv_lt_0_compat; lra.
  - exists N. specialize (HN N (Nat.le_refl N)).
    rewrite Rabs_pos_eq in HN by (apply pow_le; lra).
    assert (Hp : 0 <= x ^ N) by (apply pow_le; lra).
    assert (Hq : x ^ N * (s + 1) < y).
    { apply (Rmult_lt_compat_r (s + 1)) in HN; [| lra].
      unfold Rdiv in HN. rewrite Rmult_assoc, Rinv_l, Rmult_1_r in HN by lra. exact HN. }
    nra.
Qed.

(** X12.  Left to itself, every body comes to rest: there is a number of
    frames after which its velocity and its angular velocity are zero,
    whatever the frame times and however far the run goes on. *)
Theorem update_settles (b : RigidBody) :
  exists N : nat, forall dts : list R,
    (N <= List.length dts)%nat ->
    vel (run_updates b dts) = vzero /\ ang_vel (run_updates b dts) = 0.
Proof.
  destruct (small_power 0.985 (norm (vel b)) 2) as (N1 & H1);
    [lra | apply norm_nonneg | lra |].
  destruct (small_power 0.98 (Rabs (ang_vel b)) 0.1) as (N2 & H2);
    [lra | apply Rabs_pos | lra |].
  exists (S (Nat.max N1 N2)). intros dts Hlen.
  assert (Hgen : forall N (dts' : list R), (S N <= List.length dts')%nat ->
            exists pre dt post, dts' = pre ++ dt :: post /\ List.length pre = N).
  { intros N dts' Hl. exists (firstn N dts').
    destruct (skipn N dts') as [| dt post] eqn:E.
    - exfalso. assert (Hk := length_skipn N dts'). rewrite E in Hk. simpl in Hk. lia.
    - exists dt, post. split.
      + rewrite <- E. symmetry. apply firstn_skipn.
      + rewrite length_firstn. lia. }
  split.
  - destruct (Hgen N1 dts) as (pre & dt & post & -> & Hpre); [lia |].
    unfold run_updates. rewrite fold_left_app. cbn [fold_left].
    apply (run_updates_keeps_rest post). apply update_stops_slow.
    destruct (run_updates_speed pre b) as (Hv & _). unfold run_updates in Hv.
    rewrite Hpre in Hv. pose proof (norm_nonneg (vel (fold_left update pre b))). lra.
  - destruct (Hgen N2 dts) as (pre & dt & post & -> & Hpre); [lia |].
    unfold run_updates. rewrite fold_left_app. cbn [fold_left].
    apply (run_updates_keeps_rest post). apply update_spin.
    destruct (run_updates_speed pre b) as (_ & Hw). unfold run_updates in Hw.
    rewrite Hpre in Hw. pose proof (Rabs_pos (ang_vel (fold_left update pre b))). lra.
Qed.

(** X13.  A body at rest whose centre is within the walls for its size
    is a fixed point of [update]: nothing in it changes. *)
Theorem update_fixes_resting_body (b : RigidBody) (dt : R) :
  vel b = vzero -> ang_vel b = 0 -> inside_table b -> update b dt = b.
Proof.
  intros Hv Hw ((Hx1 & Hx2) & (Hy1 & Hy2)).
  rewrite update_at_rest by assumption. unfold Stages.contain.
  rewrite !contain_axis_fixed by lra.
  destruct b as [[px py] [ux uy] an w m im c sz cue i ii lv]. reflexivity.
Qed.

Lemma update_fixes_resting_body_witness :
  update (resting_ball 300 300 35 false) (1 / 60) = resting_ball 300 300 35 false.
Proof.
  apply (update_fixes_resting_body (resting_ball 300 300 35 false) (1 / 60)).
  - reflexivity.
  - reflexivity.
  - unfold inside_table. cbn [pos size resting_ball vx vy].
    rewrite TABLE_X_val, TABLE_Y_val. unfold TABLE_WIDTH, TABLE_HEIGHT. lra.
Defined.

Lemma update_settles_witness :
  exists N : nat,
    vel (run_updates (moving_ball 300 300 900 (-40) 35) (repeat (1 / 60) N)) = vzero.
Proof.
  destruct (update_settles (moving_ball 300 300 900 (-40) 35)) as (N & H).
  exists N. apply H. rewrite repeat_length. apply Nat.le_refl.
Defined.

(** ** The polygons the constructor makes *)

Lemma cos2_sin2 t : cos t * cos t + sin t * sin t = 1.
Proof. pose proof (sin2_cos2 t) as H. unfold Rsqr in H. lra. Qed.

Lemma norm_rotated t x y :
  norm (mkvec (cos t * x - sin t * y) (sin t * x + cos t * y)) = norm (mkvec x y).
Proof.
  unfold norm. cbn [vx vy]. f_equal.
  replace ((cos t * x - sin t * y) * (cos t * x - sin t * y)
           + (sin t * x + cos t * y) * (sin t * x + cos t * y))
    with ((cos t * cos t + sin t * sin t) * (x * x + y * y)) by ring.
  rewrite cos2_sin2. ring.
Qed.

Lemma norm_polar r t : norm (mkvec (r * cos t) (r * sin t)) = Rabs r.
Proof.
  unfold norm. cbn [vx vy].
  replace (r * cos t * (r * cos t) + r * sin t * (r * sin t))
    with ((cos t * cos t + sin t * sin t) * (r * r)) by ring.
  rewrite cos2_sin2, Rmult_1_l. fold (Rsqr r). apply sqrt_Rsqr_abs.
Qed.

(** X14.  The constructor makes a polygon with 16 vertices for the cue
    and as many as were drawn otherwise, and wherever the body is put
    and however it is turned, every world vertex lies at the distance
    [|size| / 2] from its centre. *)
Theorem constructed_polygon_on_circle (x y m : R) (c : colour) (shape : string)
    (sz : R) (rnd : nat) (b b' : RigidBody) :
  RigidBody_init x y m c shape sz rnd = Ok b ->
  local_vertices b' = local_vertices b ->
  List.length (get_world_vertices b')
  = (if String.eqb shape "cue" then 16%nat else rnd)
  /\ forall v, In v (get_world_vertices b') -> norm (vsub v (pos b')) = Rabs sz / 2.
Proof.
  unfold RigidBody_init. intros H Hl. injection H as <-. cbn [local_vertices] in Hl.
  unfold get_world_vertices. rewrite Hl. split.
  - rewrite !length_map, length_seq. reflexivity.
  - intros v Hv. apply in_map_iff in Hv. destruct Hv as (l & <- & Hin).
    apply in_map_iff in Hin. destruct Hin as (k & <- & _). cbv zeta.
    replace (vsub _ (pos b'))
      with (mkvec (cos (angle b') * (sz / 2 * cos (2 * PI * INR k
                     / INR (if String.eqb shape "cue" then 16 else rnd)))
                   - sin (angle b') * (sz / 2 * sin (2 * PI * INR k
                     / INR (if String.eqb shape "cue" then 16 else rnd))))
                  (sin (angle b') * (sz / 2 * cos (2 * PI * INR k
                     / INR (if String.eqb shape "cue" then 16 else rnd)))
                   + cos (angle b') * (sz / 2 * sin (2 * PI * INR k
                     / INR (if String.eqb shape "cue" then 16 else rnd)))))
      by (apply vec_eq; cbn [vx vy vsub vadd]; lra).
    rewrite norm_rotated, norm_polar.
    unfold Rdiv. rewrite Rabs_mult, (Rabs_pos_eq (/ 2)) by lra. reflexivity.
Qed.

Lemma constructed_polygon_on_circle_witness :
  List.length (get_world_vertices
                 (mkRigidBody (mkvec 400 250) (mkvec 3 1) 1 0 20 (1 / 20) WHITE 35 false
                    (0.5 * 20 * ((35 / 2) ^ 2)) (1 / (0.5 * 20 * ((35 / 2) ^ 2)))
                    (map (fun k : nat =>
                            mkvec (35 / 2 * cos (2 * PI * INR k / INR 5))
                                  (35 / 2 * sin (2 * PI * INR k / INR 5)))
                         (seq 0 5))))
  = 5%nat.
Proof.
  destruct (constructed_polygon_on_circle 300 300 20 WHITE "poly" 35 5
    (mkRigidBody (mkvec 300 300) (mkvec 0 0) 0 0 20 (if Rgtb 20 0 then 1 / 20 else 0)
       WHITE 35 false (0.5 * 20 * ((35 / 2) ^ 2))
       (if Rgtb (0.5 * 20 * ((35 / 2) ^ 2)) 0
        then 1 / (0.5 * 20 * ((35 / 2) ^ 2)) else 0)
       (map (fun k : nat =>
               mkvec (35 / 2 * cos (2 * PI * INR k / INR 5))
                     (35 / 2 * sin (2 * PI * INR k / INR 5)))
            (seq 0 5)))
    (mkRigidBody (mkvec 400 250) (mkvec 3 1) 1 0 20 (1 / 20) WHITE 35 false
       (0.5 * 20 * ((35 / 2) ^ 2)) (1 / (0.5 * 20 * ((35 / 2) ^ 2)))
       (map (fun k : nat =>
               mkvec (35 / 2 * cos (2 * PI * INR k / INR 5))
                     (35 / 2 * sin (2 * PI * INR k / INR 5)))
            (seq 0 5)))
    eq_refl eq_refl) as (H & _).
  exact H.
Defined.

Lemma RigidBody_init_shaped x y m c shape sz rnd b :
  RigidBody_init x y m c shape sz rnd = Ok b ->
  sz <> 0 -> (String.eqb shape "cue" = true \/ (2 <= rnd)%nat) -> shaped b.
Proof.
  unfold RigidBody_init. intros H Hsz Hsides. injection H as <-.
  unfold shaped. cbn [local_vertices].
  set (sides := if String.eqb shape "cue" then 16%nat else rnd).
  assert (H2 : (2 <= sides)%nat).
  { unfold sides. destruct Hsides as [-> | Hr]; [lia |].
    destruct (String.eqb shape "cue"); lia. }
  destruct sides as [| [| s]] eqn:Es; try lia.
  cbn [seq map]. cbv zeta.
  intro Heq. apply (f_equal vx) in Heq. cbn [vx] in Heq.
  assert (Hn : 2 <= INR (S (S s))).
  { change 2 with (INR 2). apply le_INR. lia. }
  set (N := INR (S (S s))) in *. clearbody N.
  change (INR 0) with 0 in Heq. change (INR 1) with 1 in Heq.
  replace (2 * PI * 0 / N) with 0 in Heq by (unfold Rdiv; ring).
  rewrite cos_0 in Heq.
  pose proof PI_RGT_0 as Hpi.
  assert (Ht : 0 < 2 * PI * 1 / N <= PI).
  { split.
    - apply Rdiv_lt_0_compat; lra.
    - apply (Rmult_le_reg_r N); [lra |].
      unfold Rdiv. rewrite Rmult_assoc, Rinv_l by lra. nra. }
  assert (Hc : cos (2 * PI * 1 / N) < cos 0).
  { apply cos_decreasing_1; lra. }
  rewrite cos_0 in Hc. nra.
Qed.

Lemma shaped_vertices b : shaped b -> local_vertices b <> [].
Proof. unfold shaped. destruct (local_vertices b); [contradiction | discriminate]. Qed.

Lemma shaped_same_make b b' : same_make b b' -> shaped b -> shaped b'.
Proof.
  intros (_ & _ & _ & _ & _ & _ & Hl & _). unfold shaped. rewrite Hl. auto.
Qed.

(** A polygon whose first edge has two different ends keeps them
    different wherever it is put and however it is turned. *)
Lemma shaped_nondegenerate b : shaped b -> nondegenerate b.
Proof.
  unfold shaped, nondegenerate, get_world_vertices. cbv zeta.
  destruct (local_vertices b) as [| v0 [| v1 rest]]; try contradiction.
  intro Hne. cbn [map]. apply get_axes_leading_edge.
  intro Heq. apply Hne.
  apply (f_equal vx) in Heq as Hx. apply (f_equal vy) in Heq as Hy.
  cbn [vx vy vadd] in Hx, Hy.
  pose proof (cos2_sin2 (angle b)) as Hcs.
  set (cc := cos (angle b)) in *. set (ss := sin (angle b)) in *.
  assert (Hdx : vx v0 - vx v1
                = cc * (cc * (vx v0 - vx v1) - ss * (vy v0 - vy v1))
                  + ss * (ss * (vx v0 - vx v1) + cc * (vy v0 - vy v1))).
  { replace (cc * (cc * (vx v0 - vx v1) - ss * (vy v0 - vy v1))
             + ss * (ss * (vx v0 - vx v1) + cc * (vy v0 - vy v1)))
      with ((cc * cc + ss * ss) * (vx v0 - vx v1)) by ring.
    rewrite Hcs. ring. }
  assert (Hdy : vy v0 - vy v1
                = cc * (ss * (vx v0 - vx v1) + cc * (vy v0 - vy v1))
                  - ss * (cc * (vx v0 - vx v1) - ss * (vy v0 - vy v1))).
  { replace (cc * (ss * (vx v0 - vx v1) + cc * (vy v0 - vy v1))
             - ss * (cc * (vx v0 - vx v1) - ss * (vy v0 - vy v1)))
      with ((cc * cc + ss * ss) * (vy v0 - vy v1)) by ring.
    rewrite Hcs. ring. }
  assert (E1 : cc * (vx v0 - vx v1) - ss * (vy v0 - vy v1) = 0) by lra.
  assert (E2 : ss * (vx v0 - vx v1) + cc * (vy v0 - vy v1) = 0) by lra.
  rewrite E1, E2 in Hdx, Hdy. apply vec_eq; lra.
Qed.

(** X15.  Two bodies made by the constructor with a non-zero size and at
    least two sides can always be tested for collision: wherever they
    have been moved and turned since, [check_collision_sat] returns and
    raises nothing. *)
Theorem constructed_bodies_can_be_tested
    (xa ya ma : R) (ca : colour) (sa : string) (sza : R) (rnda : nat)
    (xb yb mb : R) (cb : colour) (sb : string) (szb : R) (rndb : nat)
    (a0 b0 a b : RigidBody) :
  RigidBody_init xa ya ma ca sa sza rnda = Ok a0 ->
  RigidBody_init xb yb mb cb sb szb rndb = Ok b0 ->
  sza <> 0 -> szb <> 0 ->
  (String.eqb sa "cue" = true \/ (2 <= rnda)%nat) ->
  (String.eqb sb "cue" = true \/ (2 <= rndb)%nat) ->
  same_make a0 a -> same_make b0 b ->
  exists r, check_collision_sat a b = Ok r.
Proof.
  intros Ha Hb Hza Hzb Hsa Hsb Hma Hmb.
  assert (Sa : shaped a)
    by (apply (shaped_same_make a0); [| eapply RigidBody_init_shaped]; eassumption).
  assert (Sb : shaped b)
    by (apply (shaped_same_make b0); [| eapply RigidBody_init_shaped]; eassumption).
  destruct (check_collision_sat_outcomes a b) as (_ & _ & Hok). cbv zeta in Hok.
  apply Hok.
  - intro E. apply app_eq_nil in E. destruct E as (E & _).
    exact (shaped_nondegenerate a Sa E).
  - apply nondegenerate_vertices, shaped_nondegenerate, Sa.
  - apply nondegenerate_vertices, shaped_nondegenerate, Sb.
Qed.

Lemma same_make_refl b : same_make b b.
Proof. unfold same_make. repeat split. Qed.

Lemma same_make_trans b1 b2 b3 : same_make b1 b2 -> same_make b2 b3 -> same_make b1 b3.
Proof.
  unfold same_make.
  intros (A1 & A2 & A3 & A4 & A5 & A6 & A7 & A8) (B1 & B2 & B3 & B4 & B5 & B6 & B7 & B8).
  repeat split; congruence.
Qed.

Lemma constructed_bodies_can_be_tested_witness :
  exists a b,
    RigidBody_init 300 300 20 WHITE "cue" 35 0 = Ok a
    /\ RigidBody_init 700 300 20 (120, 80, 200)%nat "poly" 35 3 = Ok b
    /\ exists r, check_collision_sat a b = Ok r.
Proof.
  eexists. eexists. split; [reflexivity |]. split; [reflexivity |].
  eapply (constructed_bodies_can_be_tested
            300 300 20 WHITE "cue" 35 0 700 300 20 (120, 80, 200)%nat "poly" 35 3).
  - reflexivity.
  - reflexivity.
  - lra.
  - lra.
  - left. reflexivity.
  - right. lia.
  - apply same_make_refl.
  - apply same_make_refl.
Defined.

(** ** The frame as a whole *)

Lemma update_same_make b dt : same_make b (update b dt).
Proof.
  destruct (update_frame b dt) as (A1 & A2 & A3 & A4 & A5 & A6 & A7 & A8).
  unfold same_make. repeat split; assumption.
Qed.

Lemma scanned_body_same_make b dt : same_make b (scanned_body b dt).
Proof.
  unfold scanned_body. cbv zeta. destruct (_ && _).
  - apply (same_make_trans _ (update b dt)); [apply update_same_make |].
    unfold same_make. cbn. repeat split.
  - apply update_same_make.
Qed.

Lemma resolve_collision_result a b n d :
  same_make a (res_a (resolve_collision a b n d))
  /\ same_make b (res_b (resolve_collision a b n d))
  /\ (local_vertices a <> [] -> local_vertices b <> [] ->
      res_exn (resolve_collision a b n d) = None).
Proof.
  destruct (resolve_collision_cases a b n d)
    as [(_ & Hr) | [(_ & Hv & Hr) | (_ & _ & _ & c & vn & _ & _ & _ & Hr)]];
    cbv zeta in *.
  - rewrite Hr. unfold same_make. cbn. repeat split.
  - rewrite Hr. unfold same_make. cbn. repeat split.
    intros Ha Hb. destruct Hv; contradiction.
  - destruct Hr as [(_ & Hr) | (_ & Hr)]; rewrite Hr; unfold same_make; cbn;
      repeat split.
Qed.

Lemma collide_row_safe js : forall h i,
  shaped (h i) -> (forall j, In j js -> shaped (h j)) ->
  snd (collide_row h i js) = None
  /\ forall r, same_make (h r) (fst (collide_row h i js) r).
Proof.
  induction js as [| j rest IH]; intros h i Hi Hjs; cbn [collide_row].
  - split; [reflexivity | intro r; apply same_make_refl].
  - assert (Hj : shaped (h j)) by (apply Hjs; left; reflexivity).
    destruct (check_collision_sat (h i) (h j)) as [[[is_col nrm] depth] | e] eqn:Ec.
    2: { exfalso.
         destruct (check_collision_sat_outcomes (h i) (h j)) as (_ & _ & Hok).
         cbv zeta in Hok. destruct Hok as (r & Hr).
         - intro E. apply app_eq_nil in E. destruct E as (E & _).
           exact (shaped_nondegenerate _ Hi E).
         - apply nondegenerate_vertices, shaped_nondegenerate, Hi.
         - apply nondegenerate_vertices, shaped_nondegenerate, Hj.
         - congruence. }
    destruct is_col.
    + destruct (check_collision_sat_true _ _ _ _ Ec) as (v & d & -> & ->).
      destruct (resolve_collision_result (h i) (h j) v d) as (Sa & Sb & He).
      specialize (He (shaped_vertices _ Hi) (shaped_vertices _ Hj)).
      destruct (resolve_collision (h i) (h j) v d) as [[a' b'] e].
      cbn [res_a res_b res_exn fst snd] in *. subst e.
      set (h' := put (put h i a') j b').
      assert (Hsm : forall r, same_make (h r) (h' r)).
      { intro r. unfold h', put.
        destruct (Nat.eqb r j) eqn:Erj.
        - apply Nat.eqb_eq in Erj. subst r. exact Sb.
        - destruct (Nat.eqb r i) eqn:Eri.
          + apply Nat.eqb_eq in Eri. subst r. exact Sa.
          + apply same_make_refl. }
      destruct (IH h' i) as (Hn & Hall).
      * apply (shaped_same_make (h i)); [apply Hsm | exact Hi].
      * intros k Hk. apply (shaped_same_make (h k)); [apply Hsm |].
        apply Hjs. right. exact Hk.
      * split; [exact Hn |]. intro r.
        apply (same_make_trans _ (h' r)); [apply Hsm | apply Hall].
    + apply IH; [exact Hi |]. intros k Hk. apply Hjs. right. exact Hk.
Qed.

Lemma collide_all_safe l : forall h,
  (forall r, In r l -> shaped (h r)) ->
  snd (collide_all h l) = None
  /\ forall r, same_make (h r) (fst (collide_all h l) r).
Proof.
  induction l as [| i rest IH]; intros h Hl; cbn [collide_all].
  - split; [reflexivity | intro r; apply same_make_refl].
  - destruct (collide_row_safe rest h i) as (Hn & Hsm).
    + apply Hl. left. reflexivity.
    + intros j Hj. apply Hl. right. exact Hj.
    + destruct (collide_row h i rest) as [h' e]. cbn [fst snd] in *. subst e.
      destruct (IH h') as (Hn' & Hsm').
      * intros r Hr. apply (shaped_same_make (h r)); [apply Hsm |].
        apply Hl. right. exact Hr.
      * split; [exact Hn' |]. intro r.
        apply (same_make_trans _ (h' r)); [apply Hsm | apply Hsm'].
Qed.

Lemma pocket_pass_same_make w dt :
  NoDup (balls w) -> forall r, same_make (heap w r) (heap (pocket_pass w dt) r).
Proof.
  intros Hnd r. unfold pocket_pass.
  destruct (pocket_scan_spec dt (balls w) (heap w) [] Hnd) as (Hh & _).
  destruct (pocket_scan (heap w) (balls w) dt get_pockets []) as [h q].
  cbn [fst heap] in *. rewrite Hh.
  destruct (py_in r (balls w)); [apply scanned_body_same_make | apply same_make_refl].
Qed.

Lemma step_safe (w : world) (dt : R) :
  world_ok w ->
  snd (step w dt) = None
  /\ world_ok (fst (step w dt))
  /\ (forall r, In r (balls (fst (step w dt))) -> In r (balls w))
  /\ (forall r, same_make (heap w r) (heap (fst (step w dt)) r)).
Proof.
  intros (Hnd & Hsh).
  destruct (pocket_pass_spec w dt Hnd) as (Hb & _).
  pose proof (pocket_pass_same_make w dt Hnd) as Hsm.
  assert (Hsub : forall r, In r (balls (pocket_pass w dt)) -> In r (balls w)).
  { intros r Hr. rewrite Hb in Hr. apply filter_In in Hr. tauto. }
  assert (Hsh1 : forall r, In r (balls (pocket_pass w dt)) ->
                           shaped (heap (pocket_pass w dt) r)).
  { intros r Hr. apply (shaped_same_make (heap w r)); [apply Hsm | apply Hsh, Hsub, Hr]. }
  destruct (collide_all_safe (balls (pocket_pass w dt)) (heap (pocket_pass w dt)) Hsh1)
    as (Hn & Hsm2).
  unfold step.
  destruct (collide_all (heap (pocket_pass w dt)) (balls (pocket_pass w dt))) as [h e].
  cbn [fst snd balls heap] in *.
  split; [exact Hn |]. split; [split |]; [| | split].
  - rewrite Hb. apply NoDup_filter, Hnd.
  - intros r Hr. apply (shaped_same_make (heap (pocket_pass w dt) r));
      [apply Hsm2 | apply Hsh1, Hr].
  - exact Hsub.
  - intro r. apply (same_make_trans _ (heap (pocket_pass w dt) r));
      [apply Hsm | apply Hsm2].
Qed.

(** X16.  On a collection without repeated references whose bodies all
    have a polygon with a proper first edge, the physics of a frame
    raises no exception, and the collection it leaves is again of that
    kind, so that the next frame is safe as well.  It never adds a body
    and never changes what the constructor fixed in one. *)
Theorem step_is_safe (w : world) (dt : R) :
  world_ok w ->
  snd (step w dt) = None
  /\ world_ok (fst (step w dt))
  /\ (forall r, In r (balls (fst (step w dt))) -> In r (balls w))
  /\ (forall r, same_make (heap w r) (heap (fst (step w dt)) r)).
Proof. exact (step_safe w dt). Qed.

Lemma resting_ball_shaped x y sz cue : sz <> 0 -> shaped (resting_ball x y sz cue).
Proof.
  intro H. unfold shaped, resting_ball. cbn [local_vertices].
  intro Heq. apply (f_equal vx) in Heq. cbn [vx] in Heq. lra.
Qed.

Lemma pocket_world_ok : world_ok pocket_world.
Proof.
  split.
  - repeat constructor; simpl; intuition discriminate.
  - intros r Hr. unfold pocket_world. cbn [heap].
    destruct (Nat.eqb r 0); apply resting_ball_shaped; lra.
Qed.

Lemma step_is_safe_witness : snd (step pocket_world (1 / 60)) = None.
Proof.
  destruct (step_is_safe pocket_world (1 / 60) pocket_world_ok) as (H & _).
  exact H.
Defined.

(** X17.  The pocket pass never removes the cue body, and never a body
    that is in no pocket when the scan tests it; what it removes are the
    bodies that are not the cue and lie within the capture radius of a
    pocket after their update.  This holds to the end of the frame. *)
Theorem step_keeps_cue (w : world) (dt : R) (k : ref) :
  NoDup (balls w) -> In k (balls w) ->
  (is_cue (heap w k) = true -> In k (balls (fst (step w dt))))
  /\ (check_pocket_fall (update (heap w k) dt) get_pockets = false ->
      In k (balls (fst (step w dt))))
  /\ (In k (balls (fst (step w dt)))
      <-> is_cue (heap w k) = true
          \/ check_pocket_fall (update (heap w k) dt) get_pockets = false).
Proof.
  intros Hnd Hin.
  destruct (pocket_pass_spec w dt Hnd) as (Hb & _).
  destruct (update_frame (heap w k) dt) as (_ & _ & _ & Hcue & _).
  rewrite step_balls, Hb.
  assert (Hiff : In k (filter (fun r => negb (captured (heap w r) dt)) (balls w))
                 <-> is_cue (heap w k) = true
                     \/ check_pocket_fall (update (heap w k) dt) get_pockets = false).
  { rewrite filter_In. unfold captured. rewrite Hcue.
    destruct (check_pocket_fall _ _); destruct (is_cue (heap w k)); cbn;
      intuition congruence. }
  split; [| split].
  - intro H. apply Hiff. left. exact H.
  - intro H. apply Hiff. right. exact H.
  - exact Hiff.
Qed.

Lemma step_keeps_cue_witness :
  In 0%nat (balls (fst (step pocket_world (1 / 60)))).
Proof.
  destruct (step_keeps_cue pocket_world (1 / 60) 0%nat) as (H & _).
  - repeat constructor; simpl; intuition discriminate.
  - left. reflexivity.
  - apply H. reflexivity.
Defined.

(** ** The start of a game *)

Lemma RigidBody_init_fields x y m c shape sz rnd b :
  RigidBody_init x y m c shape sz rnd = Ok b ->
  pos b = mkvec x y /\ vel b = vzero /\ ang_vel b = 0 /\ angle b = 0
  /\ mass b = m /\ size b = sz /\ is_cue b = String.eqb shape "cue".
Proof.
  unfold RigidBody_init. intro H. injection H as <-. cbn. repeat split.
Qed.

(** What [init_game] promises of one body. *)
Lemma init_rack_spec rnd places : forall balls,
  exists made,
    init_rack rnd places balls = Ok (balls ++ made)
    /\ Forall2
         (fun (p : nat * nat) b =>
            RigidBody_init (TABLE_X + 600 + INR (fst p) * 38)
              (TABLE_Y + TABLE_HEIGHT / 2 + INR (snd p) * 38 - INR (fst p) * 19)
              20 (snd (rnd (fst p) (snd p))) "poly" 35 (fst (rnd (fst p) (snd p)))
            = Ok b)
         places made.
Proof.
  induction places as [| [i j] rest IH]; intro balls; cbn [init_rack].
  - exists []. rewrite app_nil_r. split; [reflexivity | constructor].
  - cbv zeta.
    destruct (RigidBody_init (TABLE_X + 600 + INR i * 38)
                (TABLE_Y + TABLE_HEIGHT / 2 + INR j * 38 - INR i * 19)
                20 (snd (rnd i j)) "poly" 35 (fst (rnd i j))) as [b | e] eqn:Eb;
      [| discriminate].
    cbn [bind]. destruct (IH (balls ++ [b])) as (made & Hm & Hf).
    exists (b :: made). split.
    + rewrite Hm, <- app_assoc. reflexivity.
    + constructor; [exact Eb | exact Hf].
Qed.

Lemma Forall2_Forall {A B} (R : A -> B -> Prop) (P : B -> Prop) l l' :
  Forall2 R l l' -> (forall a b, In a l -> R a b -> P b) -> Forall P l'.
Proof.
  induction 1 as [| a b l l' Hab Hl IH]; intro H; constructor.
  - apply (H a); [left; reflexivity | exact Hab].
  - apply IH. intros a' b' Ha'. apply H. right. exact Ha'.
Qed.

Lemma rack_places_bounds i j :
  In (i, j) (flat_map (fun i => map (fun j => (i, j)) (seq 0 (i + 1))) (seq 0 5)) ->
  (i <= 4)%nat /\ (j <= i)%nat.
Proof.
  intro H. apply in_flat_map in H. destruct H as (i' & Hi & Hj).
  apply in_map_iff in Hj. destruct Hj as (j' & Heq & Hj).
  injection Heq as <- <-. apply in_seq in Hi. apply in_seq in Hj. lia.
Qed.

Lemma init_game_spec (rnd : nat -> nat -> nat * colour) :
  (forall i j, (3 <= fst (rnd i j) <= 6)%nat) ->
  exists cue targets,
    init_game rnd = Ok (cue :: targets)
    /\ List.length targets = 15%nat
    /\ is_cue cue = true /\ pos cue = spawn
    /\ Forall (fun b => is_cue b = false) targets
    /\ Forall (fun b => mass b = 20 /\ size b = 35 /\ vel b = vzero /\ ang_vel b = 0
                        /\ inside_table b /\ consistent b /\ shaped b)
         (cue :: targets)
    /\ world_ok (world_of (cue :: targets)).
Proof.
  intro Hrnd. unfold init_game.
  destruct (RigidBody_init (TABLE_X + 200) (TABLE_Y + TABLE_HEIGHT / 2) 20 WHITE
              "cue" 35 0) as [cue | e] eqn:Ec; [| discriminate].
  cbn [bind].
  set (places := flat_map (fun i => map (fun j => (i, j)) (seq 0 (i + 1))) (seq 0 5)).
  destruct (init_rack_spec rnd places [cue]) as (targets & Hr & Hf).
  exists cue, targets. rewrite Hr.
  destruct (RigidBody_init_fields _ _ _ _ _ _ _ _ Ec)
    as (Cp & Cv & Cw & _ & Cm & Cs & Cc).
  assert (Hlen : List.length targets = 15%nat).
  { rewrite <- (Forall2_length Hf). reflexivity. }
  assert (Hcue_ok : mass cue = 20 /\ size cue = 35 /\ vel cue = vzero /\ ang_vel cue = 0
                    /\ inside_table cue /\ consistent cue /\ shaped cue).
  { repeat split; try assumption.
    - rewrite Cp, Cs. cbn [vx]. rewrite TABLE_X_val. lra.
    - rewrite Cp, Cs. cbn [vx]. rewrite TABLE_X_val. unfold TABLE_WIDTH. lra.
    - rewrite Cp, Cs. cbn [vy]. rewrite TABLE_Y_val. unfold TABLE_HEIGHT. lra.
    - rewrite Cp, Cs. cbn [vy]. rewrite TABLE_Y_val. unfold TABLE_HEIGHT. lra.
    - eapply RigidBody_init_consistent. exact Ec.
    - eapply RigidBody_init_consistent. exact Ec.
    - eapply RigidBody_init_consistent. exact Ec.
    - eapply RigidBody_init_shaped; [exact Ec | lra | left; reflexivity]. }
  assert (Htargets : Forall (fun b => is_cue b = false
                       /\ (mass b = 20 /\ size b = 35 /\ vel b = vzero /\ ang_vel b = 0
                           /\ inside_table b /\ consistent b /\ shaped b)) targets).
  { apply (Forall2_Forall _ _ _ _ Hf). intros [i j] b Hin Hb. cbn [fst snd] in Hb.
    destruct (rack_places_bounds i j Hin) as (Hi & Hj).
    destruct (RigidBody_init_fields _ _ _ _ _ _ _ _ Hb)
      as (Bp & Bv & Bw & _ & Bm & Bs & Bc).
    assert (Ii : 0 <= INR i <= 4).
    { split; [apply pos_INR |]. replace 4 with (INR 4) by (simpl; lra). apply le_INR, Hi. }
    assert (Ij : 0 <= INR j <= INR i).
    { split; [apply pos_INR | apply le_INR, Hj]. }
    split; [exact Bc |]. repeat split; try assumption.
    - rewrite Bp, Bs. cbn [vx]. rewrite TABLE_X_val. lra.
    - rewrite Bp, Bs. cbn [vx]. rewrite TABLE_X_val. unfold TABLE_WIDTH. lra.
    - rewrite Bp, Bs. cbn [vy]. rewrite TABLE_Y_val. unfold TABLE_HEIGHT. lra.
    - rewrite Bp, Bs. cbn [vy]. rewrite TABLE_Y_val. unfold TABLE_HEIGHT. lra.
    - eapply RigidBody_init_consistent. exact Hb.
    - eapply RigidBody_init_consistent. exact Hb.
    - eapply RigidBody_init_consistent. exact Hb.
    - eapply RigidBody_init_shaped; [exact Hb | lra |].
      right. specialize (Hrnd i j). lia. }
  assert (Hall : Forall (fun b => mass b = 20 /\ size b = 35 /\ vel b = vzero
                                  /\ ang_vel b = 0 /\ inside_table b /\ consistent b
                                  /\ shaped b) (cue :: targets)).
  { constructor; [exact Hcue_ok |].
    eapply Forall_impl; [| exact Htargets]. intros b (_ & H). exact H. }
  split; [reflexivity |]. split; [exact Hlen |].
  split; [rewrite Cc; reflexivity |].
  split; [rewrite Cp; reflexivity |].
  split; [eapply Forall_impl; [| exact Htargets]; intros b (H & _); exact H |].
  split; [exact Hall |].
  unfold world_ok, world_of. cbn [balls heap]. split.
  - apply seq_NoDup.
  - intros r Hr'. apply in_seq in Hr'.
    assert (Hin : In (nth r (cue :: targets) no_body) (cue :: targets))
      by (apply nth_In; lia).
    rewrite Forall_forall in Hall. apply Hall in Hin. tauto.
Qed.

(** X18.  Whatever the draws (with three to six sides, as
    [random.randint(3, 6)] gives), [init_game] returns sixteen bodies:
    the cue first, on the spawn point, then fifteen bodies that are not
    the cue.  All have mass 20 and size 35, are at rest with their
    centres within the walls, have the derived fields the constructor
    computes, and form a collection on which the physics of a frame
    raises nothing. *)
Theorem init_game_rack (rnd : nat -> nat -> nat * colour) :
  (forall i j, (3 <= fst (rnd i j) <= 6)%nat) ->
  exists cue targets,
    init_game rnd = Ok (cue :: targets)
    /\ List.length targets = 15%nat
    /\ is_cue cue = true /\ pos cue = spawn
    /\ Forall (fun b => is_cue b = false) targets
    /\ Forall (fun b => mass b = 20 /\ size b = 35 /\ vel b = vzero /\ ang_vel b = 0
                        /\ inside_table b /\ consistent b /\ shaped b)
         (cue :: targets)
    /\ world_ok (world_of (cue :: targets)).
Proof. exact (init_game_spec rnd). Qed.

Lemma init_game_rack_witness :
  exists cue targets,
    init_game (fun i j => (3 + (i + j) mod 4, (60 + i, 70 + j, 80))%nat)
    = Ok (cue :: targets)
    /\ List.length targets = 15%nat.
Proof.
  destruct (init_game_rack (fun i j => (3 + (i + j) mod 4, (60 + i, 70 + j, 80))%nat))
    as (cue & targets & H & Hl & _).
  - intros i j. cbn [fst].
    pose proof (Nat.mod_upper_bound (i + j) 4). lia.
  - exists cue, targets. split; assumption.
Defined.

(** ** The events of a frame *)

Lemma init_game_returns rnd : exists l, init_game rnd = Ok l.
Proof.
  unfold init_game.
  destruct (RigidBody_init _ _ 20 WHITE "cue" 35 0) as [cue | e] eqn:Ec;
    [| discriminate].
  cbn [bind]. destruct (init_rack_spec rnd
    (flat_map (fun i => map (fun j => (i, j)) (seq 0 (i + 1))) (seq 0 5)) [cue])
    as (made & Hm & _).
  eexists. exact Hm.
Qed.

Lemma handle_event_ok rnd mouse_pos s ev :
  ui_ok s -> exists s', handle_event rnd mouse_pos s ev = Ok s' /\ ui_ok s'.
Proof.
  unfold ui_ok. intro Hok.
  destruct ev as [| button | button |]; cbn [handle_event].
  - eexists. split; [reflexivity |]. exact Hok.
  - destruct (button =? 1)%Z; [| eexists; split; [reflexivity | exact Hok]].
    destruct (collidepoint btn_menu_rect mouse_pos);
      [eexists; split; [reflexivity | exact Hok] |].
    destruct (show_menu s).
    + destruct (collidepoint btn_reset_rect mouse_pos).
      * destruct (init_game_returns rnd) as (l & ->). cbn [bind].
        eexists. split; [reflexivity | exact Hok].
      * destruct (collidepoint btn_quit_rect mouse_pos);
          eexists; (split; [reflexivity | exact Hok]).
    + destruct (negb false && _); [| eexists; split; [reflexivity | exact Hok]].
      destruct (Rltb _ 5); eexists; (split; [reflexivity |]).
      * cbn. discriminate.
      * exact Hok.
  - destruct (button =? 1)%Z; cbn [andb];
      [| eexists; split; [reflexivity | exact Hok]].
    destruct (is_dragging s) eqn:Ed;
      [| eexists; split; [reflexivity | intro; congruence]].
    destruct (start_drag s) as [sd |] eqn:Es.
    + eexists. split; [reflexivity |]. cbn. discriminate.
    + exfalso. exact (Hok eq_refl eq_refl).
  - eexists. split; [reflexivity | exact Hok].
Qed.

(** X19.  The events of a frame never raise: from a state in which a drag
    under way has its starting point recorded (as in the state [main]
    starts in, where no drag is under way), every list of events is
    handled to the end and leaves a state of that kind, so the release
    of the button never meets a [start_drag] that is [None]. *)
Theorem handle_events_never_raise (rnd : nat -> nat -> nat * colour)
    (mouse_pos : Z * Z) (evs : list event) :
  forall s, ui_ok s ->
  exists s', handle_events rnd mouse_pos s evs = Ok s' /\ ui_ok s'.
Proof.
  induction evs as [| ev rest IH]; intros s Hok; cbn [handle_events].
  - exists s. split; [reflexivity | exact Hok].
  - destruct (handle_event_ok rnd mouse_pos s ev Hok) as (s1 & -> & Hok1).
    cbn [bind]. apply IH. exact Hok1.
Qed.

Lemma handle_events_never_raise_witness :
  exists s',
    handle_events (fun _ _ => (3%nat, WHITE)) (400, 300)%Z
      (mkui pocket_world 0%nat false None false true)
      [MOUSEBUTTONDOWN 1; OtherEvent; MOUSEBUTTONUP 1; QUIT] = Ok s'.
Proof.
  destruct (handle_events_never_raise (fun _ _ => (3%nat, WHITE)) (400, 300)%Z
              [MOUSEBUTTONDOWN 1; OtherEvent; MOUSEBUTTONUP 1; QUIT]
              (mkui pocket_world 0%nat false None false true)) as (s' & H & _).
  - unfold ui_ok. cbn. discriminate.
  - exists s'. exact H.
Defined.

(** X20.  A drag begins only on a press of button 1 outside the menu
    button, with the menu closed, more than one body in the collection
    and the cue slower than 5; it records the mouse position as its
    start and changes neither the collection nor any body. *)
Theorem drag_begins_only_at_rest (rnd : nat -> nat -> nat * colour)
    (mouse_pos : Z * Z) (s s' : ui) (ev : event) :
  handle_event rnd mouse_pos s ev = Ok s' ->
  is_dragging s = false -> is_dragging s' = true ->
  ev = MOUSEBUTTONDOWN 1
  /\ collidepoint btn_menu_rect mouse_pos = false
  /\ show_menu s = false
  /\ (1 < List.length (balls (game s)))%nat
  /\ norm (vel (heap (game s) (cue_ball s))) < 5
  /\ start_drag s' = Some mouse_pos
  /\ game s' = game s /\ cue_ball s' = cue_ball s.
Proof.
  intros H Hd Hd'.
  destruct ev as [| button | button |]; cbn [handle_event] in H.
  - injection H as <-. cbn in Hd'. congruence.
  - destruct (button =? 1)%Z eqn:Eb; [| injection H as <-; congruence].
    apply Z.eqb_eq in Eb. subst button.
    destruct (collidepoint btn_menu_rect mouse_pos);
      [injection H as <-; cbn in Hd'; congruence |].
    destruct (show_menu s) eqn:Em.
    + destruct (collidepoint btn_reset_rect mouse_pos).
      * destruct (init_game rnd); cbn [bind] in H; [| discriminate].
        injection H as <-. cbn in Hd'. congruence.
      * destruct (collidepoint btn_quit_rect mouse_pos);
          injection H as <-; cbn in Hd'; congruence.
    + cbn [negb andb] in H.
      destruct (1 <? List.length (balls (game s)))%nat eqn:El;
        [| injection H as <-; congruence].
      destruct (Rltb _ 5) eqn:Ev; [| injection H as <-; congruence].
      injection H as <-. apply Nat.ltb_lt in El. apply Rltb_lt in Ev.
      cbn. repeat split; assumption.
  - destruct ((button =? 1)%Z && is_dragging s); [| injection H as <-; congruence].
    destruct (start_drag s); [| discriminate].
    injection H as <-. cbn in Hd'. discriminate.
  - injection H as <-. congruence.
Qed.

Lemma drag_begins_only_at_rest_witness :
  norm (vel (heap pocket_world 0%nat)) < 5.
Proof.
  destruct (drag_begins_only_at_rest (fun _ _ => (3%nat, WHITE)) (400, 300)%Z
              (mkui pocket_world 0%nat false None false true)
              (mkui pocket_world 0%nat true (Some (400, 300)%Z) false true)
              (MOUSEBUTTONDOWN 1)) as (_ & _ & _ & _ & H & _).
  - cbn [handle_event]. 
    change (1 =? 1)%Z with true. cbn [collidepoint].
    change (collidepoint btn_menu_rect (400, 300)%Z) with false.
    cbn -[Rltb norm]. change (mkvec 0 0) with vzero. rewrite norm_vzero. cmp.
    reflexivity.
  - reflexivity.
  - reflexivity.
  - exact H.
Defined.

Lemma strike_speed cue sd ed : norm (vel (strike cue sd ed)) <= 1500.
Proof.
  destruct (Rle_dec (norm (vsub sd ed)) 300) as [Hle | Hgt].
  - rewrite strike_vel_small by assumption.
    rewrite norm_vscale, Rabs_pos_eq by lra. lra.
  - apply Rnot_le_lt in Hgt. rewrite strike_vel_large by assumption.
    rewrite !norm_vscale, norm_normalised by lra.
    rewrite !Rabs_pos_eq by lra. lra.
Qed.

Lemma strike_same_make cue sd ed : same_make cue (strike cue sd ed).
Proof. unfold strike, same_make. cbn. repeat split. Qed.

(** X21.  The release of button 1 during a drag ends the drag and gives
    the cue body a velocity of at most 1500 without moving it; it
    leaves every other body and the collection as they were.  A release
    while no drag is under way changes nothing. *)
Theorem release_strikes_cue_only (rnd : nat -> nat -> nat * colour)
    (mouse_pos : Z * Z) (s : ui) :
  (is_dragging s = true -> ui_ok s ->
     exists s',
       handle_event rnd mouse_pos s (MOUSEBUTTONUP 1) = Ok s'
       /\ is_dragging s' = false
       /\ balls (game s') = balls (game s)
       /\ norm (vel (heap (game s') (cue_ball s))) <= 1500
       /\ pos (heap (game s') (cue_ball s)) = pos (heap (game s) (cue_ball s))
       /\ forall r, r <> cue_ball s -> heap (game s') r = heap (game s) r)
  /\ (is_dragging s = false ->
      forall button, handle_event rnd mouse_pos s (MOUSEBUTTONUP button) = Ok s).
Proof.
  split.
  - intros Hd Hok. cbn [handle_event]. change (1 =? 1)%Z with true. rewrite Hd.
    cbn [andb]. destruct (start_drag s) as [sd |] eqn:Es.
    + eexists. split; [reflexivity |]. cbn [is_dragging game balls heap].
      rewrite put_same. repeat split.
      * apply strike_speed.
      * intros r Hr. apply put_other. exact Hr.
    + exfalso. exact (Hok Hd Es).
  - intros Hd button. cbn [handle_event]. rewrite Hd, andb_false_r. reflexivity.
Qed.

Lemma release_strikes_cue_only_witness :
  handle_event (fun _ _ => (3%nat, WHITE)) (400, 300)%Z
    (mkui pocket_world 0%nat false None false true) (MOUSEBUTTONUP 1)
  = Ok (mkui pocket_world 0%nat false None false true).
Proof.
  destruct (release_strikes_cue_only (fun _ _ => (3%nat, WHITE)) (400, 300)%Z
              (mkui pocket_world 0%nat false None false true)) as (_ & H).
  apply H. reflexivity.
Defined.

(** ** The main loop *)

Lemma handle_event_world_ok rnd mouse_pos s ev s' :
  fair rnd -> world_ok (game s) ->
  handle_event rnd mouse_pos s ev = Ok s' -> world_ok (game s').
Proof.
  intros Hf Hw H.
  destruct ev as [| button | button |]; cbn [handle_event] in H.
  - injection H as <-. exact Hw.
  - destruct (button =? 1)%Z; [| injection H as <-; exact Hw].
    destruct (collidepoint btn_menu_rect mouse_pos); [injection H as <-; exact Hw |].
    destruct (show_menu s).
    + destruct (collidepoint btn_reset_rect mouse_pos).
      * destruct (init_game_spec rnd Hf) as (cue & targets & Hi & _ & _ & _ & _ & _ & Hok).
        rewrite Hi in H. cbn [bind] in H. injection H as <-. exact Hok.
      * destruct (collidepoint btn_quit_rect mouse_pos); injection H as <-; exact Hw.
    + destruct (negb false && _); [| injection H as <-; exact Hw].
      destruct (Rltb _ 5); injection H as <-; exact Hw.
  - destruct ((button =? 1)%Z && is_dragging s); [| injection H as <-; exact Hw].
    destruct (start_drag s) as [sd |]; [| discriminate].
    injection H as <-. cbn [game]. destruct Hw as (Hnd & Hsh).
    split; [exact Hnd |]. cbn [balls heap]. intros r Hr. unfold put.
    destruct (Nat.eqb r (cue_ball s)) eqn:E.
    + apply Nat.eqb_eq in E. subst r.
      apply (shaped_same_make (heap (game s) (cue_ball s)));
        [apply strike_same_make | apply Hsh, Hr].
    + apply Hsh, Hr.
  - injection H as <-. exact Hw.
Qed.

Lemma handle_events_ok rnd mouse_pos evs : forall s,
  fair rnd -> ui_ok s -> world_ok (game s) ->
  exists s', handle_events rnd mouse_pos s evs = Ok s'
             /\ ui_ok s' /\ world_ok (game s').
Proof.
  induction evs as [| ev rest IH]; intros s Hf Hu Hw; cbn [handle_events].
  - exists s. split; [reflexivity | split; assumption].
  - destruct (handle_event_ok rnd mouse_pos s ev Hu) as (s1 & H1 & Hu1).
    pose proof (handle_event_world_ok _ _ _ _ _ Hf Hw H1) as Hw1.
    rewrite H1. cbn [bind]. apply IH; assumption.
Qed.

Lemma frame_ok s f :
  fair (f_rnd f) -> ui_ok s -> world_ok (game s) ->
  exists s', frame s f = Ok s' /\ ui_ok s' /\ world_ok (game s').
Proof.
  intros Hf Hu Hw. unfold frame.
  destruct (handle_events_ok (f_rnd f) (f_mouse f) (f_events f) s Hf Hu Hw)
    as (s1 & -> & Hu1 & Hw1).
  cbn [bind].
  destruct (step_safe (game s1) (f_dt f) Hw1) as (Hn & Hok & _).
  destruct (step (game s1) (f_dt f)) as [w e]. cbn [fst snd] in *. subst e.
  eexists. split; [reflexivity |]. split; [exact Hu1 | exact Hok].
Qed.

(** X22.  The program never raises in its events and its physics: for
    every first deal and every run of frames, with whatever mouse
    positions, frame times, events and draws (three to six sides), [main]
    handles every frame to the end of the run or to the frame after
    which [running] is false. *)
Theorem main_never_raises (rnd : nat -> nat -> nat * colour)
    (frames : list frame_input) :
  fair rnd -> Forall (fun f => fair (f_rnd f)) frames ->
  exists s, main rnd frames = Ok s /\ ui_ok s /\ world_ok (game s).
Proof.
  intros Hf Hfs. unfold main.
  destruct (init_game_spec rnd Hf) as (cue & targets & -> & _ & _ & _ & _ & _ & Hw).
  cbn [bind].
  set (s0 := mkui (world_of (cue :: targets)) 0%nat false None false true).
  assert (Hu : ui_ok s0) by (unfold ui_ok; cbn; discriminate).
  assert (Hw0 : world_ok (game s0)) by exact Hw.
  clearbody s0. clear Hw. revert s0 Hu Hw0.
  induction Hfs as [| f rest Hfair Hrest IH]; intros s Hu Hw; cbn [run_frames].
  - exists s. split; [reflexivity | split; assumption].
  - destruct (running s).
    + destruct (frame_ok s f Hfair Hu Hw) as (s1 & -> & Hu1 & Hw1).
      cbn [bind]. apply IH; assumption.
    + exists s. split; [reflexivity | split; assumption].
Qed.

Lemma main_never_raises_witness :
  exists s,
    main (fun _ _ => (4%nat, WHITE))
      [mkframe (fun _ _ => (5%nat, WHITE)) (400, 300)%Z (1 / 60)
         [MOUSEBUTTONDOWN 1];
       mkframe (fun _ _ => (5%nat, WHITE)) (250, 310)%Z (1 / 60)
         [MOUSEBUTTONUP 1; QUIT]]
    = Ok s.
Proof.
  destruct (main_never_raises (fun _ _ => (4%nat, WHITE))
    [mkframe (fun _ _ => (5%nat, WHITE)) (400, 300)%Z (1 / 60) [MOUSEBUTTONDOWN 1];
     mkframe (fun _ _ => (5%nat, WHITE)) (250, 310)%Z (1 / 60) [MOUSEBUTTONUP 1; QUIT]])
    as (s & H & _).
  - intros i j. cbn. lia.
  - repeat constructor; intros i j; cbn; lia.
  - exists s. exact H.
Defined.

(** ** The order of a pair, and energy *)

Lemma disjoint_on_sym va vb axis : disjoint_on va vb axis <-> disjoint_on vb va axis.
Proof. unfold disjoint_on. tauto. Qed.

Lemma overlap_on_sym va vb axis : overlap_on va vb axis = overlap_on vb va axis.
Proof. unfold overlap_on. rewrite Rmin_comm, Rmax_comm. reflexivity. Qed.

(** The two outcomes of [check_collision_sat] on polygons that have
    vertices and give an axis. *)
Lemma check_collision_sat_outcome a b :
  let va := get_world_vertices a in
  let vb := get_world_vertices b in
  let axes := get_axes va ++ get_axes vb in
  va <> [] -> vb <> [] -> axes <> [] ->
  ((exists axis, In axis axes /\ disjoint_on va vb axis)
   /\ check_collision_sat a b = Ok (false, None, Fin 0))
  \/ ((forall axis, In axis axes -> ~ disjoint_on va vb axis)
      /\ exists axis,
           In axis axes
           /\ (forall ax, In ax axes -> overlap_on va vb axis <= overlap_on va vb ax)
           /\ check_collision_sat a b
              = Ok (true, Some (oriented a b axis), Fin (overlap_on va vb axis))).
Proof.
  intros va vb axes Hva Hvb Hax. unfold check_collision_sat. fold va vb axes.
  destruct (sat_loop_spec va vb Hva Hvb axes PInf None)
    as [(Hex & Hs) | (Hall & mo' & cn' & Hs & Hsc)]; rewrite Hs; cbn [bind].
  - left. split; [exact Hex | reflexivity].
  - right. split; [exact Hall |].
    destruct Hsc as [(_ & _ & Hge) | (axis & Hin & -> & -> & _ & Hmin)].
    + exfalso. destruct axes as [| ax rest]; [contradiction |].
      specialize (Hge ax (or_introl eq_refl)). discriminate.
    + exists axis. repeat split; assumption.
Qed.

(** X23.  Detection does not depend on the order of the pair: when
    [check_collision_sat] returns for a pair taken both ways, it reports
    a collision both ways or neither way, with the same depth. *)
Theorem check_collision_sat_order (a b : RigidBody)
    (r1 r2 : bool * option vec * xreal) :
  check_collision_sat a b = Ok r1 -> check_collision_sat b a = Ok r2 ->
  fst (fst r1) = fst (fst r2) /\ snd r1 = snd r2.
Proof.
  intros H1 H2.
  destruct (check_collision_sat_outcomes a b) as (Hn1 & Hm1 & _).
  cbv zeta in *.
  remember (get_world_vertices a) as va eqn:Eva.
  remember (get_world_vertices b) as vb eqn:Evb.
  assert (Hax : get_axes va ++ get_axes vb <> [])
    by (intro E; rewrite (Hn1 E) in H1; discriminate).
  assert (Hva : va <> [])
    by (intro E; rewrite (Hm1 Hax (or_introl E)) in H1; discriminate).
  assert (Hvb : vb <> [])
    by (intro E; rewrite (Hm1 Hax (or_intror E)) in H1; discriminate).
  assert (Hax' : get_axes vb ++ get_axes va <> []).
  { intro E. apply app_eq_nil in E. destruct E as (E1 & E2).
    apply Hax. rewrite E1, E2. reflexivity. }
  assert (Hperm : forall ax, In ax (get_axes vb ++ get_axes va)
                             <-> In ax (get_axes va ++ get_axes vb)).
  { intro ax. rewrite !in_app_iff. tauto. }
  pose proof (check_collision_sat_outcome a b) as O1.
  pose proof (check_collision_sat_outcome b a) as O2.
  cbv zeta in O1, O2. rewrite <- Eva, <- Evb in O1, O2.
  destruct (O1 Hva Hvb Hax)
    as [((ax1 & Hi1 & Hd1) & E1) | (Hall1 & ax1 & Hi1 & Hmin1 & E1)];
  destruct (O2 Hvb Hva Hax')
    as [((ax2 & Hi2 & Hd2) & E2) | (Hall2 & ax2 & Hi2 & Hmin2 & E2)];
  rewrite E1 in H1; rewrite E2 in H2;
  injection H1 as <-; injection H2 as <-; cbn [fst snd].
  - split; reflexivity.
  - exfalso. apply (Hall2 ax1); [apply Hperm, Hi1 | apply disjoint_on_sym, Hd1].
  - exfalso. apply (Hall1 ax2); [apply Hperm, Hi2 | apply disjoint_on_sym, Hd2].
  - split; [reflexivity |]. f_equal.
    pose proof (Hmin1 ax2 (proj1 (Hperm ax2) Hi2)) as L1.
    pose proof (Hmin2 ax1 (proj2 (Hperm ax1) Hi1)) as L2.
    rewrite (overlap_on_sym vb va ax2), (overlap_on_sym vb va ax1) in L2.
    rewrite (overlap_on_sym vb va ax2). lra.
Qed.

Lemma check_collision_sat_order_witness :
  exists nrm, check_collision_sat (box_body 15 4 10) (box_body 0 0 10)
              = Ok (true, nrm, Fin 5).
Proof.
  destruct (check_collision_sat_outcomes (box_body 15 4 10) (box_body 0 0 10))
    as (_ & _ & Hok).
  cbv zeta in Hok. destruct Hok as (r & Hr);
    try (rewrite ?box_world, ?box_axes by lra; discriminate).
  destruct (check_collision_sat_order _ _ _ _ boxes_collide Hr) as (H1 & H2).
  destruct r as [[c n] d]. cbn [fst snd] in H1, H2. subst c d.
  exists n. exact Hr.
Defined.

(** X24.  For two movable bodies of non-zero size and a unit normal,
    [resolve_collision] never adds kinetic energy: the energy of
    translation and rotation of the pair after the call is at most what
    it was before. *)
Theorem resolve_collision_adds_no_energy (a b : RigidBody) (n : vec) (d : R) :
  consistent a -> consistent b ->
  0 < mass a -> 0 < mass b -> size a <> 0 -> size b <> 0 ->
  dot n n = 1 ->
  kinetic_energy (res_a (resolve_collision a b n d))
  + kinetic_energy (res_b (resolve_collision a b n d))
  <= kinetic_energy a + kinetic_energy b.
Proof.
  intros Ca Cb Hma Hmb Hsa Hsb Hn.
  destruct (consistent_movable a Ca Hma) as (Ima & Hpa).
  destruct (consistent_movable b Cb Hmb) as (Imb & Hpb).
  destruct (consistent_inertia a Ca Hma Hsa) as (HIa & Iia).
  destruct (consistent_inertia b Cb Hmb Hsb) as (HIb & Iib).
  destruct (resolve_collision_cases a b n d)
    as [(Ht & _) | [(_ & _ & Hr) | (_ & _ & _ & c & vn & _ & _ & Hvn & Hr)]];
    cbv zeta in *.
  - lra.
  - rewrite Hr. unfold kinetic_energy. cbn. lra.
  - destruct Hr as [(_ & Hr) | (Hle & Hr)]; rewrite Hr;
      [unfold kinetic_energy; cbn; lra |].
    clear Hr.
    set (h := d * 0.5) in *. clearbody h.
    set (ra := vsub c (pos (set_pos a (vsub (pos a) (vscale n h))))) in *.
    set (rb := vsub c (pos (set_pos b (vadd (pos b) (vscale n h))))) in *.
    set (denom := inv_mass a + inv_mass b + cross_2d ra n ^ 2 * inv_inertia a
                  + cross_2d rb n ^ 2 * inv_inertia b) in *.
    assert (Hia : 0 < inv_inertia a)
      by (rewrite Iia; apply Rdiv_lt_0_compat; lra).
    assert (Hib : 0 < inv_inertia b)
      by (rewrite Iib; apply Rdiv_lt_0_compat; lra).
    assert (Hden : 0 < denom).
    { unfold denom.
      assert (0 <= cross_2d ra n ^ 2) by apply pow2_ge_0.
      assert (0 <= cross_2d rb n ^ 2) by apply pow2_ge_0.
      assert (0 <= cross_2d ra n ^ 2 * inv_inertia a) by (apply Rmult_le_pos; lra).
      assert (0 <= cross_2d rb n ^ 2 * inv_inertia b) by (apply Rmult_le_pos; lra).
      lra. }
    set (j := - (1 + 0.9) * vn / denom).
    assert (Hj : j * denom = - (1 + 0.9) * vn).
    { unfold j, Rdiv. rewrite Rmult_assoc, Rinv_l by lra. lra. }
    clearbody j.
    cbn [res_a res_b fst snd].
    match goal with |- ?L <= ?R =>
      assert (Hid : L = R + (j * vn
                             + j * j * ((inv_mass a + inv_mass b) * dot n n
                                        + cross_2d ra n ^ 2 * inv_inertia a
                                        + cross_2d rb n ^ 2 * inv_inertia b) / 2))
    end.
    { rewrite Hvn. unfold ra, rb, kinetic_energy, separation_speed, point_velocity,
        cross_2d, dot.
      cbn [pos vel ang_vel mass inertia set_pos set_vel set_ang_vel
           vx vy vsub vadd vscale].
      rewrite Ima, Imb, Iia, Iib. field. repeat split; lra. }
    rewrite Hid, Hn, Rmult_1_r. fold denom.
    assert (Hjv : j * vn * denom = - (1 + 0.9) * (vn * vn)) 
      by (replace (j * vn * denom) with (j * denom * vn) by ring; rewrite Hj; ring).
    assert (Hjv0 : j * vn <= 0).
    { destruct (Rle_dec (j * vn) 0) as [H0 | H0]; [exact H0 | exfalso].
      apply Rnot_le_lt in H0.
      assert (0 < j * vn * denom) by (apply Rmult_lt_0_compat; assumption).
      nra. }
    replace (j * j * denom / 2) with (j * (j * denom) / 2) by (unfold Rdiv; ring).
    rewrite Hj. nra.
Qed.

Lemma resolve_collision_adds_no_energy_witness :
  kinetic_energy
    (res_a (resolve_collision (moving_ball 300 300 10 0 35)
              (moving_ball 330 300 (-10) 0 35) (mkvec 1 0) 5))
  + kinetic_energy
      (res_b (resolve_collision (moving_ball 300 300 10 0 35)
                (moving_ball 330 300 (-10) 0 35) (mkvec 1 0) 5))
  <= kinetic_energy (moving_ball 300 300 10 0 35)
     + kinetic_energy (moving_ball 330 300 (-10) 0 35).
Proof.
  apply (resolve_collision_adds_no_energy (moving_ball 300 300 10 0 35)
           (moving_ball 330 300 (-10) 0 35) (mkvec 1 0) 5).
  - apply moving_ball_consistent; lra.
  - apply moving_ball_consistent; lra.
  - simpl; lra.
  - simpl; lra.
  - simpl; lra.
  - simpl; lra.
  - unfold dot; simpl; lra.
Defined.

(** ** Pockets, the menu and the end of the loop *)

Lemma check_pocket_fall_iff b pockets :
  check_pocket_fall b pockets = true
  <-> exists p, In p pockets /\ norm (vsub (pos b) p) < HOLE_RADIUS.
Proof.
  induction pockets as [| p rest IH]; cbn [check_pocket_fall].
  - split; [discriminate | intros (p & [] & _)].
  - destruct (Rltb (norm (vsub (pos b) p)) HOLE_RADIUS) eqn:E.
    + split; [intros _ | reflexivity].
      exists p. split; [left; reflexivity | apply Rltb_lt, E].
    + rewrite IH. apply Rltb_ge in E. split.
      * intros (q & Hq & Hlt). exists q. split; [right; exact Hq | exact Hlt].
      * intros (q & [<- | Hq] & Hlt); [lra |]. exists q. split; assumption.
Qed.

(** X25.  [check_pocket_fall] answers [True] exactly when the centre of
    the body is nearer than [HOLE_RADIUS] to one of the pockets given;
    and a body on the spawn point of the cue is in none of the six
    pockets of [get_pockets], so the cue put back there after a fall
    does not fall again where it stands. *)
Theorem check_pocket_fall_spec (b : RigidBody) (pockets : list vec) :
  (check_pocket_fall b pockets = true
   <-> exists p, In p pockets /\ norm (vsub (pos b) p) < HOLE_RADIUS)
  /\ (pos b = spawn -> check_pocket_fall b get_pockets = false).
Proof.
  split; [apply check_pocket_fall_iff |].
  intro Hs. destruct (check_pocket_fall b get_pockets) eqn:E; [| reflexivity].
  exfalso. apply check_pocket_fall_iff in E. destruct E as (p & Hp & Hlt).
  rewrite Hs in Hlt.
  pose proof (norm_nonneg (vsub spawn p)) as H0.
  pose proof (norm_sq (vsub spawn p)) as Hsq.
  set (m := norm (vsub spawn p)) in *. clearbody m.
  unfold HOLE_RADIUS in Hlt.
  assert (Hm : m * m < 25 * 25) by nra.
  unfold get_pockets in Hp. cbn [flat_map map app In] in Hp.
  unfold spawn in Hsq.
  rewrite TABLE_X_val, TABLE_Y_val in Hp, Hsq.
  unfold BORDER_SIZE, TABLE_WIDTH, TABLE_HEIGHT in Hp, Hsq.
  repeat (destruct Hp as [<- | Hp]; [cbn [vsub vx vy] in Hsq; lra |]).
  destruct Hp.
Qed.

Lemma check_pocket_fall_spec_witness :
  check_pocket_fall (resting_ball 300 300 35 true) get_pockets = false.
Proof.
  apply (check_pocket_fall_spec (resting_ball 300 300 35 true) get_pockets).
  apply vec_eq; unfold spawn; cbn [pos resting_ball vx vy];
    rewrite ?TABLE_X_val, ?TABLE_Y_val; unfold TABLE_HEIGHT; lra.
Defined.

Lemma handle_event_running rnd mouse_pos s ev s' :
  handle_event rnd mouse_pos s ev = Ok s' ->
  (running s = false -> running s' = false)
  /\ (ev = QUIT -> running s' = false).
Proof.
  destruct ev as [| button | button |]; cbn [handle_event].
  - intro H; injection H as <-. split; reflexivity.
  - intro H. split; [| discriminate]. revert H.
    destruct (button =? 1)%Z; [| intro H; injection H as <-; exact (fun K => K)].
    destruct (collidepoint btn_menu_rect mouse_pos);
      [intro H; injection H as <-; exact (fun K => K) |].
    destruct (show_menu s).
    + destruct (collidepoint btn_reset_rect mouse_pos).
      * destruct (init_game rnd) as [l | e]; cbn [bind]; [| discriminate].
        intro H; injection H as <-; exact (fun K => K).
      * destruct (collidepoint btn_quit_rect mouse_pos);
          intro H; injection H as <-; [reflexivity | exact (fun K => K)].
    + destruct (negb false && _); [| intro H; injection H as <-; exact (fun K => K)].
      destruct (Rltb _ 5); intro H; injection H as <-; exact (fun K => K).
  - intro H. split; [| discriminate]. revert H.
    destruct ((button =? 1)%Z && is_dragging s);
      [| intro H; injection H as <-; exact (fun K => K)].
    destruct (start_drag s); [| discriminate].
    intro H; injection H as <-; exact (fun K => K).
  - intro H; injection H as <-. split; [exact (fun K => K) | discriminate].
Qed.

Lemma handle_events_running rnd mouse_pos evs : forall s s',
  handle_events rnd mouse_pos s evs = Ok s' ->
  (running s = false -> running s' = false)
  /\ (In QUIT evs -> running s' = false).
Proof.
  induction evs as [| ev rest IH]; intros s s'; cbn [handle_events].
  - intro H; injection H as <-. split; [exact (fun K => K) | intros []].
  - destruct (handle_event rnd mouse_pos s ev) as [s1 | e] eqn:E1; cbn [bind];
      [| discriminate].
    intro H. destruct (IH _ _ H) as (Hk & Hq).
    destruct (handle_event_running _ _ _ _ _ E1) as (Hk1 & Hq1).
    split.
    + intro Hr. apply Hk, Hk1, Hr.
    + intros [-> | Hin]; [apply Hk, Hq1; reflexivity | apply Hq, Hin].
Qed.

(** X26.  Nothing in the loop sets [running] again: once it is false no
    event of the frame makes it true, and a frame whose events hold a
    [QUIT] is the last one: its other events and its physics are still
    run, and no later frame is. *)
Theorem quit_ends_the_loop (s : ui) (f : frame_input) (rest : list frame_input) :
  running s = true -> In QUIT (f_events f) ->
  run_frames s (f :: rest) = frame s f
  /\ (forall s', frame s f = Ok s' -> running s' = false).
Proof.
  intros Hr Hq.
  assert (Hoff : forall s', frame s f = Ok s' -> running s' = false).
  { intros s'. unfold frame.
    destruct (handle_events (f_rnd f) (f_mouse f) s (f_events f)) as [s1 | e] eqn:E;
      cbn [bind]; [| discriminate].
    destruct (handle_events_running _ _ _ _ _ E) as (_ & H1).
    destruct (step (game s1) (f_dt f)) as [w [e |]]; [discriminate |].
    intro H; injection H as <-. cbn [running]. apply H1, Hq. }
  split; [| exact Hoff].
  cbn [run_frames]. rewrite Hr.
  destruct (frame s f) as [s' | e]; cbn [bind]; [| reflexivity].
  destruct rest as [| f' rest']; cbn [run_frames]; [reflexivity |].
  rewrite (Hoff s' eq_refl). reflexivity.
Qed.

Lemma quit_ends_the_loop_witness :
  run_frames (mkui pocket_world 0%nat false None false true)
    [mkframe (fun _ _ => (3%nat, WHITE)) (0, 0)%Z (1 / 60) [OtherEvent; QUIT];
     mkframe (fun _ _ => (3%nat, WHITE)) (0, 0)%Z (1 / 60) [MOUSEBUTTONDOWN 1]]
  = frame (mkui pocket_world 0%nat false None false true)
      (mkframe (fun _ _ => (3%nat, WHITE)) (0, 0)%Z (1 / 60) [OtherEvent; QUIT]).
Proof.
  apply (quit_ends_the_loop (mkui pocket_world 0%nat false None false true)
           (mkframe (fun _ _ => (3%nat, WHITE)) (0, 0)%Z (1 / 60) [OtherEvent; QUIT])
           [mkframe (fun _ _ => (3%nat, WHITE)) (0, 0)%Z (1 / 60) [MOUSEBUTTONDOWN 1]]).
  - reflexivity.
  - right; left; reflexivity.
Defined.

Lemma buttons_apart p :
  (collidepoint btn_reset_rect p = true -> collidepoint btn_menu_rect p = false)
  /\ (collidepoint btn_quit_rect p = true ->
      collidepoint btn_menu_rect p = false /\ collidepoint btn_reset_rect p = false).
Proof.
  unfold collidepoint, btn_menu_rect, btn_reset_rect, btn_quit_rect.
  cbn [r_left r_top r_width r_height].
  destruct p as [x y]. cbn [fst snd].
  split; [intro H | intro H; split];
    repeat (apply andb_true_iff in H; destruct H as (H & ?));
    repeat match goal with
           | H : (_ <=? _)%Z = true |- _ => apply Z.leb_le in H
           | H : (_ <? _)%Z = true |- _ => apply Z.ltb_lt in H
           end;
    repeat (apply andb_false_iff; first [right; apply Z.ltb_ge; lia
                                        | right; apply Z.leb_gt; lia | left]).
Qed.

(** X27.  With the menu open, a left click on the reset button deals
    again whatever the state of the game: the click cannot be on the
    menu button at the same time, the collection becomes a fresh one of
    the cue and fifteen targets with [cue_ball] the new cue at the spawn
    point, and the menu closes; [running], [is_dragging] and
    [start_drag] are left as they were. *)
Theorem reset_deals_again (rnd : nat -> nat -> nat * colour) (mouse_pos : Z * Z)
    (s : ui) :
  fair rnd -> show_menu s = true -> collidepoint btn_reset_rect mouse_pos = true ->
  exists cue targets,
    init_game rnd = Ok (cue :: targets)
    /\ handle_event rnd mouse_pos s (MOUSEBUTTONDOWN 1)
       = Ok (mkui (world_of (cue :: targets)) 0%nat (is_dragging s) (start_drag s)
               false (running s))
    /\ List.length (balls (world_of (cue :: targets))) = 16%nat
    /\ heap (world_of (cue :: targets)) 0%nat = cue
    /\ is_cue cue = true /\ pos cue = spawn /\ vel cue = vzero.
Proof.
  intros Hf Hm Hc.
  destruct (init_game_spec rnd Hf) as (cue & targets & Hi & Hl & Hcue & Hpos & _ & Hall & _).
  exists cue, targets. split; [exact Hi |].
  split; [| split; [| split; [| split; [| split]]]].
  - cbn [handle_event]. change (1 =? 1)%Z with true. cbv iota.
    rewrite (proj1 (buttons_apart mouse_pos) Hc), Hm, Hc, Hi. reflexivity.
  - unfold world_of. cbn [balls]. rewrite length_seq. cbn [List.length].
    rewrite Hl. reflexivity.
  - reflexivity.
  - exact Hcue.
  - exact Hpos.
  - inversion Hall as [| ? ? (_ & _ & Hv & _) _]. exact Hv.
Qed.

Lemma reset_deals_again_witness :
  exists cue targets,
    handle_event (fun _ _ => (3%nat, WHITE)) (900, 70)%Z
      (mkui pocket_world 0%nat false None true true) (MOUSEBUTTONDOWN 1)
    = Ok (mkui (world_of (cue :: targets)) 0%nat false None false true).
Proof.
  destruct (reset_deals_again (fun _ _ => (3%nat, WHITE)) (900, 70)%Z
              (mkui pocket_world 0%nat false None true true))
    as (cue & targets & _ & H & _).
  - intros i j. cbn. lia.
  - reflexivity.
  - reflexivity.
  - exists cue, targets. exact H.
Defined.
